(** * SpiceDB storage core: watch feed, tuple queries and schema writes

    A shallow embedding of three Go sources of the repository,

    - [internal/datastore/postgres/watch.go]   (the change feed),
    - the Postgres tuple-query file            ([QueryTuples], [reverseQueryBase]),
    - [internal/services/v1alpha1/schema.go]   ([ReadSchema], [WriteSchema],
                                                [rewriteError]),

    followed by the properties of the specification that concern them and by
    further properties of the same functions.

    Conventions.  A Go [uint64] is an [N]; the sources only compare and copy
    transaction ids, so no wrap-around arises on them.  A Go [int] is a [Z]
    wrapped to 64 bits where the source adds.  A Go [string] is a Rocq
    [string] (a sequence of bytes), so [String.length] is Go's [len].  A Go
    [map] is a [gmap]; ranging over a map visits its entries in the order of
    [map_to_list], which stands for the unspecified order of Go. *)

From Stdlib Require Import ZArith NArith Lia.
From stdpp Require Import gmap strings list sorting fin_maps.

Local Open Scope string_scope.
Set Warnings "-register-all,-clear-no-such-hyp".

(** ** Go errors

    The error values that travel through the three sources.  [errors.Is] and
    [errors.As] are read on unwrapped errors: an error is of a kind when it is
    built by that kind's constructor. *)

Inductive codes := NotFound | InvalidArgument.

Inductive error :=
  | context_Canceled
  | ErrWatchCanceled
  | ErrWatchDisconnected
  | ErrReadOnly
  | UnknownNamespaceError (name : string)
  | ErrorWithContext (msg : string)
  | status_Error (c : codes) (msg : string)
  | ErrServiceReadOnly
  | ErrOther (msg : string).

#[global] Instance codes_eq_dec : EqDecision codes.
Proof. solve_decision. Defined.
#[global] Instance error_eq_dec : EqDecision error.
Proof. solve_decision. Defined.

(** ** The v0 API messages *)

Module v0.

Record ObjectAndRelation := {
  Namespace : string;
  ObjectId : string;
  Relation : string
}.

(** [User] has the single variant [User_Userset]; the tuple keeps the userset
    itself. *)
Record RelationTuple := {
  tplObjectAndRelation : ObjectAndRelation;
  tplUserset : ObjectAndRelation
}.

Inductive RelationTupleUpdate_Operation :=
  | RelationTupleUpdate_UNKNOWN
  | RelationTupleUpdate_CREATE
  | RelationTupleUpdate_TOUCH
  | RelationTupleUpdate_DELETE.

Record RelationTupleUpdate := {
  Operation : RelationTupleUpdate_Operation;
  Tuple : RelationTuple
}.

(** A namespace definition: its name and the names of its relations (the
    rewrites of the relations play no part in the sources). *)
Record NamespaceDefinition := {
  Name : string;
  nsRelation : list string
}.

#[global] Instance NamespaceDefinition_eq_dec : EqDecision NamespaceDefinition.
Proof. solve_decision. Defined.
#[global] Instance ObjectAndRelation_eq_dec : EqDecision ObjectAndRelation.
Proof. solve_decision. Defined.
#[global] Instance RelationTuple_eq_dec : EqDecision RelationTuple.
Proof. solve_decision. Defined.
#[global] Instance Operation_eq_dec : EqDecision RelationTupleUpdate_Operation.
Proof. solve_decision. Defined.
#[global] Instance RelationTupleUpdate_eq_dec : EqDecision RelationTupleUpdate.
Proof. solve_decision. Defined.

End v0.

(** ** Package [tuple] *)

Module tuple.

(** Modelled from the spec: [tuple.StringONR] and [tuple.String] live in
    [pkg/tuple], which is not among the sources.  The specification gives the
    canonical tuple string as ["ns:id#rel@sns:sid#srel"]. *)
Definition StringONR (onr : v0.ObjectAndRelation) : string :=
  v0.Namespace onr +:+ ":" +:+ v0.ObjectId onr +:+ "#" +:+ v0.Relation onr.

Definition String (tpl : v0.RelationTuple) : string :=
  StringONR (v0.tplObjectAndRelation tpl) +:+ "@" +:+ StringONR (v0.tplUserset tpl).

End tuple.

(** ** Package [datastore] *)

Module datastore.

(** Modelled from the spec: [datastore.Revision] and the conversions
    [revisionFromTransaction] / [transactionFromRevision] are declared
    outside the sources.  The specification makes a revision an opaque
    identifier backed by the unsigned 64-bit transaction counter, with a
    total conversion that is a bijection; the record below is that
    bijection, and revisions are ordered as their counters. *)
Record Revision := revisionFromTransaction { transactionFromRevision : N }.

Record RevisionChanges := {
  rcRevision : Revision;
  rcChanges : list v0.RelationTupleUpdate
}.

Record TupleQueryResourceFilter := {
  ResourceType : string;
  OptionalResourceID : string;
  OptionalResourceRelation : string
}.

#[global] Instance Revision_eq_dec : EqDecision Revision.
Proof. solve_decision. Defined.
#[global] Instance RevisionChanges_eq_dec : EqDecision RevisionChanges.
Proof. solve_decision. Defined.

(** The [Datastore] interface, as far as the schema service writes through
    it.  [D] is the state of the store; a call returns the state it leaves
    behind together with the Go result [(Revision, error)]. *)
Class Datastore (D : Type) := {
  WriteNamespace : D -> v0.NamespaceDefinition -> D * (error + Revision)
}.

(** The read side of the interface, as far as the schema service reads
    through it: [ReadNamespace] returns the Go triple [(found, revision,
    err)] and leaves the store as it is. *)
Class NamespaceReader (D : Type) := {
  ReadNamespace : D -> string -> error + (v0.NamespaceDefinition * Revision)
}.

End datastore.

(** ** The [tuple] table and the squirrel predicates over it *)

Inductive Column :=
  | colNamespace | colObjectID | colRelation
  | colUsersetNamespace | colUsersetObjectID | colUsersetRelation
  | colCreatedTxn | colDeletedTxn.

Inductive Table := tableTuple.

(** A stored row: the six tuple columns and the two transaction columns. *)
Record Row := {
  rowTuple : v0.RelationTuple;
  createdTxn : N;
  deletedTxn : N
}.

#[global] Instance Row_eq_dec : EqDecision Row.
Proof. solve_decision. Defined.

(** The arguments a predicate compares a column with: a Go [string], a Go
    [uint64], or a [datastore.Revision] handed to the driver as it is. *)
Inductive SqlValue :=
  | VString (s : string)
  | VUint64 (n : N)
  | VRevision (r : datastore.Revision).

Definition rowColumn (r : Row) (c : Column) : SqlValue :=
  match c with
  | colNamespace => VString (v0.Namespace (v0.tplObjectAndRelation (rowTuple r)))
  | colObjectID => VString (v0.ObjectId (v0.tplObjectAndRelation (rowTuple r)))
  | colRelation => VString (v0.Relation (v0.tplObjectAndRelation (rowTuple r)))
  | colUsersetNamespace => VString (v0.Namespace (v0.tplUserset (rowTuple r)))
  | colUsersetObjectID => VString (v0.ObjectId (v0.tplUserset (rowTuple r)))
  | colUsersetRelation => VString (v0.Relation (v0.tplUserset (rowTuple r)))
  | colCreatedTxn => VUint64 (createdTxn r)
  | colDeletedTxn => VUint64 (deletedTxn r)
  end.

(** SQL comparison of a column value with an argument: strings with strings,
    numbers with numbers (a revision counts as its transaction number); a
    comparison across the two kinds selects no row. *)
Definition sqlNumber (v : SqlValue) : option N :=
  match v with
  | VString _ => None
  | VUint64 n => Some n
  | VRevision r => Some (datastore.transactionFromRevision r)
  end.

Definition sqlEq (a b : SqlValue) : bool :=
  match a, b with
  | VString s, VString s' => bool_decide (s = s')
  | _, _ =>
      match sqlNumber a, sqlNumber b with
      | Some n, Some n' => (n =? n')%N
      | _, _ => false
      end
  end.

Definition sqlGt (a b : SqlValue) : bool :=
  match sqlNumber a, sqlNumber b with
  | Some n, Some n' => (n' <? n)%N
  | _, _ => false
  end.

Definition sqlLtOrEq (a b : SqlValue) : bool :=
  match sqlNumber a, sqlNumber b with
  | Some n, Some n' => (n <=? n')%N
  | _, _ => false
  end.

Module sq.

(** The squirrel predicate forms the sources use. *)
Inductive Sqlizer :=
  | Eq (c : Column) (v : SqlValue)
  | Gt (c : Column) (v : SqlValue)
  | LtOrEq (c : Column) (v : SqlValue)
  | And (ps : list Sqlizer)
  | Or (ps : list Sqlizer).

Record SelectBuilder := {
  columns : list Column;
  from : Table;
  whereParts : list Sqlizer
}.

Definition Select (cols : list Column) : Table -> SelectBuilder :=
  fun t => {| columns := cols; from := t; whereParts := [] |}.

(** [b.Where(p)] adds [p] to the conjunction of the builder. *)
Definition Where (p : Sqlizer) (b : SelectBuilder) : SelectBuilder :=
  {| columns := columns b; from := from b; whereParts := whereParts b ++ [p] |}.

(** Whether a row satisfies a predicate. *)
Fixpoint holds (r : Row) (p : Sqlizer) : bool :=
  match p with
  | Eq c v => sqlEq (rowColumn r c) v
  | Gt c v => sqlGt (rowColumn r c) v
  | LtOrEq c v => sqlLtOrEq (rowColumn r c) v
  | And ps => forallb (holds r) ps
  | Or ps => existsb (holds r) ps
  end.

(** Whether a row is selected by a builder: every [Where] part holds. *)
Definition selects (b : SelectBuilder) (r : Row) : bool :=
  forallb (holds r) (whereParts b).

(** Running the query over the contents of the table. *)
Definition run (b : SelectBuilder) (table : list Row) : list Row :=
  List.filter (selects b) table.

End sq.

(** ** Package [common]: what a tuple query carries *)

Module common.

Record SchemaInformation := {
  ColNamespace : Column;
  ColObjectID : Column;
  ColRelation : Column;
  ColUsersetNamespace : Column;
  ColUsersetObjectID : Column;
  ColUsersetRelation : Column
}.

Inductive attribute_Key := ObjNamespaceNameKey | ObjIDKey | ObjRelationNameKey.

Record attribute_KeyValue := {
  attrKey : attribute_Key;
  attrValue : string
}.

(** [Conn] and [Tracer] are handles shared by every query and are left out;
    [PrepareTransaction] is [nil] in both builders of the sources. *)
Record TupleQuery := {
  Schema : SchemaInformation;
  PrepareTransaction : option unit;
  InitialQuery : sq.SelectBuilder;
  InitialQuerySizeEstimate : Z;
  Revision : datastore.Revision;
  TracerAttributes : list attribute_KeyValue;
  DebugName : string;
  SplitAtEstimatedQuerySize : Z
}.

End common.

(** ** Go [int] arithmetic: 64 bits, two's complement *)

Definition wrapInt (z : Z) : Z := ((z + 2 ^ 63) mod 2 ^ 64 - 2 ^ 63)%Z.

Definition intAdd (a b : Z) : Z := wrapInt (a + b).

Definition len (s : string) : Z := Z.of_nat (String.length s).

Definition maxInt : Z := (2 ^ 63 - 1)%Z.

(** ** Package [postgres]: the watch feed ([watch.go]) *)

Module postgres.

Record pgDatastore := {
  watchBufferLength : nat;
  splitAtEstimatedQuerySize : Z
}.

Definition queryChanged : sq.SelectBuilder :=
  sq.Select
    [colNamespace; colObjectID; colRelation;
     colUsersetNamespace; colUsersetObjectID; colUsersetRelation;
     colCreatedTxn; colDeletedTxn]
    tableTuple.

Record changeRecord := {
  tupleTouches : gmap string v0.RelationTuple;
  tupleDeletes : gmap string v0.RelationTuple
}.

(** [addChange] mutates [changes] in place; here it returns the updated map.
    The record of the revision is created when it is missing, and written
    back after the update (the Go map holds a pointer to it).  An operation
    other than TOUCH and DELETE ends in [log.Fatal], which stops the process:
    [None]. *)
Definition addChange
    (changes : gmap N changeRecord)
    (revision : N)
    (tpl : v0.RelationTuple)
    (op : v0.RelationTupleUpdate_Operation) : option (gmap N changeRecord) :=
  let revisionChanges :=
    match changes !! revision with
    | Some rc => rc
    | None => {| tupleTouches := ∅; tupleDeletes := ∅ |}
    end in
  let tplKey := tuple.String tpl in
  match op with
  | v0.RelationTupleUpdate_TOUCH =>
      Some (<[revision :=
              {| tupleTouches := <[tplKey := tpl]> (tupleTouches revisionChanges);
                 tupleDeletes := delete tplKey (tupleDeletes revisionChanges) |}]> changes)
  | v0.RelationTupleUpdate_DELETE =>
      match tupleTouches revisionChanges !! tplKey with
      | Some _ => Some (<[revision := revisionChanges]> changes)
      | None =>
          Some (<[revision :=
                  {| tupleTouches := tupleTouches revisionChanges;
                     tupleDeletes := <[tplKey := tpl]> (tupleDeletes revisionChanges) |}]> changes)
      end
  | _ => None
  end.

(** What one poll observes of the database.  [loadRevision] belongs to a file
    outside the sources: its result, a Go pair [(uint64, error)], is an
    observation.  So are the contents of the [tuple] table when the query
    runs, the failure of [dbpool.Query], and a failure of [rows.Scan] or
    [rows.Err] while the rows are read. *)
Record dbView := {
  loadRevision : N * option error;
  tableRows : list Row;
  queryErr : option error;
  rowsErr : option error
}.

(** The predicate of the query of [loadChanges]. *)
Definition changedWhere (afterRevision newRevision : N) : sq.Sqlizer :=
  sq.Or [
    sq.And [sq.Gt colCreatedTxn (VUint64 afterRevision);
            sq.LtOrEq colCreatedTxn (VUint64 newRevision)];
    sq.And [sq.Gt colDeletedTxn (VUint64 afterRevision);
            sq.LtOrEq colDeletedTxn (VUint64 newRevision)]
  ].

(** The body of the [rows.Next()] loop for one scanned row. *)
Definition stageRow (afterRevision newRevision : N)
    (stagedChanges : gmap N changeRecord) (r : Row) : option (gmap N changeRecord) :=
  let tpl := rowTuple r in
  staged1 ←
    (if ((afterRevision <? createdTxn r) && (createdTxn r <=? newRevision))%N
     then addChange stagedChanges (createdTxn r) tpl v0.RelationTupleUpdate_TOUCH
     else Some stagedChanges);
  if ((afterRevision <? deletedTxn r) && (deletedTxn r <=? newRevision))%N
  then addChange staged1 (deletedTxn r) tpl v0.RelationTupleUpdate_DELETE
  else Some staged1.

Fixpoint stageRows (afterRevision newRevision : N)
    (stagedChanges : gmap N changeRecord) (rows : list Row) : option (gmap N changeRecord) :=
  match rows with
  | [] => Some stagedChanges
  | r :: rows' =>
      staged' ← stageRow afterRevision newRevision stagedChanges r;
      stageRows afterRevision newRevision staged' rows'
  end.

(** [sort.Slice] with the given [less]: an insertion sort stands for the
    library's algorithm. *)
Fixpoint sortInsert {A} (less : A -> A -> bool) (x : A) (l : list A) : list A :=
  match l with
  | [] => [x]
  | y :: l' => if less y x then y :: sortInsert less x l' else x :: y :: l'
  end.

Fixpoint sort_Slice {A} (less : A -> A -> bool) (l : list A) : list A :=
  match l with
  | [] => []
  | x :: l' => sortInsert less x (sort_Slice less l')
  end.

(** The changes of one revision: its touches, then its deletes. *)
Definition revisionChange (rev : N) (rec : changeRecord) : datastore.RevisionChanges :=
  {| datastore.rcRevision := datastore.revisionFromTransaction rev;
     datastore.rcChanges :=
       ((fun kv => {| v0.Operation := v0.RelationTupleUpdate_TOUCH; v0.Tuple := kv.2 |})
          <$> map_to_list (tupleTouches rec))
       ++ ((fun kv => {| v0.Operation := v0.RelationTupleUpdate_DELETE; v0.Tuple := kv.2 |})
          <$> map_to_list (tupleDeletes rec)) |}.

(** The tail of [loadChanges]: the staged revisions in ascending order. *)
Definition collectChanges (stagedChanges : gmap N changeRecord) : list datastore.RevisionChanges :=
  let revisionsWithChanges := sort_Slice N.ltb ((map_to_list stagedChanges).*1) in
  omap (fun rev => revisionChange rev <$> stagedChanges !! rev) revisionsWithChanges.

(** [loadChanges] returns the Go triple [(changes, newRevision, err)];
    [None] stands for the process stopped by [log.Fatal] inside [addChange].
    Building the SQL text of this fixed query does not fail. *)
Definition loadChanges (db : dbView) (afterRevision : N)
    : option (list datastore.RevisionChanges * N * option error) :=
  let '(newRevision, err) := loadRevision db in
  match err with
  | Some e => Some ([], newRevision, Some e)
  | None =>
      if (newRevision =? afterRevision)%N then Some ([], newRevision, None)
      else
        match queryErr db with
        | Some e =>
            Some ([], newRevision,
                  Some (if decide (e = context_Canceled) then ErrWatchCanceled else e))
        | None =>
            let rows :=
              sq.run (sq.Where (changedWhere afterRevision newRevision) queryChanged)
                     (tableRows db) in
            match rowsErr db with
            | Some e => Some ([], newRevision, Some e)
            | None =>
                stagedChanges ← stageRows afterRevision newRevision ∅ rows;
                Some (collectChanges stagedChanges, newRevision, None)
            end
        end
  end.

(** *** The goroutine of [Watch]

    The [updates] channel: the records sent and not yet received, and the
    records the consumer has received, oldest first. *)
Record updatesChan := {
  chanBuffered : list datastore.RevisionChanges;
  chanReceived : list datastore.RevisionChanges
}.

(** What the consumer did since the previous send attempt: it received
    [receives] records, and it is or is not parked in a receive.  *)
Record consumerStep := {
  receives : nat;
  parked : bool
}.

Definition idle : consumerStep := {| receives := 0; parked := false |}.

Definition consume (k : nat) (ch : updatesChan) : updatesChan :=
  {| chanBuffered := drop k (chanBuffered ch);
     chanReceived := chanReceived ch ++ take k (chanBuffered ch) |}.

(** [select { case updates <- x: ... default: ... }]: the send goes through
    when a receiver is parked on the empty channel or the buffer has room;
    [None] is the [default] branch. *)
Definition trySend (capacity : nat) (receiverParked : bool) (ch : updatesChan)
    (x : datastore.RevisionChanges) : option updatesChan :=
  if receiverParked && bool_decide (chanBuffered ch = [])
  then Some {| chanBuffered := []; chanReceived := chanReceived ch ++ [x] |}
  else if (length (chanBuffered ch) <? capacity)%nat
  then Some {| chanBuffered := chanBuffered ch ++ [x]; chanReceived := chanReceived ch |}
  else None.

(** The loop writing the staged updates to the channel; [false] when a send
    took the [default] branch. *)
Fixpoint emitStaged (capacity : nat) (steps : list consumerStep) (ch : updatesChan)
    (stagedUpdates : list datastore.RevisionChanges) : updatesChan * bool :=
  match stagedUpdates with
  | [] => (ch, true)
  | changeToWrite :: rest =>
      let step := hd idle steps in
      let ch1 := consume (receives step) ch in
      match trySend capacity (parked step) ch1 changeToWrite with
      | Some ch2 => emitStaged capacity (tl steps) ch2 rest
      | None => (ch1, false)
      end
  end.

(** The surroundings of one turn of the loop: the database, whether
    [ctx.Err()] is [context.Canceled] when [loadChanges] fails, the consumer
    at each send, and whether [ctx.Done()] wins over the timer of the sleep. *)
Record pollEnv := {
  pollDb : dbView;
  ctxCanceled : bool;
  consumer : list consumerStep;
  sleepInterrupted : bool
}.

(** Where the goroutine stands: still looping with its cursor, returned after
    sending [err] on the [errors] channel (both channels are then closed by
    the deferred calls), or stopped with the process by [log.Fatal].  The
    [errors] channel has room for one error and the goroutine sends at most
    one, so that send goes through at once. *)
Inductive watchStatus :=
  | Polling (currentTxn : N)
  | Returned (err : error)
  | Fatal.

Definition watchTurn (pgd : pgDatastore) (env : pollEnv)
    (ch : updatesChan) (currentTxn : N) : updatesChan * watchStatus :=
  match loadChanges (pollDb env) currentTxn with
  | None => (ch, Fatal)
  | Some (stagedUpdates, currentTxn', Some err) =>
      if ctxCanceled env then (ch, Returned ErrWatchCanceled) else (ch, Returned err)
  | Some (stagedUpdates, currentTxn', None) =>
      match emitStaged (watchBufferLength pgd) (consumer env) ch stagedUpdates with
      | (ch', false) => (ch', Returned ErrWatchDisconnected)
      | (ch', true) =>
          if (length stagedUpdates =? 0)%nat
          then if sleepInterrupted env
               then (ch', Returned ErrWatchCanceled)
               else (ch', Polling currentTxn')
          else (ch', Polling currentTxn')
      end
  end.

(** The [for] loop, one turn per element of [envs]. *)
Fixpoint watchLoop (pgd : pgDatastore) (envs : list pollEnv)
    (ch : updatesChan) (currentTxn : N) : updatesChan * watchStatus :=
  match envs with
  | [] => (ch, Polling currentTxn)
  | env :: envs' =>
      match watchTurn pgd env ch currentTxn with
      | (ch', Polling currentTxn') => watchLoop pgd envs' ch' currentTxn'
      | stopped => stopped
      end
  end.

Definition Watch (pgd : pgDatastore) (afterRevision : datastore.Revision)
    (envs : list pollEnv) : updatesChan * watchStatus :=
  watchLoop pgd envs {| chanBuffered := []; chanReceived := [] |}
    (datastore.transactionFromRevision afterRevision).

(** Everything sent on [updates] so far, in the order of the sends. *)
Definition emitted (ch : updatesChan) : list datastore.RevisionChanges :=
  chanReceived ch ++ chanBuffered ch.

(** *** The tuple queries

    [liveDeletedTxnID] is a constant of the package declared outside the
    sources; the definitions below take it as a parameter. *)
Section Queries.

Variable liveDeletedTxnID : N.

Definition queryTuples : sq.SelectBuilder :=
  sq.Select
    [colNamespace; colObjectID; colRelation;
     colUsersetNamespace; colUsersetObjectID; colUsersetRelation]
    tableTuple.

Definition schema : common.SchemaInformation :=
  {| common.ColNamespace := colNamespace;
     common.ColObjectID := colObjectID;
     common.ColRelation := colRelation;
     common.ColUsersetNamespace := colUsersetNamespace;
     common.ColUsersetObjectID := colUsersetObjectID;
     common.ColUsersetRelation := colUsersetRelation |}.

(** Modelled from the spec: [filterToLivingObjects] is declared outside the
    sources.  The specification has [query] return the tuples alive at the
    revision; the restriction is written as its sibling [reverseQueryBase]
    writes it. *)
Definition filterToLivingObjects (original : sq.SelectBuilder)
    (revision : datastore.Revision) : sq.SelectBuilder :=
  sq.Where
    (sq.Or [sq.Eq colDeletedTxn (VUint64 liveDeletedTxnID);
            sq.Gt colDeletedTxn (VRevision revision)])
    (sq.Where
       (sq.LtOrEq colCreatedTxn (VUint64 (datastore.transactionFromRevision revision)))
       original).

Definition QueryTuples (pgd : pgDatastore) (filter : datastore.TupleQueryResourceFilter)
    (revision : datastore.Revision) : common.TupleQuery :=
  let initialQuery :=
    sq.Where (sq.Eq colNamespace (VString (datastore.ResourceType filter)))
             (filterToLivingObjects queryTuples revision) in
  let tracerAttributes :=
    [ {| common.attrKey := common.ObjNamespaceNameKey;
         common.attrValue := datastore.ResourceType filter |} ] in
  let '(initialQuery, tracerAttributes) :=
    if decide (datastore.OptionalResourceID filter ≠ "")
    then (sq.Where (sq.Eq colObjectID (VString (datastore.OptionalResourceID filter)))
                   initialQuery,
          (tracerAttributes ++
             [ {| common.attrKey := common.ObjIDKey;
                  common.attrValue := datastore.OptionalResourceID filter |} ])%list)
    else (initialQuery, tracerAttributes) in
  let '(initialQuery, tracerAttributes) :=
    if decide (datastore.OptionalResourceRelation filter ≠ "")
    then (sq.Where (sq.Eq colRelation (VString (datastore.OptionalResourceRelation filter)))
                   initialQuery,
          (tracerAttributes ++
             [ {| common.attrKey := common.ObjRelationNameKey;
                  common.attrValue := datastore.OptionalResourceRelation filter |} ])%list)
    else (initialQuery, tracerAttributes) in
  let baseSize :=
    intAdd (intAdd (len (datastore.ResourceType filter))
                   (len (datastore.OptionalResourceID filter)))
           (len (datastore.OptionalResourceRelation filter)) in
  {| common.Schema := schema;
     common.PrepareTransaction := None;
     common.InitialQuery := initialQuery;
     common.InitialQuerySizeEstimate := baseSize;
     common.Revision := revision;
     common.TracerAttributes := tracerAttributes;
     common.DebugName := "QueryTuples";
     common.SplitAtEstimatedQuerySize := splitAtEstimatedQuerySize pgd |}.

(** [InitialQuerySizeEstimate] is not set by [reverseQueryBase]: Go leaves it
    at zero.  The second predicate is given the revision itself. *)
Definition reverseQueryBase (pgd : pgDatastore) (revision : datastore.Revision)
    : common.TupleQuery :=
  {| common.Schema := schema;
     common.PrepareTransaction := None;
     common.InitialQuery :=
       sq.Where
         (sq.Or [sq.Eq colDeletedTxn (VUint64 liveDeletedTxnID);
                 sq.Gt colDeletedTxn (VRevision revision)])
         (sq.Where
            (sq.LtOrEq colCreatedTxn (VUint64 (datastore.transactionFromRevision revision)))
            queryTuples);
     common.InitialQuerySizeEstimate := 0;
     common.Revision := revision;
     common.TracerAttributes := [];
     common.DebugName := "ReverseQueryTuples";
     common.SplitAtEstimatedQuerySize := splitAtEstimatedQuerySize pgd |}.

End Queries.

End postgres.

(** ** Package [v1alpha1]: the schema service ([schema.go]) *)

Module v1alpha1.

Inductive PrefixRequiredOption := PrefixNotRequired | PrefixRequired.

#[global] Instance PrefixRequiredOption_eq_dec : EqDecision PrefixRequiredOption.
Proof. solve_decision. Defined.

(** The server; its datastore [ds] is the state threaded through the calls. *)
Record schemaServiceServer := {
  prefixRequired : PrefixRequiredOption
}.

Record WriteSchemaRequest := { Schema : string }.

Record WriteSchemaResponse := { ObjectDefinitionsNames : list string }.

Record InputSchema := {
  Source : string;
  SchemaString : string
}.

(** The packages [WriteSchema] calls into, all outside the sources: the
    namespace manager, the compiler of the schema language, the type system
    and the check of the existing relationships.  The manager, the type
    system and the check read the store: they take its state and leave it
    as it is. *)
Class Collaborators (D : Type) := {
  Manager : Type;
  TypeSystem : Type;
  NewCachingNamespaceManager : D -> error + Manager;
  Compile : list InputSchema -> option string -> error + list v0.NamespaceDefinition;
  BuildNamespaceTypeSystemWithFallback :
    v0.NamespaceDefinition -> Manager -> list v0.NamespaceDefinition -> D -> error + TypeSystem;
  Validate : TypeSystem -> D -> option error;
  SanityCheckExistingRelationships : D -> v0.NamespaceDefinition -> option error
}.

(** The calls made to the collaborators and to the datastore, in the order
    they are made. *)
Inductive call :=
  | CallNewCachingNamespaceManager
  | CallCompile
  | CallBuildNamespaceTypeSystem (name : string)
  | CallValidate (name : string)
  | CallSanityCheck (name : string)
  | CallWriteNamespace (name : string).

Definition rewriteError (err : error) : error :=
  match err with
  | UnknownNamespaceError name =>
      status_Error NotFound ("Object Definition `" +:+ name +:+ "` not found")
  | ErrorWithContext msg => status_Error InvalidArgument msg
  | ErrReadOnly => ErrServiceReadOnly
  | _ => err
  end.

Section Service.

Context {D : Type} `{!datastore.Datastore D} `{!Collaborators D}.

(** The body of the first loop for one definition: the calls it makes and the
    error it stops at. *)
Definition validateDefinition (ds : D) (nsm : Manager)
    (nsdefs : list v0.NamespaceDefinition) (nsdef : v0.NamespaceDefinition)
    : list call * option error :=
  match BuildNamespaceTypeSystemWithFallback nsdef nsm nsdefs ds with
  | inl err => ([CallBuildNamespaceTypeSystem (v0.Name nsdef)], Some err)
  | inr ts =>
      match Validate ts ds with
      | Some err =>
          ([CallBuildNamespaceTypeSystem (v0.Name nsdef); CallValidate (v0.Name nsdef)],
           Some err)
      | None =>
          ([CallBuildNamespaceTypeSystem (v0.Name nsdef); CallValidate (v0.Name nsdef);
            CallSanityCheck (v0.Name nsdef)],
           SanityCheckExistingRelationships ds nsdef)
      end
  end.

(** The first loop: it returns at the first error. *)
Fixpoint validateDefinitions (ds : D) (nsm : Manager)
    (nsdefs todo : list v0.NamespaceDefinition) : list call * option error :=
  match todo with
  | [] => ([], None)
  | nsdef :: todo' =>
      match validateDefinition ds nsm nsdefs nsdef with
      | (calls, Some err) => (calls, Some (rewriteError err))
      | (calls, None) =>
          let '(calls', r) := validateDefinitions ds nsm nsdefs todo' in
          (calls ++ calls', r)
      end
  end%list.

(** The second loop: one [WriteNamespace] per definition, the names of the
    written definitions gathered in [names]; it returns at the first error. *)
Fixpoint writeDefinitions (ds : D) (names : list string)
    (todo : list v0.NamespaceDefinition) : D * list call * (error + list string) :=
  match todo with
  | [] => (ds, [], inr names)
  | nsdef :: todo' =>
      match datastore.WriteNamespace ds nsdef with
      | (ds', inl err) => (ds', [CallWriteNamespace (v0.Name nsdef)], inl (rewriteError err))
      | (ds', inr _) =>
          let '(ds'', calls, r) := writeDefinitions ds' (names ++ [v0.Name nsdef]) todo' in
          (ds'', CallWriteNamespace (v0.Name nsdef) :: calls, r)
      end
  end%list.

(** [WriteSchema] returns the state of the datastore it leaves, the calls it
    made, and the Go result [(response, error)]. *)
Definition WriteSchema (ss : schemaServiceServer) (ds : D) (req : WriteSchemaRequest)
    : D * list call * (error + WriteSchemaResponse) :=
  match NewCachingNamespaceManager ds with
  | inl err => (ds, [CallNewCachingNamespaceManager], inl (rewriteError err))
  | inr nsm =>
      let inputSchema := {| Source := "schema"; SchemaString := Schema req |} in
      let prefix :=
        if decide (prefixRequired ss = PrefixNotRequired) then Some "" else None in
      match Compile [inputSchema] prefix with
      | inl err =>
          (ds, [CallNewCachingNamespaceManager; CallCompile], inl (rewriteError err))
      | inr nsdefs =>
          match validateDefinitions ds nsm nsdefs nsdefs with
          | (calls, Some err) =>
              (ds, [CallNewCachingNamespaceManager; CallCompile] ++ calls, inl err)
          | (calls, None) =>
              match writeDefinitions ds [] nsdefs with
              | (ds', calls', inl err) =>
                  (ds', [CallNewCachingNamespaceManager; CallCompile] ++ calls ++ calls',
                   inl err)
              | (ds', calls', inr names) =>
                  (ds', [CallNewCachingNamespaceManager; CallCompile] ++ calls ++ calls',
                   inr {| ObjectDefinitionsNames := names |})
              end
          end
      end
  end%list.

End Service.

(** *** [ReadSchema] *)

(** The request and the response are the generated protobuf messages, as
    far as [ReadSchema] uses them.  The field of the request is
    [ObjectDefinitionsNames] in Go; it is [ObjectDefinitionsNames_in] here,
    the name being taken by the field of [WriteSchemaResponse]. *)
Record ReadSchemaRequest := { ObjectDefinitionsNames_in : list string }.

Record ReadSchemaResponse := { ObjectDefinitions : list string }.

(** [generator.GenerateSource] is outside the sources: it returns the text of
    a definition and a flag, and [ReadSchema] drops the flag. *)
Class SourceGenerator := {
  GenerateSource : v0.NamespaceDefinition -> string * bool
}.

Section ServiceRead.

Context {D : Type} `{!datastore.NamespaceReader D} `{!SourceGenerator}.

(** The loop of [ReadSchema], with the sources gathered so far in
    [objectDefs]; it returns at the first failed read. *)
Fixpoint readDefinitions (ds : D) (objectDefs : list string) (names : list string)
    : error + list string :=
  match names with
  | [] => inr objectDefs
  | objectDefName :: names' =>
      match datastore.ReadNamespace ds objectDefName with
      | inl err => inl (rewriteError err)
      | inr (found, _) =>
          readDefinitions ds (objectDefs ++ [(GenerateSource found).1]) names'
      end
  end%list.

Definition ReadSchema (ss : schemaServiceServer) (ds : D) (req : ReadSchemaRequest)
    : error + ReadSchemaResponse :=
  match readDefinitions ds [] (ObjectDefinitionsNames_in req) with
  | inl err => inl err
  | inr objectDefs => inr {| ObjectDefinitions := objectDefs |}
  end.

End ServiceRead.

End v1alpha1.

(** * Notions of the statements *)

(** ** The change feed *)

(** A change staged by [loadChanges]: one call of [addChange]. *)
Record changeEvent := {
  evRevision : N;
  evTuple : v0.RelationTuple;
  evOperation : v0.RelationTupleUpdate_Operation
}.

#[global] Instance changeEvent_eq_dec : EqDecision changeEvent.
Proof. solve_decision. Defined.

Definition applyEvent (changes : gmap N postgres.changeRecord) (e : changeEvent)
    : option (gmap N postgres.changeRecord) :=
  postgres.addChange changes (evRevision e) (evTuple e) (evOperation e).

Fixpoint applyEvents (changes : gmap N postgres.changeRecord) (evs : list changeEvent)
    : option (gmap N postgres.changeRecord) :=
  match evs with
  | [] => Some changes
  | e :: evs' => changes' ← applyEvent changes e; applyEvents changes' evs'
  end.

(** The TOUCH and the DELETE of a tuple at a revision. *)
Definition touchOf (revision : N) (t : v0.RelationTuple) : changeEvent :=
  {| evRevision := revision; evTuple := t; evOperation := v0.RelationTupleUpdate_TOUCH |}.

Definition deleteOf (revision : N) (t : v0.RelationTuple) : changeEvent :=
  {| evRevision := revision; evTuple := t; evOperation := v0.RelationTupleUpdate_DELETE |}.

(** The polled interval [(afterRevision, newRevision]]. *)
Definition inInterval (afterRevision newRevision txn : N) : bool :=
  ((afterRevision <? txn) && (txn <=? newRevision))%N.

(** The changes one scanned row stages, in the order of the calls. *)
Definition rowEvents (afterRevision newRevision : N) (r : Row) : list changeEvent :=
  ((if inInterval afterRevision newRevision (createdTxn r)
    then [ {| evRevision := createdTxn r; evTuple := rowTuple r;
              evOperation := v0.RelationTupleUpdate_TOUCH |} ]
    else [])
   ++
   (if inInterval afterRevision newRevision (deletedTxn r)
    then [ {| evRevision := deletedTxn r; evTuple := rowTuple r;
              evOperation := v0.RelationTupleUpdate_DELETE |} ]
    else []))%list.

(** The rows the query of one poll returns, and the changes the poll stages. *)
Definition polledRows (db : postgres.dbView) (afterRevision : N) : list Row :=
  sq.run (sq.Where (postgres.changedWhere afterRevision (postgres.loadRevision db).1)
                   postgres.queryChanged)
         (postgres.tableRows db).

Definition pollEvents (db : postgres.dbView) (afterRevision : N) : list changeEvent :=
  polledRows db afterRevision ≫= rowEvents afterRevision (postgres.loadRevision db).1.

(** The record of a revision, the empty one when the revision has none yet,
    and what [addChange] makes of it. *)
Definition recordAt (changes : gmap N postgres.changeRecord) (revision : N)
    : postgres.changeRecord :=
  match changes !! revision with
  | Some rc => rc
  | None => {| postgres.tupleTouches := ∅; postgres.tupleDeletes := ∅ |}
  end.

Definition updateRecord (op : v0.RelationTupleUpdate_Operation) (tpl : v0.RelationTuple)
    (rec : postgres.changeRecord) : option postgres.changeRecord :=
  match op with
  | v0.RelationTupleUpdate_TOUCH =>
      Some {| postgres.tupleTouches :=
                <[tuple.String tpl := tpl]> (postgres.tupleTouches rec);
              postgres.tupleDeletes :=
                delete (tuple.String tpl) (postgres.tupleDeletes rec) |}
  | v0.RelationTupleUpdate_DELETE =>
      match postgres.tupleTouches rec !! tuple.String tpl with
      | Some _ => Some rec
      | None =>
          Some {| postgres.tupleTouches := postgres.tupleTouches rec;
                  postgres.tupleDeletes :=
                    <[tuple.String tpl := tpl]> (postgres.tupleDeletes rec) |}
      end
  | _ => None
  end.

(** Every entry of a record sits under the canonical string of its tuple. *)
Definition recordKeyed (rec : postgres.changeRecord) : Prop :=
  (forall k t, postgres.tupleTouches rec !! k = Some t -> tuple.String t = k)
  ∧ (forall k t, postgres.tupleDeletes rec !! k = Some t -> tuple.String t = k).

Definition stagedKeyed (changes : gmap N postgres.changeRecord) : Prop :=
  forall revision rec, changes !! revision = Some rec -> recordKeyed rec.

(** At [revision], the key [k] is among the touches and not among the
    deletes. *)
Definition touchedAt (changes : gmap N postgres.changeRecord) (revision : N) (k : string)
    : Prop :=
  exists rec, changes !! revision = Some rec
    ∧ is_Some (postgres.tupleTouches rec !! k)
    ∧ postgres.tupleDeletes rec !! k = None.

(** At [revision], the key [k] is among the deletes and not among the
    touches. *)
Definition deletedAt (changes : gmap N postgres.changeRecord) (revision : N) (k : string)
    : Prop :=
  exists rec, changes !! revision = Some rec
    ∧ postgres.tupleTouches rec !! k = None
    ∧ is_Some (postgres.tupleDeletes rec !! k).

(** The event is a TOUCH at [revision] of a tuple with canonical string [k]. *)
Definition touchesKey (revision : N) (k : string) (e : changeEvent) : Prop :=
  evOperation e = v0.RelationTupleUpdate_TOUCH
  ∧ evRevision e = revision
  ∧ tuple.String (evTuple e) = k.

#[global] Instance touchesKey_dec revision k e : Decision (touchesKey revision k e).
Proof. unfold touchesKey. apply _. Defined.

(** The canonical string tells the tuples of the events apart. *)
Definition keysIdentifyTuples (evs : list changeEvent) : Prop :=
  Forall (fun e1 =>
    Forall (fun e2 =>
      tuple.String (evTuple e1) = tuple.String (evTuple e2) -> evTuple e1 = evTuple e2)
      evs) evs.

(** The updates of [rc] with operation [op] for the tuple whose canonical
    string is that of [t]. *)
Definition updatesFor (op : v0.RelationTupleUpdate_Operation) (t : v0.RelationTuple)
    (rc : datastore.RevisionChanges) : list v0.RelationTupleUpdate :=
  filter (fun u => v0.Operation u = op ∧ tuple.String (v0.Tuple u) = tuple.String t)
         (datastore.rcChanges rc).

(** The updates of [rc] with operation [op] whose tuple is [t] itself. *)
Definition updatesOfTuple (op : v0.RelationTupleUpdate_Operation) (t : v0.RelationTuple)
    (rc : datastore.RevisionChanges) : list v0.RelationTupleUpdate :=
  filter (fun u => v0.Operation u = op ∧ v0.Tuple u = t) (datastore.rcChanges rc).

(** The records of [changes] that carry revision [rev]. *)
Definition recordsAt (rev : N) (changes : list datastore.RevisionChanges)
    : list datastore.RevisionChanges :=
  filter (fun rc => datastore.rcRevision rc = datastore.revisionFromTransaction rev) changes.

Definition revisionsOf (changes : list datastore.RevisionChanges) : list N :=
  (fun rc => datastore.transactionFromRevision (datastore.rcRevision rc)) <$> changes.

(** The values of the transaction counter read by the successful calls of
    [loadRevision], poll after poll. *)
Definition readings (envs : list postgres.pollEnv) : list N :=
  omap (fun env =>
          match postgres.loadRevision (postgres.pollDb env) with
          | (n, None) => Some n
          | (_, Some _) => None
          end) envs.

(** A send on the channel would block: no receiver is parked on the empty
    channel and the buffer holds as many records as it has room for. *)
Definition sendBlocks (capacity : nat) (receiverParked : bool)
    (ch : postgres.updatesChan) : bool :=
  negb (receiverParked && bool_decide (postgres.chanBuffered ch = []))
  && (capacity <=? length (postgres.chanBuffered ch))%nat.

(** ** The alive rows *)

(** A row is alive at a revision. *)
Definition aliveAt (liveDeletedTxnID : N) (revision : datastore.Revision) (r : Row) : Prop :=
  (createdTxn r <= datastore.transactionFromRevision revision)%N
  ∧ (deletedTxn r = liveDeletedTxnID
     ∨ (datastore.transactionFromRevision revision < deletedTxn r)%N).

(** ** The schema service *)

(** Whether a call is a write to the datastore. *)
Definition isWrite (c : v1alpha1.call) : bool :=
  match c with
  | v1alpha1.CallWriteNamespace _ => true
  | _ => false
  end.

(** The state of the store after the writes of [nsdefs], one after the other. *)
Definition afterWrites {D} `{!datastore.Datastore D} (ds : D)
    (nsdefs : list v0.NamespaceDefinition) : D :=
  foldl (fun ds nsdef => (datastore.WriteNamespace ds nsdef).1) ds nsdefs.

(** Every write of [nsdefs], made in order from [ds], succeeds. *)
Fixpoint writesSucceed {D} `{!datastore.Datastore D} (ds : D)
    (nsdefs : list v0.NamespaceDefinition) : Prop :=
  match nsdefs with
  | [] => True
  | nsdef :: rest =>
      match datastore.WriteNamespace ds nsdef with
      | (ds', inr _) => writesSucceed ds' rest
      | (_, inl _) => False
      end
  end.

Section SchemaNotions.

Context {D : Type} `{!datastore.Datastore D} `{!v1alpha1.Collaborators D}.

(** The result of the compilation step of [WriteSchema]. *)
Definition compiledSchema (ss : v1alpha1.schemaServiceServer)
    (req : v1alpha1.WriteSchemaRequest) : error + list v0.NamespaceDefinition :=
  v1alpha1.Compile
    [ {| v1alpha1.Source := "schema"; v1alpha1.SchemaString := v1alpha1.Schema req |} ]
    (if decide (v1alpha1.prefixRequired ss = v1alpha1.PrefixNotRequired)
     then Some "" else None).

(** The definition goes through the three steps of the first loop. *)
Definition passesChecks (ds : D) (nsm : v1alpha1.Manager)
    (nsdefs : list v0.NamespaceDefinition) (nsdef : v0.NamespaceDefinition) : Prop :=
  exists ts,
    v1alpha1.BuildNamespaceTypeSystemWithFallback nsdef nsm nsdefs ds = inr ts
    ∧ v1alpha1.Validate ts ds = None
    ∧ v1alpha1.SanityCheckExistingRelationships ds nsdef = None.

(** The definition stops the first loop with [err]: at the construction of its
    type system, at its validation, or at the check of the existing
    relationships. *)
Definition failsCheck (ds : D) (nsm : v1alpha1.Manager)
    (nsdefs : list v0.NamespaceDefinition) (nsdef : v0.NamespaceDefinition)
    (err : error) : Prop :=
  v1alpha1.BuildNamespaceTypeSystemWithFallback nsdef nsm nsdefs ds = inl err
  ∨ (exists ts,
       v1alpha1.BuildNamespaceTypeSystemWithFallback nsdef nsm nsdefs ds = inr ts
       ∧ v1alpha1.Validate ts ds = Some err)
  ∨ (exists ts,
       v1alpha1.BuildNamespaceTypeSystemWithFallback nsdef nsm nsdefs ds = inr ts
       ∧ v1alpha1.Validate ts ds = None
       ∧ v1alpha1.SanityCheckExistingRelationships ds nsdef = Some err).

End SchemaNotions.

(** ** Further notions of the change feed *)

(** No canonical string is among the touches and among the deletes of a
    record. *)
Definition recordDisjoint (rec : postgres.changeRecord) : Prop :=
  forall k, is_Some (postgres.tupleTouches rec !! k) -> postgres.tupleDeletes rec !! k = None.

(** A record holds at least one entry. *)
Definition recordNonEmpty (rec : postgres.changeRecord) : Prop :=
  postgres.tupleTouches rec ≠ ∅ ∨ postgres.tupleDeletes rec ≠ ∅.

(** Every record of the staged map is keyed by canonical strings, keeps its
    touches apart from its deletes, and is not empty. *)
Definition stagedWellFormed (changes : gmap N postgres.changeRecord) : Prop :=
  forall revision rec, changes !! revision = Some rec ->
    recordKeyed rec ∧ recordDisjoint rec ∧ recordNonEmpty rec.

(** The updates of [rc], of either operation, for the canonical string [k]. *)
Definition updatesWithKey (k : string) (rc : datastore.RevisionChanges)
    : list v0.RelationTupleUpdate :=
  filter (fun u => tuple.String (v0.Tuple u) = k) (datastore.rcChanges rc).

(** Two lists of records that agree record by record on the revision and,
    up to their order, on the changes.  The changes of a record are written
    while ranging over two Go maps, so their order inside the record is not
    fixed by the code. *)
Definition sameRecords (l l' : list datastore.RevisionChanges) : Prop :=
  Forall2 (fun rc rc' =>
             datastore.rcRevision rc = datastore.rcRevision rc'
             ∧ datastore.rcChanges rc ≡ₚ datastore.rcChanges rc') l l'.

(** What the polls stage one after the other, each poll starting from the
    cursor the previous one left, up to the first poll that fails. *)
Fixpoint stagedByPolls (envs : list postgres.pollEnv) (currentTxn : N)
    : list datastore.RevisionChanges :=
  match envs with
  | [] => []
  | env :: envs' =>
      match postgres.loadChanges (postgres.pollDb env) currentTxn with
      | Some (stagedUpdates, currentTxn', None) =>
          stagedUpdates ++ stagedByPolls envs' currentTxn'
      | _ => []
      end
  end%list.

(** Whether the goroutine has stopped. *)
Definition stopped (status : postgres.watchStatus) : Prop :=
  match status with
  | postgres.Polling _ => False
  | _ => True
  end.

(** ** Further notions of the tuple queries *)

(** The column a tracer attribute speaks of, and the predicate it stands
    for: the equality of that column with the value of the attribute. *)
Definition attributeColumn (key : common.attribute_Key) : Column :=
  match key with
  | common.ObjNamespaceNameKey => colNamespace
  | common.ObjIDKey => colObjectID
  | common.ObjRelationNameKey => colRelation
  end.

Definition attributePredicate (kv : common.attribute_KeyValue) : sq.Sqlizer :=
  sq.Eq (attributeColumn (common.attrKey kv)) (VString (common.attrValue kv)).

(** ** Further notions of the schema service *)

(** The reads of [names], made in order, all succeed, and give [found]. *)
Fixpoint readsGive {D} `{!datastore.NamespaceReader D} (ds : D) (names : list string)
    (found : list v0.NamespaceDefinition) : Prop :=
  match names, found with
  | [], [] => True
  | name :: names', nsdef :: found' =>
      (exists revision, datastore.ReadNamespace ds name = inr (nsdef, revision))
      ∧ readsGive ds names' found'
  | _, _ => False
  end.

(** * Samples

    Concrete tuples, databases, subscriptions, stores and requests, on which
    the statements below are instantiated. *)

(** Two tuples with one canonical string: a colon inside the namespace of the
    first, inside the object id of the second. *)
Definition tupleColonInNamespace : v0.RelationTuple :=
  {| v0.tplObjectAndRelation :=
       {| v0.Namespace := "a:b"; v0.ObjectId := "c"; v0.Relation := "viewer" |};
     v0.tplUserset :=
       {| v0.Namespace := "user"; v0.ObjectId := "alice"; v0.Relation := "..." |} |}.

Definition tupleColonInObjectId : v0.RelationTuple :=
  {| v0.tplObjectAndRelation :=
       {| v0.Namespace := "a"; v0.ObjectId := "b:c"; v0.Relation := "viewer" |};
     v0.tplUserset :=
       {| v0.Namespace := "user"; v0.ObjectId := "alice"; v0.Relation := "..." |} |}.

(** A sample database: at transaction 2 the tuple of [sampleTuple] is touched
    while alive, which ends its row of transaction 1 and creates a new one;
    the tuple of [otherTuple] lived from transaction 3 to transaction 4. *)
Definition sampleTuple : v0.RelationTuple :=
  {| v0.tplObjectAndRelation :=
       {| v0.Namespace := "document"; v0.ObjectId := "doc1"; v0.Relation := "viewer" |};
     v0.tplUserset :=
       {| v0.Namespace := "user"; v0.ObjectId := "alice"; v0.Relation := "..." |} |}.

Definition otherTuple : v0.RelationTuple :=
  {| v0.tplObjectAndRelation :=
       {| v0.Namespace := "document"; v0.ObjectId := "doc2"; v0.Relation := "viewer" |};
     v0.tplUserset :=
       {| v0.Namespace := "user"; v0.ObjectId := "bob"; v0.Relation := "..." |} |}.

Definition sampleDb (liveDeletedTxnID : N) : postgres.dbView :=
  {| postgres.loadRevision := (4%N, None);
     postgres.tableRows :=
       [ {| rowTuple := sampleTuple; createdTxn := 1; deletedTxn := 2 |};
         {| rowTuple := sampleTuple; createdTxn := 2; deletedTxn := liveDeletedTxnID |};
         {| rowTuple := otherTuple; createdTxn := 3; deletedTxn := 4 |} ];
     postgres.queryErr := None;
     postgres.rowsErr := None |}.


(** Sample subscriptions.  A later view of the sample database, after a write
    at transaction 5; a datastore whose [updates] channel holds one record
    and one with room for eight; a poll whose consumer is paused, and polls
    whose consumer keeps up. *)
Definition laterDb (liveDeletedTxnID : N) : postgres.dbView :=
  {| postgres.loadRevision := (5%N, None);
     postgres.tableRows :=
       postgres.tableRows (sampleDb liveDeletedTxnID)
       ++ [ {| rowTuple := otherTuple; createdTxn := 5; deletedTxn := liveDeletedTxnID |} ];
     postgres.queryErr := None;
     postgres.rowsErr := None |}.

Definition narrowPgd : postgres.pgDatastore :=
  {| postgres.watchBufferLength := 1; postgres.splitAtEstimatedQuerySize := 8192 |}.

Definition roomyPgd : postgres.pgDatastore :=
  {| postgres.watchBufferLength := 8; postgres.splitAtEstimatedQuerySize := 8192 |}.

Definition pausedPoll (db : postgres.dbView) : postgres.pollEnv :=
  {| postgres.pollDb := db;
     postgres.ctxCanceled := false;
     postgres.consumer := [];
     postgres.sleepInterrupted := false |}.

Definition servedPoll (db : postgres.dbView) : postgres.pollEnv :=
  {| postgres.pollDb := db;
     postgres.ctxCanceled := false;
     postgres.consumer := [ {| postgres.receives := 8; postgres.parked := true |} ];
     postgres.sleepInterrupted := false |}.

(** A sample filter: the tuples of one document. *)
Definition sampleFilter : datastore.TupleQueryResourceFilter :=
  {| datastore.ResourceType := "document";
     datastore.OptionalResourceID := "doc1";
     datastore.OptionalResourceRelation := "" |}.

(** A sample store for the schema service: a store that keeps the written definitions in a list, knows which
    relations of which namespaces its live tuples use, and loses its
    connection after [writesUntilFailure] writes. *)
Record sampleStore := {
  storedNamespaces : list v0.NamespaceDefinition;
  liveRelations : list (string * string);
  writesUntilFailure : nat
}.

#[global] Instance sampleStore_Datastore : datastore.Datastore sampleStore := {|
  datastore.WriteNamespace ds nsdef :=
    match writesUntilFailure ds with
    | O => (ds, inl (ErrOther "connection lost"))
    | S n =>
        ({| storedNamespaces := storedNamespaces ds ++ [nsdef];
            liveRelations := liveRelations ds;
            writesUntilFailure := n |},
         inr (datastore.revisionFromTransaction
                (N.of_nat (S (length (storedNamespaces ds))))))
    end
|}.

Definition userDef : v0.NamespaceDefinition :=
  {| v0.Name := "user"; v0.nsRelation := [] |}.

Definition documentDef : v0.NamespaceDefinition :=
  {| v0.Name := "document"; v0.nsRelation := ["viewer"] |}.

Definition documentDefNoViewer : v0.NamespaceDefinition :=
  {| v0.Name := "document"; v0.nsRelation := [] |}.

(** The sample collaborators: a compiler that knows two schema texts, a type
    system that accepts everything, and the check that every relation used by
    a live tuple of the namespace is still defined. *)
#[global] Instance sampleCollaborators : v1alpha1.Collaborators sampleStore := {|
  v1alpha1.Manager := unit;
  v1alpha1.TypeSystem := unit;
  v1alpha1.NewCachingNamespaceManager _ := inr tt;
  v1alpha1.Compile schemas _ :=
    match schemas with
    | [s] =>
        if decide (v1alpha1.SchemaString s
                   = "definition user {} definition document { relation viewer: user }")
        then inr [userDef; documentDef]
        else if decide (v1alpha1.SchemaString s
                        = "definition user {} definition document {}")
        then inr [userDef; documentDefNoViewer]
        else inl (ErrorWithContext "parse error")
    | _ => inl (ErrorWithContext "parse error")
    end;
  v1alpha1.BuildNamespaceTypeSystemWithFallback _ _ _ _ := inr tt;
  v1alpha1.Validate _ _ := None;
  v1alpha1.SanityCheckExistingRelationships ds nsdef :=
    if forallb (fun nr => negb (bool_decide (nr.1 = v0.Name nsdef))
                          || bool_decide (nr.2 ∈ v0.nsRelation nsdef))
               (liveRelations ds)
    then None
    else Some (ErrOther "schema invariant violation")
|}.

(** Sample requests and stores: the schema of a document with viewers, the
    same schema without the [viewer] relation, a store in which a live tuple
    uses [document#viewer], and an empty store that fails at its second
    write. *)
Definition schemaWithViewer : v1alpha1.WriteSchemaRequest :=
  {| v1alpha1.Schema :=
       "definition user {} definition document { relation viewer: user }" |}.

Definition schemaWithoutViewer : v1alpha1.WriteSchemaRequest :=
  {| v1alpha1.Schema := "definition user {} definition document {}" |}.

Definition sampleServer : v1alpha1.schemaServiceServer :=
  {| v1alpha1.prefixRequired := v1alpha1.PrefixNotRequired |}.

Definition storeWithViewers : sampleStore :=
  {| storedNamespaces := [userDef; documentDef];
     liveRelations := [("document", "viewer")];
     writesUntilFailure := 10 |}.

Definition storeFailingAtSecondWrite : sampleStore :=
  {| storedNamespaces := [];
     liveRelations := [];
     writesUntilFailure := 1 |}.

(** The sample store read by name: the definition written last under the
    name, and [UnknownNamespaceError] when there is none; sources are
    printed as a one-line definition. *)
#[global] Instance sampleStore_NamespaceReader : datastore.NamespaceReader sampleStore := {|
  datastore.ReadNamespace ds name :=
    match List.find (fun nsdef => bool_decide (v0.Name nsdef = name))
                    (rev (storedNamespaces ds)) with
    | Some nsdef =>
        inr (nsdef, datastore.revisionFromTransaction
                      (N.of_nat (length (storedNamespaces ds))))
    | None => inl (UnknownNamespaceError name)
    end
|}.

#[global] Instance sampleGenerator : v1alpha1.SourceGenerator := {|
  v1alpha1.GenerateSource nsdef := ("definition " +:+ v0.Name nsdef +:+ " {}", true)
|}.

(** ** Proof automation *)

(** Splits the goal along the map lookups of an update of a record. *)
Ltac split_lookups :=
  repeat (simpl;
    match goal with
    | |- context [ (<[?k := _]> _) !! ?k ] => rewrite lookup_insert_eq
    | H : ?k ≠ ?k' |- context [ (<[?k := _]> _) !! ?k' ] => rewrite (lookup_insert_ne _ k k') by exact H
    | H : ?k' ≠ ?k |- context [ (<[?k := _]> _) !! ?k' ] => rewrite (lookup_insert_ne _ k k') by (symmetry; exact H)
    | H : ?m !! ?k = _ |- context [ ?m !! ?k ] => rewrite H
    | |- context [ match ?m !! ?k with _ => _ end ] => destruct (m !! k) eqn:?
    end).

(** * Properties *)

Local Open Scope list_scope.

(** * The model on the samples *)

Example String_sampleTuple :
  tuple.String sampleTuple = "document:doc1#viewer@user:alice#...".
Proof. reflexivity. Qed.

Example String_collision :
  tuple.String tupleColonInNamespace = tuple.String tupleColonInObjectId
  ∧ tupleColonInNamespace ≠ tupleColonInObjectId.
Proof. split; [reflexivity|discriminate]. Qed.

(** The first poll of the sample database stages the revisions 1 to 4; at
    revision 2 only the TOUCH is left, at revision 4 the DELETE. *)
Example loadChanges_sampleDb :
  postgres.loadChanges (sampleDb 0) 0
  = Some ([ {| datastore.rcRevision := datastore.revisionFromTransaction 1;
               datastore.rcChanges :=
                 [ {| v0.Operation := v0.RelationTupleUpdate_TOUCH;
                      v0.Tuple := sampleTuple |} ] |};
            {| datastore.rcRevision := datastore.revisionFromTransaction 2;
               datastore.rcChanges :=
                 [ {| v0.Operation := v0.RelationTupleUpdate_TOUCH;
                      v0.Tuple := sampleTuple |} ] |};
            {| datastore.rcRevision := datastore.revisionFromTransaction 3;
               datastore.rcChanges :=
                 [ {| v0.Operation := v0.RelationTupleUpdate_TOUCH;
                      v0.Tuple := otherTuple |} ] |};
            {| datastore.rcRevision := datastore.revisionFromTransaction 4;
               datastore.rcChanges :=
                 [ {| v0.Operation := v0.RelationTupleUpdate_DELETE;
                      v0.Tuple := otherTuple |} ] |} ],
          4%N, None).
Proof. vm_compute. reflexivity. Qed.

(** A poll at the revision already seen returns nothing and keeps the cursor. *)
Example loadChanges_nothing_new :
  postgres.loadChanges (sampleDb 0) 4 = Some ([], 4%N, None).
Proof. reflexivity. Qed.

(** A cancelled query surfaces as [WatchCanceled]. *)
Example loadChanges_query_canceled :
  postgres.loadChanges
    {| postgres.loadRevision := (4%N, None); postgres.tableRows := [];
       postgres.queryErr := Some context_Canceled; postgres.rowsErr := None |} 0
  = Some ([], 4%N, Some ErrWatchCanceled).
Proof. reflexivity. Qed.

(** With room in the channel two polls send the revisions 1 to 5 and the
    goroutine keeps polling from 5; with room for one record and a paused
    consumer the subscription ends with [WatchDisconnected] after one send. *)
Example Watch_roomy :
  revisionsOf
    (postgres.emitted
       (postgres.Watch roomyPgd (datastore.revisionFromTransaction 0)
          [servedPoll (sampleDb 0); servedPoll (laterDb 0)]).1)
  = [1; 2; 3; 4; 5]%N
  ∧ (postgres.Watch roomyPgd (datastore.revisionFromTransaction 0)
       [servedPoll (sampleDb 0); servedPoll (laterDb 0)]).2
    = postgres.Polling 5.
Proof. split; vm_compute; reflexivity. Qed.

Example Watch_narrow :
  revisionsOf
    (postgres.emitted
       (postgres.Watch narrowPgd (datastore.revisionFromTransaction 0)
          [pausedPoll (sampleDb 0); servedPoll (laterDb 0)]).1)
  = [1]%N
  ∧ (postgres.Watch narrowPgd (datastore.revisionFromTransaction 0)
       [pausedPoll (sampleDb 0); servedPoll (laterDb 0)]).2
    = postgres.Returned ErrWatchDisconnected.
Proof. split; vm_compute; reflexivity. Qed.

(** The rows of [document:doc1] alive at revision 4, and the size estimate. *)
Example QueryTuples_sampleFilter :
  sq.run (common.InitialQuery
            (postgres.QueryTuples 0 narrowPgd sampleFilter
               (datastore.revisionFromTransaction 4)))
         (postgres.tableRows (sampleDb 0))
  = [ {| rowTuple := sampleTuple; createdTxn := 2; deletedTxn := 0 |} ]
  ∧ common.InitialQuerySizeEstimate
      (postgres.QueryTuples 0 narrowPgd sampleFilter (datastore.revisionFromTransaction 4))
    = 12%Z.
Proof. split; vm_compute; reflexivity. Qed.

(** Writing the schema without [viewer] over a store whose live tuples use
    [document#viewer] is refused before any write. *)
Example WriteSchema_refused :
  v1alpha1.WriteSchema sampleServer storeWithViewers schemaWithoutViewer
  = (storeWithViewers,
     [ v1alpha1.CallNewCachingNamespaceManager; v1alpha1.CallCompile;
       v1alpha1.CallBuildNamespaceTypeSystem "user"; v1alpha1.CallValidate "user";
       v1alpha1.CallSanityCheck "user";
       v1alpha1.CallBuildNamespaceTypeSystem "document"; v1alpha1.CallValidate "document";
       v1alpha1.CallSanityCheck "document" ],
     inl (ErrOther "schema invariant violation")).
Proof. reflexivity. Qed.

Example rewriteError_cases :
  v1alpha1.rewriteError (UnknownNamespaceError "document")
  = status_Error NotFound "Object Definition `document` not found"
  ∧ v1alpha1.rewriteError (ErrorWithContext "parse error")
    = status_Error InvalidArgument "parse error"
  ∧ v1alpha1.rewriteError ErrReadOnly = ErrServiceReadOnly
  ∧ v1alpha1.rewriteError (ErrOther "connection lost") = ErrOther "connection lost".
Proof. repeat split. Qed.

(** * The change feed *)

Section ChangeFeed.

Implicit Types (changes : gmap N postgres.changeRecord) (rec : postgres.changeRecord).

Lemma addChange_updateRecord changes revision tpl op :
  postgres.addChange changes revision tpl op
  = (fun rec => <[revision := rec]> changes) <$> updateRecord op tpl (recordAt changes revision).
Proof.
  unfold postgres.addChange, updateRecord, recordAt.
  destruct op; try reflexivity.
  destruct (changes !! revision) as [rc|]; simpl;
    destruct (_ !! tuple.String tpl); reflexivity.
Qed.

Lemma recordAt_insert_eq changes revision rec :
  recordAt (<[revision := rec]> changes) revision = rec.
Proof. unfold recordAt. by rewrite lookup_insert_eq. Qed.

Lemma recordAt_insert_ne changes r1 r2 rec :
  r1 ≠ r2 -> recordAt (<[r1 := rec]> changes) r2 = recordAt changes r2.
Proof. intros. unfold recordAt. by rewrite lookup_insert_ne. Qed.

Lemma changeRecord_eq rec1 rec2 :
  postgres.tupleTouches rec1 = postgres.tupleTouches rec2 ->
  postgres.tupleDeletes rec1 = postgres.tupleDeletes rec2 ->
  rec1 = rec2.
Proof. destruct rec1, rec2; simpl; congruence. Qed.

(** Two updates of one record commute when their tuples agree whenever their
    canonical strings do. *)

Lemma updateRecord_comm op1 t1 op2 t2 rec :
  (tuple.String t1 = tuple.String t2 -> t1 = t2) ->
  updateRecord op1 t1 rec ≫= updateRecord op2 t2
  = updateRecord op2 t2 rec ≫= updateRecord op1 t1.
Proof.
  intros Hkey.
  destruct (decide (tuple.String t1 = tuple.String t2)) as [Heq|Hne].
  - specialize (Hkey Heq) as ->. clear Heq.
    destruct op1, op2; unfold updateRecord; split_lookups; simpl; try reflexivity; try congruence.
    all: f_equal; apply changeRecord_eq; simpl; try done.
    all: by rewrite delete_insert_eq.
  - clear Hkey.
    destruct op1, op2; unfold updateRecord; split_lookups; simpl; try reflexivity; try congruence.
    all: f_equal; apply changeRecord_eq; simpl; try done.
    all: try (by apply insert_insert_ne).
    all: try (by rewrite delete_insert_ne by congruence).
    all: try (by apply delete_delete).
Qed.

Lemma applyEvent_comm changes e1 e2 :
  (tuple.String (evTuple e1) = tuple.String (evTuple e2) -> evTuple e1 = evTuple e2) ->
  applyEvent changes e1 ≫= (fun c => applyEvent c e2)
  = applyEvent changes e2 ≫= (fun c => applyEvent c e1).
Proof.
  intros Hkey. destruct e1 as [r1 t1 op1], e2 as [r2 t2 op2].
  unfold applyEvent; simpl in *. rewrite !addChange_updateRecord.
  destruct (decide (r1 = r2)) as [->|Hne].
  - pose proof (updateRecord_comm op1 t1 op2 t2 (recordAt changes r2) Hkey) as Hc.
    destruct (updateRecord op1 t1 (recordAt changes r2)) as [rec1|] eqn:E1;
      destruct (updateRecord op2 t2 (recordAt changes r2)) as [rec2|] eqn:E2; simpl in *;
      rewrite ?addChange_updateRecord, ?recordAt_insert_eq.
    + rewrite Hc. destruct (updateRecord op1 t1 rec2); simpl; [|done].
      by rewrite !insert_insert_eq.
    + by rewrite Hc.
    + by rewrite <- Hc.
    + done.
  - destruct (updateRecord op1 t1 (recordAt changes r1)) as [rec1|] eqn:E1;
      destruct (updateRecord op2 t2 (recordAt changes r2)) as [rec2|] eqn:E2; simpl;
      rewrite ?addChange_updateRecord, ?recordAt_insert_ne by congruence;
      rewrite ?E1, ?E2; simpl; try done.
    f_equal. by apply insert_insert_ne.
Qed.

Lemma applyEvents_app changes evs1 evs2 :
  applyEvents changes (evs1 ++ evs2)
  = applyEvents changes evs1 ≫= (fun c => applyEvents c evs2).
Proof.
  revert changes. induction evs1 as [|e evs1 IH]; intros changes; simpl; [done|].
  destruct (applyEvent changes e); simpl; [apply IH|done].
Qed.

Lemma keysIdentifyTuples_cons e evs :
  keysIdentifyTuples (e :: evs) -> keysIdentifyTuples evs.
Proof.
  unfold keysIdentifyTuples. intros H. apply Forall_cons in H as [_ H].
  eapply Forall_impl; [exact H|]. intros e1 H1. simpl in H1.
  by apply Forall_cons in H1 as [_ H1].
Qed.

Lemma keysIdentifyTuples_elem evs e1 e2 :
  keysIdentifyTuples evs -> e1 ∈ evs -> e2 ∈ evs ->
  tuple.String (evTuple e1) = tuple.String (evTuple e2) -> evTuple e1 = evTuple e2.
Proof.
  unfold keysIdentifyTuples. intros H H1 H2.
  rewrite Forall_forall in H. specialize (H e1 H1). rewrite Forall_forall in H.
  by apply H.
Qed.

Lemma keysIdentifyTuples_perm evs1 evs2 :
  evs1 ≡ₚ evs2 -> keysIdentifyTuples evs1 -> keysIdentifyTuples evs2.
Proof.
  intros Hp H. unfold keysIdentifyTuples. apply Forall_forall. intros e1 H1.
  apply Forall_forall. intros e2 H2.
  apply (keysIdentifyTuples_elem evs1); [done | by rewrite Hp | by rewrite Hp].
Qed.

Lemma applyEvents_perm evs1 evs2 :
  evs1 ≡ₚ evs2 -> keysIdentifyTuples evs1 ->
  forall changes, applyEvents changes evs1 = applyEvents changes evs2.
Proof.
  induction 1 as [|e evs1 evs2 Hp IH|e1 e2 evs|evs1 evs2 evs3 Hp1 IH1 Hp2 IH2];
    intros Hk changes.
  - done.
  - simpl. destruct (applyEvent changes e); simpl; [|done].
    apply IH. by eapply keysIdentifyTuples_cons.
  - simpl.
    change (applyEvent changes e2 ≫= (fun c => applyEvent c e1 ≫= (fun c' => applyEvents c' evs))
            = applyEvent changes e1 ≫= (fun c => applyEvent c e2 ≫= (fun c' => applyEvents c' evs))).
    assert (Hc := applyEvent_comm changes e2 e1).
    assert (Hk' : tuple.String (evTuple e2) = tuple.String (evTuple e1) -> evTuple e2 = evTuple e1).
    { apply (keysIdentifyTuples_elem (e2 :: e1 :: evs)); [done|set_solver|set_solver]. }
    specialize (Hc Hk').
    destruct (applyEvent changes e2) as [c2|] eqn:E2;
      destruct (applyEvent changes e1) as [c1|] eqn:E1; simpl in *.
    + destruct (applyEvent c2 e1) eqn:E21; destruct (applyEvent c1 e2) eqn:E12;
        simpl in *; congruence.
    + destruct (applyEvent c2 e1) eqn:E21; simpl in *; congruence.
    + destruct (applyEvent c1 e2) eqn:E12; simpl in *; congruence.
    + done.
  - rewrite IH1 by done. apply IH2. by eapply keysIdentifyTuples_perm.
Qed.

Lemma updateRecord_idemp op t rec rec' :
  updateRecord op t rec = Some rec' -> updateRecord op t rec' = Some rec'.
Proof.
  destruct op; simpl; try done.
  - intros [= <-]. simpl. f_equal. apply changeRecord_eq; simpl.
    + by rewrite insert_insert_eq.
    + by rewrite delete_delete_eq.
  - destruct (postgres.tupleTouches rec !! tuple.String t) eqn:E.
    + intros [= <-]. by rewrite E.
    + intros [= <-]. simpl. rewrite E. f_equal. apply changeRecord_eq; simpl; [done|].
      by rewrite insert_insert_eq.
Qed.

Lemma applyEvent_idemp changes e changes' :
  applyEvent changes e = Some changes' -> applyEvent changes' e = Some changes'.
Proof.
  destruct e as [r t op]. unfold applyEvent; simpl. rewrite !addChange_updateRecord.
  destruct (updateRecord op t (recordAt changes r)) as [rec'|] eqn:E; simpl; [|done].
  intros [= <-]. rewrite recordAt_insert_eq.
  rewrite (updateRecord_idemp _ _ _ _ E). simpl. by rewrite insert_insert_eq.
Qed.

(** *** What the staged map looks like after a run of events *)

Lemma updateRecord_keyed op t rec rec' :
  recordKeyed rec -> updateRecord op t rec = Some rec' -> recordKeyed rec'.
Proof.
  intros [Ht Hd]. destruct op; simpl; try done.
  - intros [= <-]. split; simpl; intros k t'.
    + rewrite lookup_insert. case_decide; [naive_solver|auto].
    + rewrite lookup_delete. case_decide; [done|auto].
  - destruct (postgres.tupleTouches rec !! tuple.String t); intros [= <-]; [done|].
    split; simpl; [done|]. intros k t'.
    rewrite lookup_insert. case_decide; [naive_solver|auto].
Qed.

Lemma applyEvent_keyed changes e changes' :
  stagedKeyed changes -> applyEvent changes e = Some changes' -> stagedKeyed changes'.
Proof.
  intros Hk. destruct e as [r t op]. unfold applyEvent; simpl.
  rewrite addChange_updateRecord.
  destruct (updateRecord op t (recordAt changes r)) as [rec'|] eqn:E; simpl; [|done].
  intros [= <-] r' rec0. rewrite lookup_insert. case_decide.
  - intros [= <-]. eapply updateRecord_keyed; [|exact E].
    unfold recordAt. destruct (changes !! r) eqn:E'; [by eapply Hk|].
    split; simpl; intros ? ?; by rewrite lookup_empty.
  - apply Hk.
Qed.

Lemma applyEvents_keyed evs : forall changes changes',
  stagedKeyed changes -> applyEvents changes evs = Some changes' -> stagedKeyed changes'.
Proof.
  induction evs as [|e evs IH]; simpl; intros changes changes' Hk.
  - by intros [= <-].
  - destruct (applyEvent changes e) as [c1|] eqn:E; simpl; [|done].
    apply IH. by eapply applyEvent_keyed.
Qed.

Lemma stagedKeyed_empty : stagedKeyed ∅.
Proof. intros r rec. by rewrite lookup_empty. Qed.

Lemma applyEvent_touch changes revision t changes' :
  applyEvent changes (touchOf revision t) = Some changes' ->
  touchedAt changes' revision (tuple.String t).
Proof.
  unfold applyEvent. rewrite addChange_updateRecord. simpl.
  intros [= <-]. eexists. rewrite lookup_insert_eq. split; [done|]. simpl.
  rewrite lookup_insert_eq, lookup_delete_eq. eauto.
Qed.

Lemma applyEvent_touched changes e changes' revision k :
  touchedAt changes revision k -> applyEvent changes e = Some changes' ->
  touchedAt changes' revision k.
Proof.
  intros (rec & Hrec & [t0 Ht] & Hd). destruct e as [r t op]. unfold applyEvent; simpl.
  rewrite addChange_updateRecord.
  destruct (updateRecord op t (recordAt changes r)) as [rec'|] eqn:E; simpl; [|done].
  intros [= <-]. destruct (decide (r = revision)) as [->|Hne].
  - exists rec'. rewrite lookup_insert_eq. split; [done|].
    unfold recordAt in E. rewrite Hrec in E.
    destruct op; simpl in E; try done.
    + injection E as <-. simpl. rewrite lookup_insert, lookup_delete.
      repeat case_decide; eauto.
    + destruct (postgres.tupleTouches rec !! tuple.String t) eqn:E'; injection E as <-;
        [eauto|]. simpl. split; [eauto|].
      rewrite lookup_insert_ne; [done|]. intros Heq. rewrite Heq in E'. congruence.
  - exists rec. by rewrite lookup_insert_ne.
Qed.

Lemma applyEvents_touched_preserved evs : forall changes changes' revision k,
  touchedAt changes revision k -> applyEvents changes evs = Some changes' ->
  touchedAt changes' revision k.
Proof.
  induction evs as [|e evs IH]; simpl; intros changes changes' revision k Ht.
  - by intros [= <-].
  - destruct (applyEvent changes e) as [c1|] eqn:E; simpl; [|done].
    apply IH. by eapply applyEvent_touched.
Qed.

Lemma applyEvents_touched evs : forall changes changes' revision t,
  touchOf revision t ∈ evs -> applyEvents changes evs = Some changes' ->
  touchedAt changes' revision (tuple.String t).
Proof.
  induction evs as [|e evs IH]; simpl; intros changes changes' revision t Hin.
  - by apply elem_of_nil in Hin.
  - destruct (applyEvent changes e) as [c1|] eqn:E; simpl; [|done].
    apply elem_of_cons in Hin as [<-|Hin].
    + apply (applyEvents_touched_preserved evs c1). by eapply applyEvent_touch.
    + by apply IH.
Qed.

(** *** Counting the updates of one record *)

Lemma updates_of_map_count (m : gmap string v0.RelationTuple)
    (op op' : v0.RelationTupleUpdate_Operation) (t : v0.RelationTuple) :
  (forall k t', m !! k = Some t' -> tuple.String t' = k) ->
  length (filter (fun u => v0.Operation u = op ∧ tuple.String (v0.Tuple u) = tuple.String t)
            ((fun kv : string * v0.RelationTuple =>
                {| v0.Operation := op'; v0.Tuple := kv.2 |}) <$> map_to_list m))
  = if decide (op' = op)
    then match m !! tuple.String t with Some _ => 1 | None => 0 end
    else 0.
Proof.
  induction m as [|k t' m Hfresh IH] using map_ind; intros Hkeyed.
  - rewrite map_to_list_empty. simpl. rewrite lookup_empty. by case_decide.
  - rewrite map_to_list_insert by done. rewrite fmap_cons, filter_cons. simpl.
    assert (Hk : tuple.String t' = k) by (apply Hkeyed; by rewrite lookup_insert_eq).
    assert (Hm : forall k0 t0, m !! k0 = Some t0 -> tuple.String t0 = k0).
    { intros k0 t0 H0. apply Hkeyed. rewrite lookup_insert_ne; [done|]. congruence. }
    specialize (IH Hm). rewrite lookup_insert.
    destruct (decide (op' = op)) as [->|Hop].
    + destruct (decide (k = tuple.String t)) as [->|Hne].
      * rewrite decide_True by done. simpl. rewrite IH, Hfresh. done.
      * rewrite decide_False by (intros [_ ?]; congruence). done.
    + rewrite decide_False by (intros [? _]; congruence). done.
Qed.

Lemma revisionChange_counts revision rec t :
  recordKeyed rec ->
  is_Some (postgres.tupleTouches rec !! tuple.String t) ->
  postgres.tupleDeletes rec !! tuple.String t = None ->
  length (updatesFor v0.RelationTupleUpdate_TOUCH t (postgres.revisionChange revision rec)) = 1
  ∧ updatesFor v0.RelationTupleUpdate_DELETE t (postgres.revisionChange revision rec) = [].
Proof.
  intros [Hkt Hkd] [t0 Ht] Hd. unfold updatesFor, postgres.revisionChange. simpl.
  rewrite !filter_app. split.
  - rewrite length_app, !updates_of_map_count by done.
    rewrite Ht. rewrite decide_True by done. by rewrite decide_False.
  - apply length_zero_iff_nil.
    rewrite length_app, !updates_of_map_count by done.
    rewrite Hd. rewrite decide_False by done. by rewrite decide_True.
Qed.

(** *** [sort.Slice] on transaction ids *)

Lemma sortInsert_perm (x : N) l : postgres.sortInsert N.ltb x l ≡ₚ x :: l.
Proof.
  induction l as [|y l IH]; simpl; [done|].
  destruct (N.ltb y x); [|done]. rewrite IH. apply perm_swap.
Qed.

Lemma sort_Slice_perm (l : list N) : postgres.sort_Slice N.ltb l ≡ₚ l.
Proof.
  induction l as [|x l IH]; simpl; [done|]. by rewrite sortInsert_perm, IH.
Qed.

Lemma sortInsert_sorted (x : N) l :
  Sorted N.le l -> Sorted N.le (postgres.sortInsert N.ltb x l).
Proof.
  induction 1 as [|y l Hs IH Hhd]; simpl; [by repeat constructor|].
  destruct (N.ltb_spec y x) as [Hlt|Hge].
  - constructor; [done|]. destruct Hhd as [|z l Hyz]; simpl.
    + constructor. lia.
    + destruct (N.ltb z x); constructor; [done|lia].
  - constructor; [by constructor|]. by constructor.
Qed.

Lemma sort_Slice_sorted (l : list N) : Sorted N.le (postgres.sort_Slice N.ltb l).
Proof.
  induction l as [|x l IH]; simpl; [constructor|]. by apply sortInsert_sorted.
Qed.

Lemma sorted_nodup_strict (l : list N) :
  Sorted N.le l -> NoDup l -> StronglySorted N.lt l.
Proof.
  intros Hs Hn. apply (Sorted_StronglySorted N.le) in Hs.
  induction Hs as [|x l Hs IH Hall]; [constructor|].
  apply NoDup_cons in Hn as [Hx Hn]. constructor; [by apply IH|].
  rewrite Forall_forall in Hall |- *. intros y Hy.
  specialize (Hall y Hy). assert (x ≠ y) by (intros ->; done). lia.
Qed.

Lemma sort_Slice_keys_strict (m : gmap N postgres.changeRecord) :
  StronglySorted N.lt (postgres.sort_Slice N.ltb ((map_to_list m).*1)).
Proof.
  apply sorted_nodup_strict; [apply sort_Slice_sorted|].
  rewrite sort_Slice_perm. apply NoDup_fst_map_to_list.
Qed.

(** *** The records [loadChanges] builds from the staged map *)

Lemma omap_lookup_present (m : gmap N postgres.changeRecord) (l : list N) :
  (forall rev, rev ∈ l -> is_Some (m !! rev)) ->
  omap (fun rev => postgres.revisionChange rev <$> m !! rev) l
  = (fun rev => postgres.revisionChange rev (recordAt m rev)) <$> l.
Proof.
  induction l as [|rev l IH]; intros Hl; simpl; [done|].
  destruct (Hl rev) as [rec Hrec]; [set_solver|].
  unfold recordAt at 1. rewrite Hrec. simpl. f_equal. apply IH. set_solver.
Qed.

Lemma collectChanges_fmap (m : gmap N postgres.changeRecord) :
  postgres.collectChanges m
  = (fun rev => postgres.revisionChange rev (recordAt m rev))
      <$> postgres.sort_Slice N.ltb ((map_to_list m).*1).
Proof.
  unfold postgres.collectChanges. apply omap_lookup_present.
  intros rev Hrev. rewrite sort_Slice_perm in Hrev.
  apply list_elem_of_fmap in Hrev as ([k rec] & -> & Hin).
  apply elem_of_map_to_list in Hin. simpl. eauto.
Qed.

Lemma collectChanges_revisions (m : gmap N postgres.changeRecord) :
  revisionsOf (postgres.collectChanges m) = postgres.sort_Slice N.ltb ((map_to_list m).*1).
Proof.
  rewrite collectChanges_fmap. unfold revisionsOf. rewrite <- list_fmap_compose.
  simpl. apply list_fmap_id.
Qed.

Lemma recordsAt_fmap_nodup (g : N -> postgres.changeRecord) (l : list N) (rev : N) :
  NoDup l -> rev ∈ l ->
  recordsAt rev ((fun r => postgres.revisionChange r (g r)) <$> l)
  = [postgres.revisionChange rev (g rev)].
Proof.
  unfold recordsAt. induction l as [|r l IH]; intros Hn Hin.
  - by apply elem_of_nil in Hin.
  - apply NoDup_cons in Hn as [Hr Hn]. rewrite fmap_cons, filter_cons. simpl.
    destruct (decide (r = rev)) as [->|Hne].
    + rewrite decide_True by done. f_equal.
      clear IH Hn. induction l as [|r' l IH]; [done|].
      rewrite fmap_cons, filter_cons. simpl.
      rewrite decide_False; [apply IH; set_solver|].
      intros [= ->]. set_solver.
    + rewrite decide_False by (intros [= ?]; done). apply IH; [done|set_solver].
Qed.

Lemma collectChanges_recordsAt (m : gmap N postgres.changeRecord) rev rec :
  m !! rev = Some rec ->
  recordsAt rev (postgres.collectChanges m) = [postgres.revisionChange rev rec].
Proof.
  intros Hrec. rewrite collectChanges_fmap.
  rewrite recordsAt_fmap_nodup.
  - unfold recordAt. by rewrite Hrec.
  - rewrite sort_Slice_perm. apply NoDup_fst_map_to_list.
  - rewrite sort_Slice_perm. apply list_elem_of_fmap. exists (rev, rec).
    split; [done|]. by apply elem_of_map_to_list.
Qed.

(** *** [loadChanges] as a run of events *)

Lemma stageRow_events afterRevision newRevision changes r :
  postgres.stageRow afterRevision newRevision changes r
  = applyEvents changes (rowEvents afterRevision newRevision r).
Proof.
  unfold postgres.stageRow, rowEvents, inInterval. cbv zeta.
  destruct ((afterRevision <? createdTxn r)%N && (createdTxn r <=? newRevision)%N);
    destruct ((afterRevision <? deletedTxn r)%N && (deletedTxn r <=? newRevision)%N);
    cbn [app applyEvents]; unfold applyEvent; cbn -[postgres.addChange].
  all: repeat match goal with
    | |- context [ postgres.addChange ?c ?r ?t ?op ] =>
        generalize (postgres.addChange c r t op); intros [?|];
        cbn -[postgres.addChange]
    end.
  all: done.
Qed.

Lemma stageRows_events afterRevision newRevision rows : forall changes,
  postgres.stageRows afterRevision newRevision changes rows
  = applyEvents changes (rows ≫= rowEvents afterRevision newRevision).
Proof.
  induction rows as [|r rows IH]; intros changes; simpl; [done|].
  rewrite applyEvents_app, stageRow_events.
  destruct (applyEvents changes _); simpl; [apply IH|done].
Qed.

Lemma rowEvents_interval afterRevision newRevision r e :
  e ∈ rowEvents afterRevision newRevision r ->
  inInterval afterRevision newRevision (evRevision e) = true
  ∧ (evOperation e = v0.RelationTupleUpdate_TOUCH
     ∨ evOperation e = v0.RelationTupleUpdate_DELETE).
Proof.
  unfold rowEvents. intros Hin. apply elem_of_app in Hin as [Hin|Hin].
  - destruct (inInterval _ _ (createdTxn r)) eqn:E; [|by apply elem_of_nil in Hin].
    apply list_elem_of_singleton in Hin as ->. auto.
  - destruct (inInterval _ _ (deletedTxn r)) eqn:E; [|by apply elem_of_nil in Hin].
    apply list_elem_of_singleton in Hin as ->. auto.
Qed.

Lemma applyEvents_total evs : forall changes,
  Forall (fun e => evOperation e = v0.RelationTupleUpdate_TOUCH
                   ∨ evOperation e = v0.RelationTupleUpdate_DELETE) evs ->
  is_Some (applyEvents changes evs).
Proof.
  induction evs as [|e evs IH]; intros changes Hall; simpl; [eauto|].
  apply Forall_cons in Hall as [He Hall].
  assert (is_Some (applyEvent changes e)) as [c1 ->].
  { unfold applyEvent. rewrite addChange_updateRecord.
    destruct He as [-> | ->]; simpl; [eauto|].
    destruct (_ !! _); simpl; eauto. }
  simpl. by apply IH.
Qed.

Lemma pollEvents_interval db afterRevision e :
  e ∈ pollEvents db afterRevision ->
  inInterval afterRevision (postgres.loadRevision db).1 (evRevision e) = true
  ∧ (evOperation e = v0.RelationTupleUpdate_TOUCH
     ∨ evOperation e = v0.RelationTupleUpdate_DELETE).
Proof.
  unfold pollEvents. intros Hin. apply list_elem_of_bind in Hin as (r & Hin & _).
  by eapply rowEvents_interval.
Qed.

Lemma pollEvents_total db afterRevision changes :
  is_Some (applyEvents changes (pollEvents db afterRevision)).
Proof.
  apply applyEvents_total, Forall_forall. intros e He.
  by apply pollEvents_interval in He as [_ ?].
Qed.

Lemma pollEvents_same_revision db :
  pollEvents db (postgres.loadRevision db).1 = [].
Proof.
  destruct (pollEvents db _) as [|e evs] eqn:E; [done|].
  assert (He : e ∈ pollEvents db (postgres.loadRevision db).1) by (rewrite E; set_solver).
  apply pollEvents_interval in He as [He _]. unfold inInterval in He.
  apply andb_true_iff in He as [H1 H2].
  apply N.ltb_lt in H1. apply N.leb_le in H2. lia.
Qed.

(** [loadChanges] never stops the process. *)
Lemma loadChanges_total db afterRevision : is_Some (postgres.loadChanges db afterRevision).
Proof.
  unfold postgres.loadChanges. destruct (postgres.loadRevision db) as [n [e|]]; [eauto|].
  destruct (n =? afterRevision)%N; [eauto|].
  destruct (postgres.queryErr db); [eauto|]. destruct (postgres.rowsErr db); [eauto|].
  rewrite stageRows_events.
  match goal with |- context [applyEvents ∅ ?evs] =>
    destruct (applyEvents_total evs ∅) as [c Hc] end.
  - apply Forall_forall. intros e He. apply list_elem_of_bind in He as (r & He & _).
    by apply rowEvents_interval in He as [_ ?].
  - rewrite Hc. simpl. eauto.
Qed.

(** A poll that succeeds returns the records collected from the run of its
    events. *)
Lemma loadChanges_ok db afterRevision stagedUpdates newRevision :
  postgres.loadChanges db afterRevision = Some (stagedUpdates, newRevision, None) ->
  newRevision = (postgres.loadRevision db).1
  ∧ exists staged,
      applyEvents ∅ (pollEvents db afterRevision) = Some staged
      ∧ stagedUpdates = postgres.collectChanges staged.
Proof.
  unfold postgres.loadChanges, pollEvents, polledRows.
  destruct (postgres.loadRevision db) as [n [e|]] eqn:En; [done|]. simpl.
  destruct (N.eqb_spec n afterRevision) as [->|Hne].
  - intros [= <- <-]. split; [done|]. exists ∅.
    pose proof (pollEvents_same_revision db) as He.
    unfold pollEvents, polledRows in He. rewrite En in He. simpl in He.
    rewrite He. done.
  - destruct (postgres.queryErr db); [done|]. destruct (postgres.rowsErr db); [done|].
    rewrite stageRows_events.
    destruct (applyEvents ∅ _) as [staged|] eqn:E; simpl; [|done].
    intros [= <- <-]. eauto.
Qed.

Lemma loadChanges_failed db afterRevision stagedUpdates newRevision err :
  postgres.loadChanges db afterRevision = Some (stagedUpdates, newRevision, Some err) ->
  stagedUpdates = [].
Proof.
  unfold postgres.loadChanges.
  destruct (postgres.loadRevision db) as [n [e|]]; [by intros [= <- _ _]|].
  destruct (n =? afterRevision)%N; [done|].
  destruct (postgres.queryErr db); [by intros [= <- _ _]|].
  destruct (postgres.rowsErr db); [by intros [= <- _ _]|].
  destruct (postgres.stageRows _ _ _ _); simpl; done.
Qed.

(** *** The query of a poll *)

Lemma changedWhere_selects afterRevision newRevision r :
  sq.selects (sq.Where (postgres.changedWhere afterRevision newRevision) postgres.queryChanged) r
  = inInterval afterRevision newRevision (createdTxn r)
    || inInterval afterRevision newRevision (deletedTxn r).
Proof.
  unfold sq.selects, inInterval. simpl. unfold sqlGt, sqlLtOrEq. simpl.
  rewrite !andb_true_r, orb_false_r. done.
Qed.

Lemma polledRows_elem db afterRevision r :
  r ∈ polledRows db afterRevision
  <-> r ∈ postgres.tableRows db
      ∧ inInterval afterRevision (postgres.loadRevision db).1 (createdTxn r)
        || inInterval afterRevision (postgres.loadRevision db).1 (deletedTxn r) = true.
Proof.
  unfold polledRows, sq.run. rewrite !list_elem_of_In, filter_In, changedWhere_selects.
  tauto.
Qed.

(** *** Where the tuple of a touch comes from *)

Lemma applyEvent_touch_origin changes e changes' revision k t :
  applyEvent changes e = Some changes' ->
  postgres.tupleTouches (recordAt changes' revision) !! k = Some t ->
  postgres.tupleTouches (recordAt changes revision) !! k = Some t
  ∨ e = touchOf revision t.
Proof.
  destruct e as [r t0 op]. unfold applyEvent; simpl. rewrite addChange_updateRecord.
  destruct (updateRecord op t0 (recordAt changes r)) as [rec'|] eqn:E; simpl; [|done].
  intros [= <-]. destruct (decide (r = revision)) as [->|Hne].
  - rewrite recordAt_insert_eq. destruct op; simpl in E; try done.
    + injection E as <-. simpl. rewrite lookup_insert. case_decide; [|auto].
      intros [= ->]. by right.
    + destruct (postgres.tupleTouches (recordAt changes revision) !! tuple.String t0);
        injection E as <-; auto.
  - rewrite recordAt_insert_ne by done. auto.
Qed.

Lemma applyEvents_touch_origin evs : forall changes changes' revision k t,
  applyEvents changes evs = Some changes' ->
  postgres.tupleTouches (recordAt changes' revision) !! k = Some t ->
  postgres.tupleTouches (recordAt changes revision) !! k = Some t
  ∨ touchOf revision t ∈ evs.
Proof.
  induction evs as [|e evs IH]; simpl; intros changes changes' revision k t.
  - intros [= <-]. auto.
  - destruct (applyEvent changes e) as [c1|] eqn:E; simpl; [|done].
    intros Hrun Ht. destruct (IH _ _ _ _ _ Hrun Ht) as [H1|H1]; [|right; set_solver].
    destruct (applyEvent_touch_origin _ _ _ _ _ _ E H1) as [?| ->]; [auto|].
    right. set_solver.
Qed.


Lemma pollEvents_touch db afterRevision revision t :
  touchOf revision t ∈ pollEvents db afterRevision
  ↔ exists r, r ∈ postgres.tableRows db ∧ rowTuple r = t ∧ createdTxn r = revision
       ∧ inInterval afterRevision (postgres.loadRevision db).1 revision = true.
Proof.
  unfold pollEvents. rewrite list_elem_of_bind. split.
  - intros (r & Hev & Hr). apply polledRows_elem in Hr as [Hr _].
    unfold rowEvents in Hev. apply elem_of_app in Hev as [Hev|Hev].
    + destruct (inInterval _ _ (createdTxn r)) eqn:E; [|by apply elem_of_nil in Hev].
      apply list_elem_of_singleton in Hev. injection Hev as Hrev Htup.
      exists r. by subst.
    + destruct (inInterval _ _ (deletedTxn r)) eqn:E; [|by apply elem_of_nil in Hev].
      apply list_elem_of_singleton in Hev. done.
  - intros (r & Hr & <- & <- & Hin). exists r. split.
    + unfold rowEvents. rewrite Hin. set_solver.
    + apply polledRows_elem. split; [done|]. by rewrite Hin.
Qed.

Lemma pollEvents_delete db afterRevision revision t :
  deleteOf revision t ∈ pollEvents db afterRevision
  ↔ exists r, r ∈ postgres.tableRows db ∧ rowTuple r = t ∧ deletedTxn r = revision
       ∧ inInterval afterRevision (postgres.loadRevision db).1 revision = true.
Proof.
  unfold pollEvents. rewrite list_elem_of_bind. split.
  - intros (r & Hev & Hr). apply polledRows_elem in Hr as [Hr _].
    unfold rowEvents in Hev. apply elem_of_app in Hev as [Hev|Hev].
    + destruct (inInterval _ _ (createdTxn r)) eqn:E; [|by apply elem_of_nil in Hev].
      apply list_elem_of_singleton in Hev. done.
    + destruct (inInterval _ _ (deletedTxn r)) eqn:E; [|by apply elem_of_nil in Hev].
      apply list_elem_of_singleton in Hev. injection Hev as Hrev Htup.
      exists r. by subst.
  - intros (r & Hr & <- & <- & Hin). exists r. split.
    + unfold rowEvents. rewrite Hin. set_solver.
    + apply polledRows_elem. split; [done|]. rewrite Hin. apply orb_true_r.
Qed.

(** ** The collapsing rule *)

(** Updates by tuple and updates by canonical string. *)
Lemma updatesOfTuple_updatesFor op t rc :
  updatesOfTuple op t rc = filter (fun u => v0.Tuple u = t) (updatesFor op t rc).
Proof.
  unfold updatesOfTuple, updatesFor. rewrite list_filter_filter.
  apply list_filter_iff. intros u. split.
  - intros [Hop <-]. done.
  - intros [Ht [Hop _]]. done.
Qed.

Lemma updatesOfTuple_nil op t rc :
  updatesFor op t rc = [] -> updatesOfTuple op t rc = [].
Proof. intros H. by rewrite updatesOfTuple_updatesFor, H. Qed.

Lemma updatesOfTuple_single op t rc :
  updatesFor op t rc = [ {| v0.Operation := op; v0.Tuple := t |} ] ->
  updatesOfTuple op t rc = [ {| v0.Operation := op; v0.Tuple := t |} ].
Proof.
  intros H. rewrite updatesOfTuple_updatesFor, H.
  rewrite filter_cons, decide_True by done. done.
Qed.




(** C9, as amended.  The collapsing of the changes of a poll does not depend on
    their order, for events whose tuples are told apart by their canonical
    strings: two runs of the same events in different orders leave the same
    staged map, hence the same [tupleTouches] and [tupleDeletes] at every
    revision; staging once more an event already staged changes nothing;
    and applying any event twice in a row is the same as applying it once. *)
Theorem collapse_order_independent evs1 evs2 changes :
  evs1 ≡ₚ evs2 ->
  keysIdentifyTuples evs1 ->
  applyEvents changes evs1 = applyEvents changes evs2
  ∧ (forall e, e ∈ evs1 -> applyEvents changes (e :: evs1) = applyEvents changes evs1)
  ∧ (forall e c c', applyEvent c e = Some c' -> applyEvent c' e = Some c').
Proof.
  intros Hp Hk. split; [by apply applyEvents_perm|]. split.
  - intros e He.
    apply elem_of_Permutation in He as [evs' Hevs'].
    assert (Hk1 : keysIdentifyTuples (e :: evs1)).
    { apply Forall_forall. intros e1 H1. apply Forall_forall. intros e2 H2.
      apply (keysIdentifyTuples_elem evs1); [done| |].
      - apply elem_of_cons in H1 as [->|H1]; [rewrite Hevs'; set_solver|done].
      - apply elem_of_cons in H2 as [->|H2]; [rewrite Hevs'; set_solver|done]. }
    rewrite (applyEvents_perm (e :: evs1) (evs' ++ [e; e])); [|by rewrite Hevs'; solve_Permutation|done].
    rewrite (applyEvents_perm evs1 (evs' ++ [e])); [|by rewrite Hevs'; solve_Permutation|done].
    rewrite !applyEvents_app. destruct (applyEvents changes evs') as [c|]; simpl; [|done].
    destruct (applyEvent c e) as [c'|] eqn:E; simpl; [|done].
    by rewrite (applyEvent_idemp _ _ _ E).
  - intros e c c'. apply applyEvent_idemp.
Qed.

Lemma collapse_order_independent_witness :
  applyEvents ∅ [deleteOf 2 sampleTuple; touchOf 2 sampleTuple]
  = applyEvents ∅ [touchOf 2 sampleTuple; deleteOf 2 sampleTuple]
  ∧ (forall e, e ∈ [deleteOf 2 sampleTuple; touchOf 2 sampleTuple] ->
       applyEvents ∅ (e :: [deleteOf 2 sampleTuple; touchOf 2 sampleTuple])
       = applyEvents ∅ [deleteOf 2 sampleTuple; touchOf 2 sampleTuple])
  ∧ (forall e c c', applyEvent c e = Some c' -> applyEvent c' e = Some c').
Proof.
  apply collapse_order_independent.
  - apply perm_swap.
  - unfold keysIdentifyTuples. repeat constructor.
Defined.

(** The claim C9 as it is stated fails: two TOUCH events at one revision for
    two tuples that share their canonical string leave, in [tupleTouches],
    the tuple of whichever event came last. *)
Lemma collapse_order_counterexample :
  [touchOf 1 tupleColonInNamespace; touchOf 1 tupleColonInObjectId]
    ≡ₚ [touchOf 1 tupleColonInObjectId; touchOf 1 tupleColonInNamespace]
  ∧ applyEvents ∅ [touchOf 1 tupleColonInNamespace; touchOf 1 tupleColonInObjectId]
    ≠ applyEvents ∅ [touchOf 1 tupleColonInObjectId; touchOf 1 tupleColonInNamespace].
Proof.
  split; [apply perm_swap|].
  intros H.
  apply (f_equal (fun o => c ← o; rec ← c !! 1%N;
                          postgres.tupleTouches rec !! tuple.String tupleColonInNamespace)) in H.
  vm_compute in H. discriminate H.
Qed.

(** *** Deletes that no touch supersedes *)

Lemma applyEvent_untouched changes e changes' revision k :
  postgres.tupleTouches (recordAt changes revision) !! k = None ->
  ¬ touchesKey revision k e ->
  applyEvent changes e = Some changes' ->
  postgres.tupleTouches (recordAt changes' revision) !! k = None.
Proof.
  intros Hnone Hnot. destruct e as [r t op]. unfold applyEvent, touchesKey in *; simpl in *.
  rewrite addChange_updateRecord.
  destruct (updateRecord op t (recordAt changes r)) as [rec'|] eqn:E; simpl; [|done].
  intros [= <-]. destruct (decide (r = revision)) as [->|Hne].
  - rewrite recordAt_insert_eq. destruct op; simpl in E; try done.
    + injection E as <-. simpl. rewrite lookup_insert_ne; [done|]. naive_solver.
    + destruct (postgres.tupleTouches (recordAt changes revision) !! tuple.String t);
        by injection E as <-.
  - by rewrite recordAt_insert_ne.
Qed.

Lemma applyEvent_delete changes revision t changes' :
  postgres.tupleTouches (recordAt changes revision) !! tuple.String t = None ->
  applyEvent changes (deleteOf revision t) = Some changes' ->
  deletedAt changes' revision (tuple.String t).
Proof.
  intros Hnone. unfold applyEvent. rewrite addChange_updateRecord. simpl.
  rewrite Hnone. simpl. intros [= <-]. eexists. rewrite lookup_insert_eq.
  split; [done|]. simpl. rewrite lookup_insert_eq. eauto.
Qed.

Lemma applyEvent_deleted changes e changes' revision k :
  deletedAt changes revision k ->
  ¬ touchesKey revision k e ->
  applyEvent changes e = Some changes' ->
  deletedAt changes' revision k.
Proof.
  intros (rec & Hrec & Ht & [t0 Hd]) Hnot. destruct e as [r t op].
  unfold applyEvent, touchesKey in *; simpl in *. rewrite addChange_updateRecord.
  destruct (updateRecord op t (recordAt changes r)) as [rec'|] eqn:E; simpl; [|done].
  intros [= <-]. destruct (decide (r = revision)) as [->|Hne].
  - exists rec'. rewrite lookup_insert_eq. split; [done|].
    unfold recordAt in E. rewrite Hrec in E.
    destruct op; simpl in E; try done.
    + injection E as <-. simpl.
      assert (tuple.String t ≠ k) by naive_solver.
      rewrite lookup_insert_ne, lookup_delete_ne by done. eauto.
    + destruct (postgres.tupleTouches rec !! tuple.String t) eqn:E'; injection E as <-;
        [eauto|]. simpl. split; [done|].
      rewrite lookup_insert. case_decide; eauto.
  - exists rec. by rewrite lookup_insert_ne.
Qed.

Lemma applyEvents_deleted_preserved evs : forall changes changes' revision k,
  deletedAt changes revision k ->
  Forall (fun e => ¬ touchesKey revision k e) evs ->
  applyEvents changes evs = Some changes' ->
  deletedAt changes' revision k.
Proof.
  induction evs as [|e evs IH]; simpl; intros changes changes' revision k Hd Hall.
  - by intros [= <-].
  - apply Forall_cons in Hall as [He Hall].
    destruct (applyEvent changes e) as [c1|] eqn:E; simpl; [|done].
    apply IH; [|done]. by eapply applyEvent_deleted.
Qed.

Lemma applyEvents_deleted evs : forall changes changes' revision t,
  deleteOf revision t ∈ evs ->
  Forall (fun e => ¬ touchesKey revision (tuple.String t) e) evs ->
  postgres.tupleTouches (recordAt changes revision) !! tuple.String t = None ->
  applyEvents changes evs = Some changes' ->
  deletedAt changes' revision (tuple.String t).
Proof.
  induction evs as [|e evs IH]; simpl; intros changes changes' revision t Hin Hall Hnone.
  - by apply elem_of_nil in Hin.
  - apply Forall_cons in Hall as [He Hall].
    destruct (applyEvent changes e) as [c1|] eqn:E; simpl; [|done].
    apply elem_of_cons in Hin as [<-|Hin].
    + apply (applyEvents_deleted_preserved evs c1); [|done]. by eapply applyEvent_delete.
    + apply IH; [done|done|]. by eapply applyEvent_untouched.
Qed.

Lemma revisionChange_counts_deleted revision rec t :
  recordKeyed rec ->
  postgres.tupleTouches rec !! tuple.String t = None ->
  is_Some (postgres.tupleDeletes rec !! tuple.String t) ->
  length (updatesFor v0.RelationTupleUpdate_DELETE t (postgres.revisionChange revision rec)) = 1
  ∧ updatesFor v0.RelationTupleUpdate_TOUCH t (postgres.revisionChange revision rec) = [].
Proof.
  intros [Hkt Hkd] Ht [t0 Hd]. unfold updatesFor, postgres.revisionChange. simpl.
  rewrite !filter_app. split.
  - rewrite length_app, !updates_of_map_count by done.
    rewrite Hd. rewrite decide_False by done. by rewrite decide_True.
  - apply length_zero_iff_nil.
    rewrite length_app, !updates_of_map_count by done.
    rewrite Ht. rewrite decide_True by done. by rewrite decide_False.
Qed.

(** C10.  A stored row whose [createdTxn] and [deletedTxn] both lie in the
    polled interval is returned by the query and stages two changes, a TOUCH
    at [createdTxn] and then a DELETE at [deletedTxn]: the record of
    [createdTxn] holds one TOUCH for its tuple, and the record of
    [deletedTxn] holds one DELETE for it unless a TOUCH of the same canonical
    string is staged at that revision.  The guards look at each transaction
    id on its own: a row with only one of the two in the interval stages
    only the change of that one. *)
Theorem row_in_interval_stages_two_events db afterRevision stagedUpdates newRevision r :
  postgres.loadChanges db afterRevision = Some (stagedUpdates, newRevision, None) ->
  r ∈ postgres.tableRows db ->
  inInterval afterRevision newRevision (createdTxn r) = true ->
  inInterval afterRevision newRevision (deletedTxn r) = true ->
  r ∈ polledRows db afterRevision
  ∧ (forall staged,
       postgres.stageRow afterRevision newRevision staged r
       = staged1 ← postgres.addChange staged (createdTxn r) (rowTuple r)
                     v0.RelationTupleUpdate_TOUCH;
         postgres.addChange staged1 (deletedTxn r) (rowTuple r)
           v0.RelationTupleUpdate_DELETE)
  ∧ (exists rc,
       recordsAt (createdTxn r) stagedUpdates = [rc]
       ∧ length (updatesFor v0.RelationTupleUpdate_TOUCH (rowTuple r) rc) = 1)
  ∧ (Forall (fun e => ¬ touchesKey (deletedTxn r) (tuple.String (rowTuple r)) e)
            (pollEvents db afterRevision) ->
     exists rc,
       recordsAt (deletedTxn r) stagedUpdates = [rc]
       ∧ length (updatesFor v0.RelationTupleUpdate_DELETE (rowTuple r) rc) = 1)
  ∧ (forall staged r',
       inInterval afterRevision newRevision (createdTxn r') = true ->
       inInterval afterRevision newRevision (deletedTxn r') = false ->
       postgres.stageRow afterRevision newRevision staged r'
       = postgres.addChange staged (createdTxn r') (rowTuple r')
           v0.RelationTupleUpdate_TOUCH)
  ∧ (forall staged r',
       inInterval afterRevision newRevision (createdTxn r') = false ->
       inInterval afterRevision newRevision (deletedTxn r') = true ->
       postgres.stageRow afterRevision newRevision staged r'
       = postgres.addChange staged (deletedTxn r') (rowTuple r')
           v0.RelationTupleUpdate_DELETE).
Proof.
  intros Hload Hrow Hc Hd.
  apply loadChanges_ok in Hload as (-> & staged & Hrun & ->).
  pose proof (applyEvents_keyed _ _ _ stagedKeyed_empty Hrun) as Hkeyed.
  assert (Hpolled : r ∈ polledRows db afterRevision).
  { apply polledRows_elem. split; [done|]. by rewrite Hc. }
  assert (Hevents : rowEvents afterRevision (postgres.loadRevision db).1 r
                    = [touchOf (createdTxn r) (rowTuple r);
                       deleteOf (deletedTxn r) (rowTuple r)]).
  { unfold rowEvents. by rewrite Hc, Hd. }
  assert (Hin : forall e, e ∈ rowEvents afterRevision (postgres.loadRevision db).1 r ->
                          e ∈ pollEvents db afterRevision).
  { intros e He. unfold pollEvents. apply list_elem_of_bind. eauto. }
  assert (Htouch : touchOf (createdTxn r) (rowTuple r) ∈ pollEvents db afterRevision).
  { apply Hin. rewrite Hevents. set_solver. }
  assert (Hdelete : deleteOf (deletedTxn r) (rowTuple r) ∈ pollEvents db afterRevision).
  { apply Hin. rewrite Hevents. set_solver. }
  split; [done|]. split.
  { intros staged0. unfold postgres.stageRow, inInterval in *. cbv zeta.
    by rewrite Hc, Hd. }
  split.
  { destruct (applyEvents_touched _ _ _ _ _ Htouch Hrun) as (rec & Hrec & Ht & Hdel).
    exists (postgres.revisionChange (createdTxn r) rec).
    split; [by apply collectChanges_recordsAt|].
    by apply revisionChange_counts; [eapply Hkeyed|..]. }
  split.
  { intros Hnotouch.
    assert (Hfresh : postgres.tupleTouches (recordAt ∅ (deletedTxn r))
                       !! tuple.String (rowTuple r) = None).
    { unfold recordAt. by rewrite !lookup_empty. }
    destruct (applyEvents_deleted _ _ _ _ _ Hdelete Hnotouch Hfresh Hrun)
      as (rec & Hrec & Ht & Hdel).
    exists (postgres.revisionChange (deletedTxn r) rec).
    split; [by apply collectChanges_recordsAt|].
    by apply revisionChange_counts_deleted; [eapply Hkeyed|..]. }
  split.
  - intros staged0 r' Hc' Hd'. unfold postgres.stageRow, inInterval in *. cbv zeta.
    rewrite Hc', Hd'.
    by destruct (postgres.addChange staged0 (createdTxn r') (rowTuple r') _).
  - intros staged0 r' Hc' Hd'. unfold postgres.stageRow, inInterval in *. cbv zeta.
    by rewrite Hc', Hd'.
Qed.

Lemma row_in_interval_stages_two_events_witness :
  exists stagedUpdates,
    postgres.loadChanges (sampleDb 0) 0 = Some (stagedUpdates, 4%N, None)
    ∧ (exists rc,
         recordsAt 3 stagedUpdates = [rc]
         ∧ length (updatesFor v0.RelationTupleUpdate_TOUCH otherTuple rc) = 1)
    ∧ (exists rc,
         recordsAt 4 stagedUpdates = [rc]
         ∧ length (updatesFor v0.RelationTupleUpdate_DELETE otherTuple rc) = 1).
Proof.
  eexists. split.
  - vm_compute. reflexivity.
  - match goal with |- context [recordsAt 3 ?l] =>
      destruct (row_in_interval_stages_two_events (sampleDb 0) 0 l 4
                  {| rowTuple := otherTuple; createdTxn := 3; deletedTxn := 4 |})
        as (_ & _ & Htouch & Hdelete & _)
    end.
    + vm_compute. reflexivity.
    + apply (bool_decide_unpack _). vm_compute. exact I.
    + reflexivity.
    + reflexivity.
    + split; [exact Htouch|]. apply Hdelete.
      apply (bool_decide_unpack _). vm_compute. exact I.
Defined.

(** ** The goroutine of [Watch] *)

Lemma consume_emitted k ch : postgres.emitted (postgres.consume k ch) = postgres.emitted ch.
Proof.
  unfold postgres.emitted, postgres.consume. simpl.
  by rewrite <- app_assoc, take_drop.
Qed.

Lemma trySend_emitted capacity receiverParked ch x ch' :
  postgres.trySend capacity receiverParked ch x = Some ch' ->
  postgres.emitted ch' = postgres.emitted ch ++ [x].
Proof.
  unfold postgres.trySend, postgres.emitted.
  destruct (receiverParked && _) eqn:E.
  - intros [= <-]. simpl. apply andb_true_iff in E as [_ E].
    apply bool_decide_eq_true in E. rewrite E. by rewrite !app_nil_r.
  - destruct (_ <? _)%nat; [|done]. intros [= <-]. simpl. by rewrite app_assoc.
Qed.

Lemma trySend_blocks capacity receiverParked ch x :
  postgres.trySend capacity receiverParked ch x = None
  <-> sendBlocks capacity receiverParked ch = true.
Proof.
  unfold postgres.trySend, sendBlocks.
  destruct (receiverParked && _); simpl; [done|].
  destruct (Nat.ltb_spec (length (postgres.chanBuffered ch)) capacity) as [Hlt|Hge].
  - split; [done|]. intros H%Nat.leb_le. lia.
  - split; [|done]. intros _. by apply Nat.leb_le.
Qed.

Lemma emitStaged_emitted capacity stagedUpdates : forall steps ch ch' ok,
  postgres.emitStaged capacity steps ch stagedUpdates = (ch', ok) ->
  exists sent,
    sent `prefix_of` stagedUpdates
    ∧ postgres.emitted ch' = postgres.emitted ch ++ sent
    ∧ (ok = true -> sent = stagedUpdates).
Proof.
  induction stagedUpdates as [|x rest IH]; simpl; intros steps ch ch' ok.
  - intros [= <- <-]. exists []. by rewrite app_nil_r.
  - destruct (postgres.trySend _ _ _ x) as [ch2|] eqn:E.
    + intros Hrest. apply IH in Hrest as (sent & Hpre & Hem & Hok).
      exists (x :: sent). split; [by apply prefix_cons|]. split.
      * rewrite Hem. apply trySend_emitted in E. rewrite E, consume_emitted.
        by rewrite <- app_assoc.
      * intros ->. by rewrite Hok.
    + intros [= <- <-]. exists []. split; [apply prefix_nil|].
      by rewrite consume_emitted, app_nil_r.
Qed.

Lemma emitStaged_app capacity pre : forall steps ch ch1 rest,
  postgres.emitStaged capacity steps ch pre = (ch1, true) ->
  postgres.emitStaged capacity steps ch (pre ++ rest)
  = postgres.emitStaged capacity (drop (length pre) steps) ch1 rest.
Proof.
  induction pre as [|x pre IH]; simpl; intros steps ch ch1 rest.
  - intros [= <-]. by rewrite drop_0.
  - destruct (postgres.trySend _ _ _ x) as [ch2|]; [|done].
    intros H. rewrite (IH _ _ _ _ H). destruct steps; simpl; [by rewrite !drop_nil|done].
Qed.

(** *** The revisions a poll returns *)

Lemma applyEvent_lookup changes e changes' revision :
  applyEvent changes e = Some changes' ->
  is_Some (changes' !! revision) ->
  is_Some (changes !! revision) ∨ revision = evRevision e.
Proof.
  destruct e as [r t op]. unfold applyEvent; simpl. rewrite addChange_updateRecord.
  destruct (updateRecord op t (recordAt changes r)); simpl; [|done].
  intros [= <-]. rewrite lookup_insert. case_decide; auto.
Qed.

Lemma applyEvents_lookup evs : forall changes changes' revision,
  applyEvents changes evs = Some changes' ->
  is_Some (changes' !! revision) ->
  is_Some (changes !! revision) ∨ revision ∈ evRevision <$> evs.
Proof.
  induction evs as [|e evs IH]; simpl; intros changes changes' revision.
  - intros [= <-]. auto.
  - destruct (applyEvent changes e) as [c1|] eqn:E; simpl; [|done].
    intros Hrun Hsome. destruct (IH _ _ _ Hrun Hsome) as [H1|H1].
    + destruct (applyEvent_lookup _ _ _ _ E H1) as [?| ->]; [auto|].
      right. set_solver.
    + right. set_solver.
Qed.

Lemma loadChanges_revisions db afterRevision stagedUpdates newRevision err :
  postgres.loadChanges db afterRevision = Some (stagedUpdates, newRevision, err) ->
  StronglySorted N.lt (revisionsOf stagedUpdates)
  ∧ Forall (fun revision => (afterRevision < revision <= newRevision)%N)
           (revisionsOf stagedUpdates).
Proof.
  destruct err as [e|].
  - intros ->%loadChanges_failed. split; constructor.
  - intros (-> & staged & Hrun & ->)%loadChanges_ok.
    rewrite collectChanges_revisions. split; [apply sort_Slice_keys_strict|].
    apply Forall_forall. intros revision Hrev. rewrite sort_Slice_perm in Hrev.
    apply list_elem_of_fmap in Hrev as ([k rec] & -> & Hin).
    apply elem_of_map_to_list in Hin. simpl.
    destruct (applyEvents_lookup _ _ _ k Hrun) as [Hk|Hk]; [eauto| |].
    + rewrite lookup_empty in Hk. by destruct Hk.
    + apply list_elem_of_fmap in Hk as (e & -> & He).
      apply pollEvents_interval in He as [He _]. unfold inInterval in He.
      apply andb_true_iff in He as [H1%N.ltb_lt H2%N.leb_le]. lia.
Qed.

Lemma revisionsOf_prefix sent stagedUpdates (P : N -> Prop) :
  sent `prefix_of` stagedUpdates ->
  StronglySorted N.lt (revisionsOf stagedUpdates) ->
  Forall P (revisionsOf stagedUpdates) ->
  StronglySorted N.lt (revisionsOf sent) ∧ Forall P (revisionsOf sent).
Proof.
  intros [rest ->]. unfold revisionsOf. rewrite fmap_app.
  intros Hs Hall. split.
  - by apply StronglySorted_app_1_l in Hs.
  - by apply Forall_app in Hall as [? _].
Qed.

(** What one turn adds to the channel, and where it leaves the cursor. *)
Lemma watchTurn_emitted pgd env ch currentTxn ch' status :
  postgres.watchTurn pgd env ch currentTxn = (ch', status) ->
  exists sent,
    postgres.emitted ch' = postgres.emitted ch ++ sent
    ∧ StronglySorted N.lt (revisionsOf sent)
    ∧ (sent = []
       ∨ exists newRevision,
           postgres.loadRevision (postgres.pollDb env) = (newRevision, None)
           ∧ Forall (fun revision => (currentTxn < revision <= newRevision)%N)
                    (revisionsOf sent))
    ∧ (forall currentTxn', status = postgres.Polling currentTxn' ->
         postgres.loadRevision (postgres.pollDb env) = (currentTxn', None)).
Proof.
  unfold postgres.watchTurn.
  destruct (postgres.loadChanges (postgres.pollDb env) currentTxn)
    as [[[stagedUpdates newRevision] [err|]]|] eqn:Hload.
  - intros Hturn. exists []. rewrite app_nil_r.
    assert (ch' = ch ∧ forall c, status ≠ postgres.Polling c) as [-> Hst].
    { destruct (postgres.ctxCanceled env); injection Hturn as <- <-; done. }
    repeat split; [constructor|auto|]. intros c Hc. by destruct (Hst c).
  - pose proof (loadChanges_revisions _ _ _ _ _ Hload) as [Hsorted Hbounds].
    pose proof (loadChanges_ok _ _ _ _ Hload) as (Hnew & _).
    assert (Hrev : postgres.loadRevision (postgres.pollDb env) = (newRevision, None)).
    { unfold postgres.loadChanges in Hload.
      destruct (postgres.loadRevision (postgres.pollDb env)) as [n [e|]]; [done|].
      simpl in Hnew. by subst. }
    destruct (postgres.emitStaged _ _ ch stagedUpdates) as [ch1 ok] eqn:Hemit.
    apply emitStaged_emitted in Hemit as (sent & Hpre & Hem & Hok).
    destruct (revisionsOf_prefix _ _ _ Hpre Hsorted Hbounds) as [Hs Hb].
    intros Hturn. exists sent.
    assert (ch' = ch1 ∧ forall c, status = postgres.Polling c -> c = newRevision)
      as [-> Hst].
    { destruct ok; [|by injection Hturn as <- <-].
      destruct (length stagedUpdates =? 0)%nat; [destruct (postgres.sleepInterrupted env)|];
        injection Hturn as <- <-; split; try done; by intros c [= <-]. }
    repeat split; [done|done|eauto|]. intros c Hc. by rewrite (Hst c Hc).
  - intros [= <- <-]. exists []. rewrite app_nil_r.
    repeat split; [constructor|auto|done].
Qed.

Lemma readings_cons_ok env envs newRevision :
  postgres.loadRevision (postgres.pollDb env) = (newRevision, None) ->
  readings (env :: envs) = newRevision :: readings envs.
Proof. intros H. unfold readings. simpl. by rewrite H. Qed.

Lemma watchLoop_increasing pgd envs : forall ch currentTxn bound,
  Sorted N.le (readings envs) ->
  Forall (fun n => (bound <= n)%N) (readings envs) ->
  (bound <= currentTxn)%N ->
  Forall (fun revision => (revision <= bound)%N) (revisionsOf (postgres.emitted ch)) ->
  StronglySorted N.lt (revisionsOf (postgres.emitted ch)) ->
  StronglySorted N.lt
    (revisionsOf (postgres.emitted (postgres.watchLoop pgd envs ch currentTxn).1)).
Proof.
  induction envs as [|env envs IH]; intros ch currentTxn bound Hread Hlow Hcur Hup Hsorted;
    simpl; [done|].
  destruct (postgres.watchTurn pgd env ch currentTxn) as [ch' status] eqn:Hturn.
  apply watchTurn_emitted in Hturn as (sent & Hem & Hs & Hsent & Hpoll).
  assert (Hsorted' : StronglySorted N.lt (revisionsOf (postgres.emitted ch'))).
  { rewrite Hem. unfold revisionsOf. rewrite fmap_app.
    apply StronglySorted_app_2; [|done|done].
    intros r1 r2 H1 H2. destruct Hsent as [->|(n & Hn & Hb)].
    - by apply elem_of_nil in H2.
    - rewrite Forall_forall in Hup, Hb. specialize (Hup r1 H1). specialize (Hb r2 H2).
      lia. }
  destruct status as [currentTxn'| |]; simpl; [|done|done].
  specialize (Hpoll currentTxn' eq_refl).
  rewrite (readings_cons_ok _ _ _ Hpoll) in Hread, Hlow.
  apply Forall_cons in Hlow as [Hb Hlow].
  apply (Sorted_StronglySorted N.le) in Hread. apply StronglySorted_cons in Hread as [Hhd Hread].
  apply (IH ch' currentTxn' currentTxn').
  - by apply StronglySorted_Sorted.
  - done.
  - lia.
  - rewrite Hem. unfold revisionsOf. rewrite fmap_app. apply Forall_app. split.
    + eapply Forall_impl; [exact Hup|]. simpl. intros. lia.
    + destruct Hsent as [->|(n & Hn & Hbn)]; [constructor|].
      rewrite Hpoll in Hn. injection Hn as <-.
      eapply Forall_impl; [exact Hbn|]. simpl. intros. lia.
  - done.
Qed.

(** C4.  Revision monotonicity.  While the transaction counter read by
    [loadRevision] does not decrease from one poll to the next, the revisions
    of the records sent on the [updates] channel of one subscription, in the
    order they are sent, are strictly increasing; in particular a record of a
    later poll carries a greater revision than every record of an earlier
    poll.  The records one poll stages are in strictly ascending order of
    revision whatever the counter does. *)
Theorem watch_revisions_strictly_increasing pgd afterRevision envs :
  Sorted N.le (readings envs) ->
  StronglySorted N.lt
    (revisionsOf (postgres.emitted (postgres.Watch pgd afterRevision envs).1))
  ∧ (forall db currentTxn stagedUpdates newRevision err,
       postgres.loadChanges db currentTxn = Some (stagedUpdates, newRevision, err) ->
       StronglySorted N.lt (revisionsOf stagedUpdates)).
Proof.
  intros Hread. split.
  - unfold postgres.Watch.
    apply (watchLoop_increasing pgd envs _ _ 0%N);
      first [ done | lia | by constructor | apply Forall_forall; intros; lia ].
  - intros db currentTxn stagedUpdates newRevision err Hload.
    by apply loadChanges_revisions in Hload as [? _].
Qed.

Lemma watch_revisions_strictly_increasing_witness :
  StronglySorted N.lt
    (revisionsOf
       (postgres.emitted
          (postgres.Watch roomyPgd (datastore.revisionFromTransaction 0)
             [servedPoll (sampleDb 0); servedPoll (laterDb 0)]).1)).
Proof.
  apply (watch_revisions_strictly_increasing roomyPgd (datastore.revisionFromTransaction 0)
           [servedPoll (sampleDb 0); servedPoll (laterDb 0)]).
  apply (bool_decide_unpack _). vm_compute. exact I.
Defined.

(** C5.  Backpressure.  When the goroutine comes to send a staged record and
    the send would block (the buffer of [updates] is full and no receiver is
    parked on it), the turn ends at once: the goroutine has sent
    [WatchDisconnected] on [errors] and returned, whatever the later polls
    would have brought; the record and those staged after it are not sent. *)
Theorem watch_disconnects_when_full
    pgd env ch currentTxn stagedUpdates newRevision pre changeToWrite post ch1 :
  postgres.loadChanges (postgres.pollDb env) currentTxn
    = Some (stagedUpdates, newRevision, None) ->
  stagedUpdates = pre ++ changeToWrite :: post ->
  postgres.emitStaged (postgres.watchBufferLength pgd) (postgres.consumer env) ch pre
    = (ch1, true) ->
  sendBlocks (postgres.watchBufferLength pgd)
    (postgres.parked (hd postgres.idle (drop (length pre) (postgres.consumer env))))
    (postgres.consume
       (postgres.receives (hd postgres.idle (drop (length pre) (postgres.consumer env))))
       ch1) = true ->
  exists ch',
    postgres.watchTurn pgd env ch currentTxn = (ch', postgres.Returned ErrWatchDisconnected)
    ∧ (forall envs,
         postgres.watchLoop pgd (env :: envs) ch currentTxn
         = (ch', postgres.Returned ErrWatchDisconnected))
    ∧ postgres.emitted ch' = postgres.emitted ch ++ pre.
Proof.
  intros Hload -> Hpre Hblock.
  apply trySend_blocks with (x := changeToWrite) in Hblock.
  assert (Hturn : postgres.watchTurn pgd env ch currentTxn
                  = (postgres.consume
                       (postgres.receives
                          (hd postgres.idle (drop (length pre) (postgres.consumer env))))
                       ch1,
                     postgres.Returned ErrWatchDisconnected)).
  { unfold postgres.watchTurn. rewrite Hload.
    rewrite (emitStaged_app _ _ _ _ _ _ Hpre). simpl. by rewrite Hblock. }
  eexists. split; [exact Hturn|]. split.
  - intros envs. simpl. by rewrite Hturn.
  - rewrite consume_emitted.
    apply emitStaged_emitted in Hpre as (sent & _ & Hem & Hok).
    by rewrite Hem, (Hok eq_refl).
Qed.

Lemma watch_disconnects_when_full_witness :
  exists ch',
    (forall envs,
       postgres.watchLoop narrowPgd (pausedPoll (sampleDb 0) :: envs)
         {| postgres.chanBuffered := []; postgres.chanReceived := [] |} 0
       = (ch', postgres.Returned ErrWatchDisconnected))
    ∧ length (postgres.emitted ch') = 1.
Proof.
  edestruct (watch_disconnects_when_full narrowPgd (pausedPoll (sampleDb 0))
               {| postgres.chanBuffered := []; postgres.chanReceived := [] |} 0)
    as (ch' & _ & Hloop & Hem).
  - vm_compute. reflexivity.
  - instantiate (3 := [_]). reflexivity.
  - vm_compute. reflexivity.
  - vm_compute. reflexivity.
  - exists ch'. split; [exact Hloop|]. by rewrite Hem.
Defined.
End ChangeFeed.

(** * The tuple queries *)

Section TupleQueries.

Variable liveDeletedTxnID : N.

Lemma Where_selects p b r :
  sq.selects (sq.Where p b) r = sq.selects b r && sq.holds r p.
Proof.
  unfold sq.selects, sq.Where. simpl. rewrite forallb_app. simpl.
  by rewrite andb_true_r.
Qed.

Lemma sqlEq_string s s' : sqlEq (VString s) (VString s') = true ↔ s = s'.
Proof. simpl. apply bool_decide_eq_true. Qed.

Lemma living_selects (original : sq.SelectBuilder) revision r :
  sq.selects (postgres.filterToLivingObjects liveDeletedTxnID original revision) r = true
  ↔ sq.selects original r = true ∧ aliveAt liveDeletedTxnID revision r.
Proof.
  unfold postgres.filterToLivingObjects, aliveAt. rewrite !Where_selects. simpl.
  unfold sqlLtOrEq, sqlGt, sqlEq. simpl.
  rewrite !andb_true_iff, orb_false_r, orb_true_iff.
  rewrite N.leb_le, N.eqb_eq, N.ltb_lt. tauto.
Qed.

(** C6.  The query of [reverseQueryBase] selects a row exactly when the row
    is alive at the revision: created at or before it, and either not
    deleted (its [deletedTxn] is the live sentinel) or deleted after it.
    Run on a table, it returns the alive rows of the table. *)
Theorem reverseQueryBase_selects_alive pgd revision r :
  (sq.selects (common.InitialQuery (postgres.reverseQueryBase liveDeletedTxnID pgd revision)) r
     = true
   ↔ (createdTxn r <= datastore.transactionFromRevision revision)%N
     ∧ (deletedTxn r = liveDeletedTxnID
        ∨ (datastore.transactionFromRevision revision < deletedTxn r)%N))
  ∧ (forall table,
       r ∈ sq.run (common.InitialQuery
                     (postgres.reverseQueryBase liveDeletedTxnID pgd revision)) table
       ↔ r ∈ table ∧ aliveAt liveDeletedTxnID revision r).
Proof.
  assert (Hsel : sq.selects
                   (common.InitialQuery
                      (postgres.reverseQueryBase liveDeletedTxnID pgd revision)) r = true
                 ↔ aliveAt liveDeletedTxnID revision r).
  { change (common.InitialQuery (postgres.reverseQueryBase liveDeletedTxnID pgd revision))
      with (postgres.filterToLivingObjects liveDeletedTxnID postgres.queryTuples revision).
    rewrite living_selects. unfold sq.selects. simpl. tauto. }
  split; [exact Hsel|].
  intros table. unfold sq.run. rewrite !list_elem_of_In, filter_In. by rewrite Hsel.
Qed.

Lemma QueryTuples_whereParts pgd filter revision :
  sq.whereParts (common.InitialQuery
                   (postgres.QueryTuples liveDeletedTxnID pgd filter revision))
  = sq.whereParts (postgres.filterToLivingObjects liveDeletedTxnID postgres.queryTuples revision)
    ++ [sq.Eq colNamespace (VString (datastore.ResourceType filter))]
    ++ (if decide (datastore.OptionalResourceID filter = "") then []
        else [sq.Eq colObjectID (VString (datastore.OptionalResourceID filter))])
    ++ (if decide (datastore.OptionalResourceRelation filter = "") then []
        else [sq.Eq colRelation (VString (datastore.OptionalResourceRelation filter))]).
Proof.
  unfold postgres.QueryTuples.
  destruct (decide (datastore.OptionalResourceID filter = "")) as [Hid|Hid];
    destruct (decide (datastore.OptionalResourceRelation filter = "")) as [Hrel|Hrel].
  - rewrite decide_False by (by intros []). rewrite decide_False by (by intros []). done.
  - rewrite decide_False by (by intros []). rewrite decide_True by done. done.
  - rewrite decide_True by done. rewrite decide_False by (by intros []). done.
  - rewrite decide_True by done. rewrite decide_True by done. done.
Qed.

(** C7.  The query of [QueryTuples] keeps the restriction to the living rows
    and always adds the equality of the resource namespace with
    [ResourceType]; it adds the equality of the resource id (of the resource
    relation) exactly when the optional field is not empty.  So a row is
    selected exactly when it is a living row of that namespace whose id and
    relation equal the fields that are given: an empty field lets every
    value through. *)
Theorem QueryTuples_constrains_filter pgd filter revision r :
  sq.whereParts (common.InitialQuery
                   (postgres.QueryTuples liveDeletedTxnID pgd filter revision))
  = sq.whereParts (postgres.filterToLivingObjects liveDeletedTxnID postgres.queryTuples revision)
    ++ [sq.Eq colNamespace (VString (datastore.ResourceType filter))]
    ++ (if decide (datastore.OptionalResourceID filter = "") then []
        else [sq.Eq colObjectID (VString (datastore.OptionalResourceID filter))])
    ++ (if decide (datastore.OptionalResourceRelation filter = "") then []
        else [sq.Eq colRelation (VString (datastore.OptionalResourceRelation filter))])
  ∧ (sq.selects (common.InitialQuery
                   (postgres.QueryTuples liveDeletedTxnID pgd filter revision)) r = true
     ↔ sq.selects
         (postgres.filterToLivingObjects liveDeletedTxnID postgres.queryTuples revision) r
       = true
       ∧ v0.Namespace (v0.tplObjectAndRelation (rowTuple r)) = datastore.ResourceType filter
       ∧ (datastore.OptionalResourceID filter = ""
          ∨ v0.ObjectId (v0.tplObjectAndRelation (rowTuple r))
            = datastore.OptionalResourceID filter)
       ∧ (datastore.OptionalResourceRelation filter = ""
          ∨ v0.Relation (v0.tplObjectAndRelation (rowTuple r))
            = datastore.OptionalResourceRelation filter)).
Proof.
  split; [apply QueryTuples_whereParts|].
  unfold sq.selects at 1. rewrite QueryTuples_whereParts.
  rewrite !forallb_app, !andb_true_iff. fold (sq.selects
    (postgres.filterToLivingObjects liveDeletedTxnID postgres.queryTuples revision) r).
  simpl. rewrite andb_true_r, bool_decide_eq_true.
  destruct (decide (datastore.OptionalResourceID filter = "")) as [Hid|Hid];
    destruct (decide (datastore.OptionalResourceRelation filter = "")) as [Hrel|Hrel];
    simpl; rewrite ?andb_true_r, ?bool_decide_eq_true; intuition congruence.
Qed.

Lemma wrapInt_small z : (0 <= z <= maxInt)%Z -> wrapInt z = z.
Proof.
  unfold wrapInt, maxInt.
  change (2 ^ 63)%Z with 9223372036854775808%Z.
  change (2 ^ 64)%Z with 18446744073709551616%Z.
  intros H. rewrite Z.mod_small; lia.
Qed.

Lemma len_nonneg s : (0 <= len s)%Z.
Proof. unfold len. lia. Qed.

(** C8.  The size estimate of [QueryTuples] is the sum of the lengths of the
    resource type, the optional resource id and the optional resource
    relation, as long as that sum is a Go [int] (three strings held in memory
    cannot be longer); and it depends on nothing but these three lengths:
    not on the contents of the strings, the revision or the datastore. *)
Theorem QueryTuples_size_estimate pgd filter revision :
  (len (datastore.ResourceType filter) + len (datastore.OptionalResourceID filter)
   + len (datastore.OptionalResourceRelation filter) <= maxInt)%Z ->
  common.InitialQuerySizeEstimate (postgres.QueryTuples liveDeletedTxnID pgd filter revision)
  = (len (datastore.ResourceType filter) + len (datastore.OptionalResourceID filter)
     + len (datastore.OptionalResourceRelation filter))%Z
  ∧ (forall liveDeletedTxnID' pgd' filter' revision',
       len (datastore.ResourceType filter') = len (datastore.ResourceType filter) ->
       len (datastore.OptionalResourceID filter')
       = len (datastore.OptionalResourceID filter) ->
       len (datastore.OptionalResourceRelation filter')
       = len (datastore.OptionalResourceRelation filter) ->
       common.InitialQuerySizeEstimate
         (postgres.QueryTuples liveDeletedTxnID' pgd' filter' revision')
       = common.InitialQuerySizeEstimate
           (postgres.QueryTuples liveDeletedTxnID pgd filter revision)).
Proof.
  intros Hsum.
  assert (Hest : forall l p f rv,
            common.InitialQuerySizeEstimate (postgres.QueryTuples l p f rv)
            = intAdd (intAdd (len (datastore.ResourceType f))
                             (len (datastore.OptionalResourceID f)))
                     (len (datastore.OptionalResourceRelation f))).
  { intros l p f rv. unfold postgres.QueryTuples.
    destruct (decide (datastore.OptionalResourceID f ≠ ""));
      destruct (decide (datastore.OptionalResourceRelation f ≠ "")); reflexivity. }
  split.
  - rewrite Hest. unfold intAdd.
    pose proof (len_nonneg (datastore.ResourceType filter)).
    pose proof (len_nonneg (datastore.OptionalResourceID filter)).
    pose proof (len_nonneg (datastore.OptionalResourceRelation filter)).
    assert (Hmax : maxInt = 9223372036854775807%Z) by reflexivity.
    rewrite Hmax in Hsum.
    rewrite (wrapInt_small (len _ + len _)) by (rewrite Hmax; lia).
    apply wrapInt_small. rewrite Hmax. lia.
  - intros l' p' f' rv' H1 H2 H3. rewrite !Hest. by rewrite H1, H2, H3.
Qed.

End TupleQueries.

Lemma QueryTuples_size_estimate_witness :
  common.InitialQuerySizeEstimate
    (postgres.QueryTuples 0 narrowPgd sampleFilter (datastore.revisionFromTransaction 4))
  = 12%Z.
Proof.
  destruct (QueryTuples_size_estimate 0 narrowPgd sampleFilter
              (datastore.revisionFromTransaction 4)) as [Hsum _].
  - vm_compute. discriminate.
  - rewrite Hsum. reflexivity.
Defined.

(** * The schema service *)

Section SchemaService.

Context {D : Type} `{!datastore.Datastore D} `{!v1alpha1.Collaborators D}.

Implicit Types (ds : D) (nsdef : v0.NamespaceDefinition)
  (nsdefs todo pre post : list v0.NamespaceDefinition).

Lemma validateDefinition_noWrites ds nsm nsdefs nsdef :
  Forall (fun c => isWrite c = false) (v1alpha1.validateDefinition ds nsm nsdefs nsdef).1.
Proof.
  unfold v1alpha1.validateDefinition.
  destruct (v1alpha1.BuildNamespaceTypeSystemWithFallback _ _ _ _) as [err|ts]; simpl.
  - by repeat constructor.
  - destruct (v1alpha1.Validate ts ds); simpl; by repeat constructor.
Qed.

Lemma validateDefinition_passes ds nsm nsdefs nsdef :
  passesChecks ds nsm nsdefs nsdef ↔
  (v1alpha1.validateDefinition ds nsm nsdefs nsdef).2 = None.
Proof.
  unfold passesChecks, v1alpha1.validateDefinition.
  destruct (v1alpha1.BuildNamespaceTypeSystemWithFallback _ _ _ _) as [err|ts]; simpl.
  - split; [by intros (? & ? & _)|done].
  - destruct (v1alpha1.Validate ts ds) eqn:Ev; simpl.
    + split; [|done]. intros (ts' & [= <-] & Hv & _). congruence.
    + split; [by intros (ts' & [= <-] & _ & ?)|eauto].
Qed.

Lemma validateDefinition_fails ds nsm nsdefs nsdef err :
  failsCheck ds nsm nsdefs nsdef err ↔
  (v1alpha1.validateDefinition ds nsm nsdefs nsdef).2 = Some err.
Proof.
  unfold failsCheck, v1alpha1.validateDefinition.
  destruct (v1alpha1.BuildNamespaceTypeSystemWithFallback _ _ _ _) as [err'|ts]; simpl.
  - split; [|intros [= ->]; auto].
    intros [[= ->]|[(? & ? & _)|(? & ? & _)]]; done.
  - destruct (v1alpha1.Validate ts ds) eqn:Ev; simpl.
    + split; [|intros [= ->]; eauto].
      intros [?|[(ts' & [= <-] & Hv)|(ts' & [= <-] & Hv & _)]]; congruence.
    + split; [|intros ?; eauto 10].
      intros [?|[(ts' & [= <-] & Hv)|(ts' & [= <-] & _ & ?)]]; congruence.
Qed.

Lemma validateDefinitions_noWrites ds nsm nsdefs todo :
  Forall (fun c => isWrite c = false) (v1alpha1.validateDefinitions ds nsm nsdefs todo).1.
Proof.
  induction todo as [|nsdef todo IH]; simpl; [constructor|].
  pose proof (validateDefinition_noWrites ds nsm nsdefs nsdef) as Hone.
  destruct (v1alpha1.validateDefinition ds nsm nsdefs nsdef) as [calls [err|]]; simpl in *;
    [done|].
  destruct (v1alpha1.validateDefinitions ds nsm nsdefs todo) as [calls' r]; simpl in *.
  by apply Forall_app.
Qed.

Lemma validateDefinitions_first_failure ds nsm nsdefs pre nsdef post err :
  Forall (passesChecks ds nsm nsdefs) pre ->
  failsCheck ds nsm nsdefs nsdef err ->
  (v1alpha1.validateDefinitions ds nsm nsdefs (pre ++ nsdef :: post)).2
  = Some (v1alpha1.rewriteError err).
Proof.
  intros Hpre Hfail. induction Hpre as [|d pre Hd Hpre IH]; simpl.
  - apply validateDefinition_fails in Hfail.
    destruct (v1alpha1.validateDefinition ds nsm nsdefs nsdef) as [calls o]; simpl in *.
    by subst.
  - apply validateDefinition_passes in Hd.
    destruct (v1alpha1.validateDefinition ds nsm nsdefs d) as [calls o]; simpl in *. subst.
    by destruct (v1alpha1.validateDefinitions ds nsm nsdefs (pre ++ nsdef :: post)).
Qed.

Lemma validateDefinitions_all_pass ds nsm nsdefs todo :
  Forall (passesChecks ds nsm nsdefs) todo ↔
  (v1alpha1.validateDefinitions ds nsm nsdefs todo).2 = None.
Proof.
  induction todo as [|nsdef todo IH]; simpl; [by split; [|constructor]|].
  rewrite Forall_cons, validateDefinition_passes, IH.
  destruct (v1alpha1.validateDefinition ds nsm nsdefs nsdef) as [calls [err|]]; simpl.
  - split; [by intros []|done].
  - destruct (v1alpha1.validateDefinitions ds nsm nsdefs todo) as [calls' r]; simpl.
    tauto.
Qed.

Lemma writeDefinitions_onlyWrites todo : forall ds names,
  Forall (fun c => isWrite c = true) (v1alpha1.writeDefinitions ds names todo).1.2.
Proof.
  induction todo as [|nsdef todo IH]; intros ds names; simpl; [constructor|].
  destruct (datastore.WriteNamespace ds nsdef) as [ds1 [err|rev]]; simpl.
  - by repeat constructor.
  - specialize (IH ds1 (names ++ [v0.Name nsdef])).
    destruct (v1alpha1.writeDefinitions ds1 _ todo) as [[ds2 calls] r]; simpl in *.
    by constructor.
Qed.

Lemma writeDefinitions_success todo : forall ds names,
  writesSucceed ds todo ->
  v1alpha1.writeDefinitions ds names todo
  = (afterWrites ds todo,
     (fun nsdef => v1alpha1.CallWriteNamespace (v0.Name nsdef)) <$> todo,
     inr (names ++ (v0.Name <$> todo))).
Proof.
  induction todo as [|nsdef todo IH]; intros ds names; simpl.
  - by rewrite app_nil_r.
  - destruct (datastore.WriteNamespace ds nsdef) as [ds1 [err|rev]] eqn:E; [done|].
    intros Hrest. rewrite (IH _ _ Hrest). unfold afterWrites. simpl.
    rewrite ?E. simpl. by rewrite <- app_assoc.
Qed.

Lemma writeDefinitions_failure pre : forall ds names nsdef post ds1 err,
  writesSucceed ds pre ->
  datastore.WriteNamespace (afterWrites ds pre) nsdef = (ds1, inl err) ->
  v1alpha1.writeDefinitions ds names (pre ++ nsdef :: post)
  = (ds1,
     (fun nsdef => v1alpha1.CallWriteNamespace (v0.Name nsdef)) <$> (pre ++ [nsdef]),
     inl (v1alpha1.rewriteError err)).
Proof.
  induction pre as [|d pre IH]; intros ds names nsdef post ds1 err; simpl.
  - intros _ Hw. unfold afterWrites in Hw. simpl in Hw. by rewrite Hw.
  - destruct (datastore.WriteNamespace ds d) as [ds2 [e|rev]] eqn:E; [done|].
    intros Hrest Hw. unfold afterWrites in Hw. simpl in Hw. rewrite ?E in Hw. simpl in Hw.
    by rewrite (IH _ _ _ _ _ _ Hrest Hw).
Qed.

Lemma filter_isWrite_app (checks writes : list v1alpha1.call) :
  Forall (fun c => isWrite c = false) checks ->
  Forall (fun c => isWrite c = true) writes ->
  List.filter isWrite (checks ++ writes) = writes.
Proof.
  intros Hc Hw. rewrite List.filter_app.
  assert (List.filter isWrite checks = []) as ->.
  { induction Hc as [|c checks Hc _ IH]; simpl; [done|]. by rewrite Hc. }
  simpl. induction Hw as [|c writes Hc' _ IH]; simpl; [done|]. by rewrite Hc', IH.
Qed.

(** C3.  The checks come before the writes.  The calls of [WriteSchema] are
    its checks (manager, compilation, and for each definition its type
    system, validation and check of the existing relationships) followed by
    its writes, never interleaved.  When the compilation fails, or a
    definition fails one of its three checks, [WriteSchema] returns that
    error, rewritten by [rewriteError], no [WriteNamespace] call is made and
    the datastore is left as it was. *)
Theorem WriteSchema_checks_before_writes ss ds req ds' calls result :
  v1alpha1.WriteSchema ss ds req = (ds', calls, result) ->
  (exists checks writes,
     calls = checks ++ writes
     ∧ Forall (fun c => isWrite c = false) checks
     ∧ Forall (fun c => isWrite c = true) writes)
  ∧ (forall nsm err,
       v1alpha1.NewCachingNamespaceManager ds = inr nsm ->
       compiledSchema ss req = inl err ->
       result = inl (v1alpha1.rewriteError err)
       ∧ ds' = ds ∧ Forall (fun c => isWrite c = false) calls)
  ∧ (forall nsm nsdefs pre nsdef post err,
       v1alpha1.NewCachingNamespaceManager ds = inr nsm ->
       compiledSchema ss req = inr nsdefs ->
       nsdefs = pre ++ nsdef :: post ->
       Forall (passesChecks ds nsm nsdefs) pre ->
       failsCheck ds nsm nsdefs nsdef err ->
       result = inl (v1alpha1.rewriteError err)
       ∧ ds' = ds ∧ Forall (fun c => isWrite c = false) calls)
  ∧ (forall nsm nsdefs,
       v1alpha1.NewCachingNamespaceManager ds = inr nsm ->
       compiledSchema ss req = inr nsdefs ->
       ¬ Forall (passesChecks ds nsm nsdefs) nsdefs ->
       (exists err, result = inl err)
       ∧ ds' = ds ∧ Forall (fun c => isWrite c = false) calls).
Proof.
  unfold v1alpha1.WriteSchema, compiledSchema.
  destruct (v1alpha1.NewCachingNamespaceManager ds) as [e0|nsm].
  { intros [= <- <- <-]. split; [|by repeat split].
    exists [v1alpha1.CallNewCachingNamespaceManager], [].
    by repeat constructor. }
  destruct (v1alpha1.Compile _ _) as [e1|nsdefs].
  { intros [= <- <- <-]. split.
    - exists [v1alpha1.CallNewCachingNamespaceManager; v1alpha1.CallCompile], [].
      by repeat constructor.
    - split; [|by split].
      intros nsm' err _ [= <-]. by repeat constructor. }
  pose proof (validateDefinitions_noWrites ds nsm nsdefs nsdefs) as Hchecks.
  pose proof (validateDefinitions_all_pass ds nsm nsdefs nsdefs) as Hpass.
  destruct (v1alpha1.validateDefinitions ds nsm nsdefs nsdefs) as [checks [e2|]] eqn:Hval;
    simpl in *.
  { intros [= <- <- <-].
    assert (Hno : Forall (fun c => isWrite c = false)
                    (v1alpha1.CallNewCachingNamespaceManager
                       :: v1alpha1.CallCompile :: checks)) by (by repeat constructor).
    split; [|split; [done|split]].
    - exists (v1alpha1.CallNewCachingNamespaceManager :: v1alpha1.CallCompile :: checks), [].
      rewrite app_nil_r. by repeat constructor.
    - intros nsm' nsdefs' pre nsdef post err [= <-] [= <-] Hsplit Hpre Hfail.
      pose proof (validateDefinitions_first_failure ds nsm nsdefs pre nsdef post err
                    Hpre Hfail) as Hfirst.
      rewrite <- Hsplit, Hval in Hfirst. simpl in Hfirst. injection Hfirst as ->. done.
    - intros nsm' nsdefs' [= <-] [= <-] _. eauto. }
  pose proof (writeDefinitions_onlyWrites nsdefs ds []) as Hwrites.
  assert (Hall : Forall (passesChecks ds nsm nsdefs) nsdefs) by (by apply Hpass).
  destruct (v1alpha1.writeDefinitions ds [] nsdefs) as [[ds1 writes] r]; simpl in *.
  intros Hres.
  assert (calls = (v1alpha1.CallNewCachingNamespaceManager :: v1alpha1.CallCompile :: checks)
                  ++ writes) as ->.
  { destruct r; by injection Hres as <- <- <-. }
  split; [|split; [done|split]].
  - eexists _, _. split; [done|]. split; [by repeat constructor|done].
  - intros nsm' nsdefs' pre nsdef post err [= <-] [= <-] Hsplit Hpre Hfail.
    pose proof (validateDefinitions_first_failure ds nsm nsdefs pre nsdef post err
                  Hpre Hfail) as Hfirst.
    rewrite <- Hsplit, Hval in Hfirst. done.
  - by intros nsm' nsdefs' [= <-] [= <-] Hnot.
Qed.

(** C2, as amended.  [WriteSchema] writes the definitions of a checked batch
    one at a time, each by its own [WriteNamespace] call, in the order of the
    batch.  When every write succeeds, the datastore holds the writes of the
    whole batch and the names are returned in order.  When a write fails, the
    error is returned, no later definition is written, and the datastore is
    left as the earlier writes of the batch (and the failed attempt) made
    it. *)
Theorem WriteSchema_writes_one_by_one ss ds req nsm nsdefs :
  v1alpha1.NewCachingNamespaceManager ds = inr nsm ->
  compiledSchema ss req = inr nsdefs ->
  Forall (passesChecks ds nsm nsdefs) nsdefs ->
  (writesSucceed ds nsdefs ->
   exists calls,
     v1alpha1.WriteSchema ss ds req
     = (afterWrites ds nsdefs, calls,
        inr {| v1alpha1.ObjectDefinitionsNames := v0.Name <$> nsdefs |})
     ∧ List.filter isWrite calls
       = (fun nsdef => v1alpha1.CallWriteNamespace (v0.Name nsdef)) <$> nsdefs)
  ∧ (forall pre nsdef post ds1 err,
       nsdefs = pre ++ nsdef :: post ->
       writesSucceed ds pre ->
       datastore.WriteNamespace (afterWrites ds pre) nsdef = (ds1, inl err) ->
       exists calls,
         v1alpha1.WriteSchema ss ds req = (ds1, calls, inl (v1alpha1.rewriteError err))
         ∧ List.filter isWrite calls
           = (fun nsdef => v1alpha1.CallWriteNamespace (v0.Name nsdef))
               <$> (pre ++ [nsdef])).
Proof.
  unfold compiledSchema. intros Hnsm Hcompile Hall.
  pose proof (validateDefinitions_noWrites ds nsm nsdefs nsdefs) as Hchecks.
  apply validateDefinitions_all_pass in Hall.
  unfold v1alpha1.WriteSchema. rewrite Hnsm, Hcompile.
  destruct (v1alpha1.validateDefinitions ds nsm nsdefs nsdefs) as [checks o]; simpl in *.
  subst o.
  assert (Hfilter : forall writes,
            Forall (fun c => isWrite c = true) writes ->
            List.filter isWrite
              ([v1alpha1.CallNewCachingNamespaceManager; v1alpha1.CallCompile]
                 ++ checks ++ writes) = writes).
  { intros writes Hw. rewrite app_assoc. apply filter_isWrite_app; [|done].
    apply Forall_app. split; [by repeat constructor|done]. }
  split.
  - intros Hok. rewrite (writeDefinitions_success _ _ _ Hok). simpl.
    eexists. split; [done|].
    apply (Hfilter ((fun nsdef => v1alpha1.CallWriteNamespace (v0.Name nsdef)) <$> nsdefs)).
    apply Forall_fmap, Forall_forall. done.
  - intros pre nsdef post ds1 err -> Hpre Hw.
    rewrite (writeDefinitions_failure _ _ _ _ _ _ _ Hpre Hw).
    eexists. split; [done|].
    apply (Hfilter ((fun nsdef => v1alpha1.CallWriteNamespace (v0.Name nsdef))
                      <$> (pre ++ [nsdef]))).
    apply Forall_fmap, Forall_forall. done.
Qed.

End SchemaService.

Lemma WriteSchema_checks_before_writes_witness :
  exists calls,
    v1alpha1.WriteSchema sampleServer storeWithViewers schemaWithoutViewer
    = (storeWithViewers, calls, inl (ErrOther "schema invariant violation"))
    ∧ Forall (fun c => isWrite c = false) calls.
Proof.
  destruct (v1alpha1.WriteSchema sampleServer storeWithViewers schemaWithoutViewer)
    as [[ds' calls] result] eqn:Hrun.
  destruct (WriteSchema_checks_before_writes _ _ _ _ _ _ Hrun) as (_ & _ & Hfail & _).
  destruct (Hfail tt [userDef; documentDefNoViewer] [userDef] documentDefNoViewer []
              (ErrOther "schema invariant violation"))
    as (-> & -> & Hcalls).
  - reflexivity.
  - reflexivity.
  - reflexivity.
  - repeat constructor. by exists tt.
  - right. right. by exists tt.
  - by exists calls.
Defined.

Lemma WriteSchema_writes_one_by_one_witness :
  exists calls,
    v1alpha1.WriteSchema sampleServer storeFailingAtSecondWrite schemaWithViewer
    = ({| storedNamespaces := [userDef]; liveRelations := []; writesUntilFailure := 0 |},
       calls, inl (ErrOther "connection lost"))
    ∧ List.filter isWrite calls
      = [v1alpha1.CallWriteNamespace "user"; v1alpha1.CallWriteNamespace "document"].
Proof.
  destruct (@WriteSchema_writes_one_by_one sampleStore sampleStore_Datastore
              sampleCollaborators sampleServer storeFailingAtSecondWrite
              schemaWithViewer tt [userDef; documentDef]) as [_ Hfail].
  - reflexivity.
  - reflexivity.
  - repeat constructor; by exists tt.
  - apply (Hfail [userDef] documentDef []
             {| storedNamespaces := [userDef]; liveRelations := [];
                writesUntilFailure := 0 |}
             (ErrOther "connection lost")).
    + reflexivity.
    + exact I.
    + reflexivity.
Defined.

(** The claim C2 as it is stated fails: on a store that loses its connection
    after one write, [WriteSchema] returns the error of the second write and
    leaves the first definition of the batch stored without the second. *)
Lemma WriteSchema_not_atomic :
  compiledSchema (D := sampleStore) sampleServer schemaWithViewer
    = inr [userDef; documentDef]
  ∧ (v1alpha1.WriteSchema sampleServer storeFailingAtSecondWrite schemaWithViewer).2
    = inl (ErrOther "connection lost")
  ∧ storedNamespaces
      (v1alpha1.WriteSchema sampleServer storeFailingAtSecondWrite schemaWithViewer).1.1
    = [userDef]
  ∧ ¬ (Forall (fun nsdef =>
                 nsdef ∈ storedNamespaces
                   (v1alpha1.WriteSchema sampleServer storeFailingAtSecondWrite
                      schemaWithViewer).1.1)
              [userDef; documentDef]
       ∨ Forall (fun nsdef =>
                   nsdef ∉ storedNamespaces
                     (v1alpha1.WriteSchema sampleServer storeFailingAtSecondWrite
                        schemaWithViewer).1.1)
                [userDef; documentDef]).
Proof.
  split; [reflexivity|]. split; [reflexivity|]. split; [reflexivity|].
  change (storedNamespaces
            (v1alpha1.WriteSchema sampleServer storeFailingAtSecondWrite
               schemaWithViewer).1.1) with [userDef].
  intros [Hall|Hnone].
  - apply Forall_cons in Hall as [_ Hall]. apply Forall_cons in Hall as [Hdoc _].
    apply list_elem_of_singleton in Hdoc. discriminate Hdoc.
  - apply Forall_cons in Hnone as [Huser _]. apply Huser. apply list_elem_of_singleton.
    reflexivity.
Qed.

(** * Further properties of the change feed *)

Section ChangeFeedMore.

Implicit Types (changes : gmap N postgres.changeRecord) (rec : postgres.changeRecord).

(** X1.  [addChange] is local: it leaves the records of the other revisions
    as they are, and in the record of its revision it leaves the entries of
    the other canonical strings as they are, in both maps. *)
Theorem addChange_frame changes revision tpl op changes' :
  postgres.addChange changes revision tpl op = Some changes' ->
  (forall r, r ≠ revision -> changes' !! r = changes !! r)
  ∧ (forall k, k ≠ tuple.String tpl ->
       postgres.tupleTouches (recordAt changes' revision) !! k
       = postgres.tupleTouches (recordAt changes revision) !! k
       ∧ postgres.tupleDeletes (recordAt changes' revision) !! k
         = postgres.tupleDeletes (recordAt changes revision) !! k).
Proof.
  rewrite addChange_updateRecord.
  destruct (updateRecord op tpl (recordAt changes revision)) as [rec'|] eqn:E; simpl; [|done].
  intros [= <-]. split.
  - intros r Hr. by rewrite lookup_insert_ne.
  - intros k Hk. rewrite recordAt_insert_eq.
    destruct op; simpl in E; try done.
    + injection E as <-. simpl. by rewrite lookup_insert_ne, lookup_delete_ne.
    + destruct (postgres.tupleTouches (recordAt changes revision) !! tuple.String tpl);
        injection E as <-; [done|]. simpl. by rewrite lookup_insert_ne.
Qed.

Lemma addChange_frame_witness :
  exists changes',
    postgres.addChange {[ 7%N := {| postgres.tupleTouches := {[ "k" := otherTuple ]};
                                   postgres.tupleDeletes := ∅ |} ]}
      7 sampleTuple v0.RelationTupleUpdate_TOUCH = Some changes'
    ∧ postgres.tupleTouches (recordAt changes' 7) !! "k" = Some otherTuple.
Proof.
  destruct (postgres.addChange _ 7 sampleTuple v0.RelationTupleUpdate_TOUCH)
    as [changes'|] eqn:Hadd; [|vm_compute in Hadd; discriminate Hadd].
  exists changes'. split; [reflexivity|].
  destruct (addChange_frame _ _ _ _ _ Hadd) as [_ Hkeys].
  destruct (Hkeys "k") as [Ht _]; [discriminate|].
  rewrite Ht. reflexivity.
Defined.

(** X2.  A TOUCH absorbs a DELETE of the same tuple at the same revision, in
    either order: staging the two leaves the map that the TOUCH alone
    leaves. *)
Theorem touch_absorbs_delete changes revision tpl :
  (changes1 ← postgres.addChange changes revision tpl v0.RelationTupleUpdate_TOUCH;
   postgres.addChange changes1 revision tpl v0.RelationTupleUpdate_DELETE)
  = postgres.addChange changes revision tpl v0.RelationTupleUpdate_TOUCH
  ∧ (changes1 ← postgres.addChange changes revision tpl v0.RelationTupleUpdate_DELETE;
     postgres.addChange changes1 revision tpl v0.RelationTupleUpdate_TOUCH)
    = postgres.addChange changes revision tpl v0.RelationTupleUpdate_TOUCH.
Proof.
  rewrite !addChange_updateRecord. split.
  - cbn -[postgres.addChange]. rewrite addChange_updateRecord, recordAt_insert_eq. simpl.
    rewrite lookup_insert_eq. simpl. by rewrite insert_insert_eq.
  - cbn -[postgres.addChange].
    destruct (postgres.tupleTouches (recordAt changes revision) !! tuple.String tpl) eqn:E;
      cbn -[postgres.addChange]; rewrite addChange_updateRecord, recordAt_insert_eq; simpl;
      rewrite insert_insert_eq; [done|].
    by rewrite delete_insert_eq.
Qed.

(** *** Invariants of the staged map *)

Lemma updateRecord_disjoint op t rec rec' :
  recordDisjoint rec -> updateRecord op t rec = Some rec' -> recordDisjoint rec'.
Proof.
  unfold recordDisjoint. intros Hd. destruct op; simpl; try done.
  - intros [= <-] k. simpl. rewrite lookup_insert, lookup_delete.
    case_decide; [done|]. apply Hd.
  - destruct (postgres.tupleTouches rec !! tuple.String t) eqn:E; intros [= <-]; [done|].
    intros k Hk. simpl in *. rewrite lookup_insert_ne; [by apply Hd|].
    intros <-. rewrite E in Hk. by destruct Hk.
Qed.

Lemma updateRecord_nonempty op t rec rec' :
  updateRecord op t rec = Some rec' ->
  recordNonEmpty rec'.
Proof.
  unfold recordNonEmpty. destruct op; simpl; try done.
  - intros [= <-]. left. simpl. apply insert_non_empty.
  - destruct (postgres.tupleTouches rec !! tuple.String t) eqn:E; intros [= <-].
    + left. intros Hempty. rewrite Hempty, lookup_empty in E. done.
    + right. simpl. apply insert_non_empty.
Qed.

Lemma applyEvent_wellFormed changes e changes' :
  stagedWellFormed changes -> applyEvent changes e = Some changes' ->
  stagedWellFormed changes'.
Proof.
  intros Hwf. destruct e as [r t op]. unfold applyEvent; simpl.
  rewrite addChange_updateRecord.
  destruct (updateRecord op t (recordAt changes r)) as [rec'|] eqn:E; simpl; [|done].
  intros [= <-] r' rec0. rewrite lookup_insert. case_decide; [|apply Hwf].
  intros [= <-].
  assert (recordKeyed (recordAt changes r) ∧ recordDisjoint (recordAt changes r)) as [Hk Hd].
  { unfold recordAt. destruct (changes !! r) as [rec|] eqn:E'.
    - destruct (Hwf _ _ E') as (? & ? & _). done.
    - split; [split|]; simpl; intros ?; intros; by rewrite ?lookup_empty in *. }
  split; [by eapply updateRecord_keyed|].
  split; [by eapply updateRecord_disjoint|by eapply updateRecord_nonempty].
Qed.

Lemma applyEvents_wellFormed evs : forall changes changes',
  stagedWellFormed changes -> applyEvents changes evs = Some changes' ->
  stagedWellFormed changes'.
Proof.
  induction evs as [|e evs IH]; simpl; intros changes changes' Hwf.
  - by intros [= <-].
  - destruct (applyEvent changes e) as [c1|] eqn:E; simpl; [|done].
    apply IH. by eapply applyEvent_wellFormed.
Qed.

Lemma stagedWellFormed_empty : stagedWellFormed ∅.
Proof. intros r rec. by rewrite lookup_empty. Qed.

(** X3.  Whatever rows a poll scans, every record of the map it stages is
    filed under the canonical strings of its tuples, has no canonical string
    both among its touches and among its deletes, and holds at least one
    entry. *)
Theorem stageRows_wellFormed afterRevision newRevision rows staged :
  postgres.stageRows afterRevision newRevision ∅ rows = Some staged ->
  forall revision rec, staged !! revision = Some rec ->
    recordKeyed rec ∧ recordDisjoint rec ∧ recordNonEmpty rec.
Proof.
  rewrite stageRows_events. intros Hrun.
  exact (applyEvents_wellFormed _ _ _ stagedWellFormed_empty Hrun).
Qed.

Lemma stageRows_wellFormed_witness :
  exists staged rec,
    postgres.stageRows 0 4 ∅ (postgres.tableRows (sampleDb 0)) = Some staged
    ∧ staged !! 2%N = Some rec
    ∧ recordKeyed rec ∧ recordDisjoint rec ∧ recordNonEmpty rec.
Proof.
  destruct (postgres.stageRows 0 4 ∅ (postgres.tableRows (sampleDb 0)))
    as [staged|] eqn:Hrun; [|vm_compute in Hrun; discriminate Hrun].
  destruct (staged !! 2%N) as [rec|] eqn:Hrec.
  - exists staged, rec. split; [reflexivity|]. split; [exact Hrec|].
    exact (stageRows_wellFormed _ _ _ _ Hrun _ _ Hrec).
  - vm_compute in Hrun. injection Hrun as <-. vm_compute in Hrec. discriminate Hrec.
Defined.

(** *** The records a poll returns *)

Lemma collectChanges_elem (m : gmap N postgres.changeRecord) rc :
  rc ∈ postgres.collectChanges m ->
  exists revision rec, m !! revision = Some rec ∧ rc = postgres.revisionChange revision rec.
Proof.
  rewrite collectChanges_fmap. intros Hin.
  apply list_elem_of_fmap in Hin as (revision & -> & Hin).
  rewrite sort_Slice_perm in Hin.
  apply list_elem_of_fmap in Hin as ([k rec] & -> & Hin).
  apply elem_of_map_to_list in Hin. simpl. exists k, rec. split; [done|].
  unfold recordAt. by rewrite Hin.
Qed.

Lemma keyed_map_count (m : gmap string v0.RelationTuple)
    (op : v0.RelationTupleUpdate_Operation) (k : string) :
  (forall k' t, m !! k' = Some t -> tuple.String t = k') ->
  length (filter (fun u => tuple.String (v0.Tuple u) = k)
            ((fun kv : string * v0.RelationTuple =>
                {| v0.Operation := op; v0.Tuple := kv.2 |}) <$> map_to_list m))
  = match m !! k with Some _ => 1 | None => 0 end.
Proof.
  induction m as [|k0 t m Hfresh IH] using map_ind; intros Hkeyed.
  - rewrite map_to_list_empty. simpl. by rewrite lookup_empty.
  - rewrite map_to_list_insert by done. rewrite fmap_cons, filter_cons. simpl.
    assert (Hk : tuple.String t = k0) by (apply Hkeyed; by rewrite lookup_insert_eq).
    assert (Hm : forall k1 t1, m !! k1 = Some t1 -> tuple.String t1 = k1).
    { intros k1 t1 H1. apply Hkeyed. rewrite lookup_insert_ne; [done|]. congruence. }
    specialize (IH Hm). rewrite lookup_insert.
    destruct (decide (k0 = k)) as [->|Hne].
    + rewrite decide_True by done. simpl. by rewrite IH, Hfresh.
    + rewrite decide_False by congruence. done.
Qed.

Lemma revisionChange_key_count revision rec k :
  recordKeyed rec ->
  length (updatesWithKey k (postgres.revisionChange revision rec))
  = match postgres.tupleTouches rec !! k with Some _ => 1 | None => 0 end
    + match postgres.tupleDeletes rec !! k with Some _ => 1 | None => 0 end.
Proof.
  intros [Hkt Hkd]. unfold updatesWithKey, postgres.revisionChange. simpl.
  by rewrite filter_app, length_app, !keyed_map_count.
Qed.

(** X4.  One update per revision and tuple: in every record a poll returns,
    at most one update, TOUCH or DELETE, carries a given canonical tuple
    string. *)
Theorem loadChanges_one_update_per_tuple db afterRevision stagedUpdates newRevision err rc k :
  postgres.loadChanges db afterRevision = Some (stagedUpdates, newRevision, err) ->
  rc ∈ stagedUpdates ->
  length (updatesWithKey k rc) <= 1.
Proof.
  intros Hload Hrc. destruct err as [e|].
  { apply loadChanges_failed in Hload as ->. by apply elem_of_nil in Hrc. }
  apply loadChanges_ok in Hload as (_ & staged & Hrun & ->).
  apply collectChanges_elem in Hrc as (revision & rec & Hrec & ->).
  destruct (applyEvents_wellFormed _ _ _ stagedWellFormed_empty Hrun _ _ Hrec)
    as (Hkeyed & Hdisjoint & _).
  rewrite revisionChange_key_count by done.
  destruct (postgres.tupleTouches rec !! k) eqn:Et;
    [|destruct (postgres.tupleDeletes rec !! k); simpl; lia].
  rewrite (Hdisjoint k) by eauto. simpl. lia.
Qed.

(** X5.  A poll returns no empty record: every [RevisionChanges] it returns
    carries at least one update. *)
Theorem loadChanges_no_empty_record db afterRevision stagedUpdates newRevision err rc :
  postgres.loadChanges db afterRevision = Some (stagedUpdates, newRevision, err) ->
  rc ∈ stagedUpdates ->
  datastore.rcChanges rc ≠ [].
Proof.
  intros Hload Hrc. destruct err as [e|].
  { apply loadChanges_failed in Hload as ->. by apply elem_of_nil in Hrc. }
  apply loadChanges_ok in Hload as (_ & staged & Hrun & ->).
  apply collectChanges_elem in Hrc as (revision & rec & Hrec & ->).
  destruct (applyEvents_wellFormed _ _ _ stagedWellFormed_empty Hrun _ _ Hrec)
    as (_ & _ & Hne).
  unfold postgres.revisionChange. simpl. intros Hnil.
  apply app_eq_nil in Hnil as [Ht Hd].
  apply fmap_nil_inv in Ht. apply fmap_nil_inv in Hd.
  apply map_to_list_empty_iff in Ht. apply map_to_list_empty_iff in Hd.
  destruct Hne; done.
Qed.

Lemma loadChanges_one_update_per_tuple_witness :
  exists stagedUpdates rc,
    postgres.loadChanges (sampleDb 0) 0 = Some (stagedUpdates, 4%N, None)
    ∧ rc ∈ stagedUpdates
    ∧ length (updatesWithKey (tuple.String sampleTuple) rc) <= 1.
Proof.
  eexists. eexists. split; [vm_compute; reflexivity|]. split; [apply list_elem_of_here|].
  eapply (loadChanges_one_update_per_tuple (sampleDb 0) 0).
  - vm_compute. reflexivity.
  - apply list_elem_of_here.
Defined.

Lemma loadChanges_no_empty_record_witness :
  exists stagedUpdates rc,
    postgres.loadChanges (sampleDb 0) 0 = Some (stagedUpdates, 4%N, None)
    ∧ rc ∈ stagedUpdates
    ∧ datastore.rcChanges rc ≠ [].
Proof.
  eexists. eexists. split; [vm_compute; reflexivity|]. split; [apply list_elem_of_here|].
  eapply (loadChanges_no_empty_record (sampleDb 0) 0).
  - vm_compute. reflexivity.
  - apply list_elem_of_here.
Defined.

(** *** Where the updates of a poll come from *)

Lemma applyEvent_delete_origin changes e changes' revision k t :
  applyEvent changes e = Some changes' ->
  postgres.tupleDeletes (recordAt changes' revision) !! k = Some t ->
  postgres.tupleDeletes (recordAt changes revision) !! k = Some t
  ∨ e = deleteOf revision t.
Proof.
  destruct e as [r t0 op]. unfold applyEvent; simpl. rewrite addChange_updateRecord.
  destruct (updateRecord op t0 (recordAt changes r)) as [rec'|] eqn:E; simpl; [|done].
  intros [= <-]. destruct (decide (r = revision)) as [->|Hne].
  - rewrite recordAt_insert_eq. destruct op; simpl in E; try done.
    + injection E as <-. simpl. rewrite lookup_delete. case_decide; [done|auto].
    + destruct (postgres.tupleTouches (recordAt changes revision) !! tuple.String t0);
        injection E as <-; [auto|]. simpl. rewrite lookup_insert. case_decide; [|auto].
      intros [= ->]. by right.
  - rewrite recordAt_insert_ne by done. auto.
Qed.

Lemma applyEvents_delete_origin evs : forall changes changes' revision k t,
  applyEvents changes evs = Some changes' ->
  postgres.tupleDeletes (recordAt changes' revision) !! k = Some t ->
  postgres.tupleDeletes (recordAt changes revision) !! k = Some t
  ∨ deleteOf revision t ∈ evs.
Proof.
  induction evs as [|e evs IH]; simpl; intros changes changes' revision k t.
  - intros [= <-]. auto.
  - destruct (applyEvent changes e) as [c1|] eqn:E; simpl; [|done].
    intros Hrun Ht. destruct (IH _ _ _ _ _ Hrun Ht) as [H1|H1]; [|right; set_solver].
    destruct (applyEvent_delete_origin _ _ _ _ _ _ E H1) as [?| ->]; [auto|].
    right. set_solver.
Qed.

(** X6.  A poll invents nothing and emits no CREATE.  Every update of a
    record it returns is a TOUCH of the tuple of a table row created at the
    revision of the record, or a DELETE of the tuple of a table row deleted
    at that revision, and that revision lies in the polled interval. *)
Theorem loadChanges_sound db afterRevision stagedUpdates newRevision err rc u :
  postgres.loadChanges db afterRevision = Some (stagedUpdates, newRevision, err) ->
  rc ∈ stagedUpdates ->
  u ∈ datastore.rcChanges rc ->
  exists r,
    r ∈ postgres.tableRows db
    ∧ rowTuple r = v0.Tuple u
    ∧ inInterval afterRevision newRevision
        (datastore.transactionFromRevision (datastore.rcRevision rc)) = true
    ∧ (v0.Operation u = v0.RelationTupleUpdate_TOUCH
       ∧ createdTxn r = datastore.transactionFromRevision (datastore.rcRevision rc)
       ∨ v0.Operation u = v0.RelationTupleUpdate_DELETE
         ∧ deletedTxn r = datastore.transactionFromRevision (datastore.rcRevision rc)).
Proof.
  intros Hload Hrc Hu. destruct err as [e|].
  { apply loadChanges_failed in Hload as ->. by apply elem_of_nil in Hrc. }
  apply loadChanges_ok in Hload as (-> & staged & Hrun & ->).
  apply collectChanges_elem in Hrc as (revision & rec & Hrec & ->).
  unfold postgres.revisionChange in *. simpl in *.
  apply elem_of_app in Hu as [Hu|Hu];
    apply list_elem_of_fmap in Hu as ([k t] & -> & Hin);
    apply elem_of_map_to_list in Hin; simpl.
  - destruct (applyEvents_touch_origin _ _ _ revision k t Hrun) as [H0|H0].
    + unfold recordAt. by rewrite Hrec.
    + unfold recordAt in H0. by rewrite !lookup_empty in H0.
    + apply pollEvents_touch in H0 as (r & Hr & Ht & Hc & Hi). exists r.
      split; [done|]. split; [done|]. split; [done|]. by left.
  - destruct (applyEvents_delete_origin _ _ _ revision k t Hrun) as [H0|H0].
    + unfold recordAt. by rewrite Hrec.
    + unfold recordAt in H0. by rewrite !lookup_empty in H0.
    + apply pollEvents_delete in H0 as (r & Hr & Ht & Hc & Hi). exists r.
      split; [done|]. split; [done|]. split; [done|]. by right.
Qed.

Lemma loadChanges_sound_witness :
  exists stagedUpdates rc u r,
    postgres.loadChanges (sampleDb 0) 0 = Some (stagedUpdates, 4%N, None)
    ∧ rc ∈ stagedUpdates
    ∧ u ∈ datastore.rcChanges rc
    ∧ r ∈ postgres.tableRows (sampleDb 0)
    ∧ rowTuple r = v0.Tuple u.
Proof.
  eexists. eexists. eexists.
  edestruct (loadChanges_sound (sampleDb 0) 0) as (r & Hr & Ht & _).
  - vm_compute. reflexivity.
  - apply list_elem_of_here.
  - apply list_elem_of_here.
  - exists r. split; [vm_compute; reflexivity|].
    split; [apply list_elem_of_here|]. split; [apply list_elem_of_here|].
    split; [exact Hr|exact Ht].
Defined.

(** X7.  The revisions a poll returns lie in the polled interval: after the
    cursor it was given and at most the transaction it read from
    [loadRevision], which is the cursor it hands back, also when it fails. *)
Theorem loadChanges_interval db afterRevision stagedUpdates newRevision err :
  postgres.loadChanges db afterRevision = Some (stagedUpdates, newRevision, err) ->
  newRevision = (postgres.loadRevision db).1
  ∧ Forall (fun revision => (afterRevision < revision <= newRevision)%N)
           (revisionsOf stagedUpdates).
Proof.
  intros Hload. split; [|by apply loadChanges_revisions in Hload as [_ ?]].
  unfold postgres.loadChanges in Hload.
  destruct (postgres.loadRevision db) as [n [e|]]; simpl; [by injection Hload as _ <- _|].
  destruct (n =? afterRevision)%N; [by injection Hload as _ <- _|].
  destruct (postgres.queryErr db); [by injection Hload as _ <- _|].
  destruct (postgres.rowsErr db); [by injection Hload as _ <- _|].
  destruct (postgres.stageRows _ _ _ _); simpl in Hload; [|done].
  by injection Hload as _ <- _.
Qed.

Lemma loadChanges_interval_witness :
  exists stagedUpdates,
    postgres.loadChanges (laterDb 0) 4 = Some (stagedUpdates, 5%N, None)
    ∧ Forall (fun revision => (4 < revision <= 5)%N) (revisionsOf stagedUpdates).
Proof.
  eexists. split; [vm_compute; reflexivity|].
  eapply (fun H => proj2 (loadChanges_interval (laterDb 0) 4 _ 5 None H)).
  vm_compute. reflexivity.
Defined.

(** *** Every change of a row is reported *)

Lemma touchesKey_touchOf e revision k :
  touchesKey revision k e -> e = touchOf revision (evTuple e) ∧ tuple.String (evTuple e) = k.
Proof. destruct e as [r t op]. unfold touchesKey, touchOf. simpl. by intros (-> & -> & ->). Qed.

Lemma applyEvent_reported changes e changes' revision k :
  touchedAt changes revision k ∨ deletedAt changes revision k ->
  applyEvent changes e = Some changes' ->
  touchedAt changes' revision k ∨ deletedAt changes' revision k.
Proof.
  intros [Ht|Hd] Happ.
  - left. by eapply applyEvent_touched.
  - destruct (decide (touchesKey revision k e)) as [Hyes|Hno].
    + left. apply touchesKey_touchOf in Hyes as [He <-]. rewrite He in Happ.
      by eapply applyEvent_touch.
    + right. by eapply applyEvent_deleted.
Qed.

Lemma applyEvents_reported_preserved evs : forall changes changes' revision k,
  touchedAt changes revision k ∨ deletedAt changes revision k ->
  applyEvents changes evs = Some changes' ->
  touchedAt changes' revision k ∨ deletedAt changes' revision k.
Proof.
  induction evs as [|e evs IH]; simpl; intros changes changes' revision k Hp.
  - by intros [= <-].
  - destruct (applyEvent changes e) as [c1|] eqn:E; simpl; [|done].
    apply IH. by eapply applyEvent_reported.
Qed.

Lemma applyEvents_delete_reported evs : forall changes changes' revision t,
  stagedWellFormed changes ->
  deleteOf revision t ∈ evs ->
  applyEvents changes evs = Some changes' ->
  touchedAt changes' revision (tuple.String t) ∨ deletedAt changes' revision (tuple.String t).
Proof.
  induction evs as [|e evs IH]; simpl; intros changes changes' revision t Hwf Hin.
  - by apply elem_of_nil in Hin.
  - destruct (applyEvent changes e) as [c1|] eqn:E; simpl; [|done].
    apply elem_of_cons in Hin as [<-|Hin].
    + apply (applyEvents_reported_preserved evs c1).
      destruct (postgres.tupleTouches (recordAt changes revision) !! tuple.String t) eqn:Et.
      * left. apply (applyEvent_touched changes (deleteOf revision t)); [|done].
        unfold recordAt in Et. destruct (changes !! revision) as [rec|] eqn:Hrec;
          [|simpl in Et; by rewrite lookup_empty in Et].
        exists rec. split; [done|]. split; [eauto|].
        destruct (Hwf _ _ Hrec) as (_ & Hdis & _). apply Hdis. eauto.
      * right. by eapply applyEvent_delete.
    + apply IH; [|done]. by eapply applyEvent_wellFormed.
Qed.

(** The tuples of the updates of a staged record come from the events of
    the poll, so an update filed under the canonical string of a polled
    tuple carries that tuple when the strings tell the polled tuples
    apart. *)
Lemma revisionChange_key_tuple evs staged revision rec e t u :
  applyEvents ∅ evs = Some staged ->
  staged !! revision = Some rec ->
  keysIdentifyTuples evs ->
  e ∈ evs -> evTuple e = t ->
  u ∈ datastore.rcChanges (postgres.revisionChange revision rec) ->
  tuple.String (v0.Tuple u) = tuple.String t ->
  v0.Tuple u = t.
Proof.
  intros Hrun Hrec Hkeys He <- Hu Hkey.
  unfold postgres.revisionChange in Hu. simpl in Hu.
  apply elem_of_app in Hu as [Hu|Hu];
    apply list_elem_of_fmap in Hu as ([k t'] & -> & Hin);
    apply elem_of_map_to_list in Hin; simpl in *.
  - destruct (applyEvents_touch_origin _ _ _ revision k t' Hrun) as [H0|H0].
    + unfold recordAt. by rewrite Hrec.
    + unfold recordAt in H0. by rewrite !lookup_empty in H0.
    + by apply (keysIdentifyTuples_elem _ (touchOf revision t') e Hkeys).
  - destruct (applyEvents_delete_origin _ _ _ revision k t' Hrun) as [H0|H0].
    + unfold recordAt. by rewrite Hrec.
    + unfold recordAt in H0. by rewrite !lookup_empty in H0.
    + by apply (keysIdentifyTuples_elem _ (deleteOf revision t') e Hkeys).
Qed.

Lemma updatesFor_one_tuple op t rc :
  (forall u, u ∈ datastore.rcChanges rc ->
     tuple.String (v0.Tuple u) = tuple.String t -> v0.Tuple u = t) ->
  length (updatesFor op t rc) = 1 ->
  updatesOfTuple op t rc = [ {| v0.Operation := op; v0.Tuple := t |} ].
Proof.
  intros Hid Hone. apply updatesOfTuple_single.
  destruct (updatesFor op t rc) as [|u [|u' l]] eqn:Hupd; simpl in Hone; try done.
  assert (Hu : u ∈ updatesFor op t rc) by (rewrite Hupd; set_solver).
  unfold updatesFor in Hu. apply list_elem_of_filter in Hu as [[Hop Hkey] Hin].
  specialize (Hid u Hin Hkey). destruct u as [op' t']. simpl in *. by subst.
Qed.

(** X8.  When the canonical strings tell the tuples of a poll apart, the
    poll reports every change of a row that falls in its interval.  A table
    row created in the interval gives, in the one record of its
    [createdTxn], exactly one TOUCH and no DELETE of its tuple; a table row
    deleted in the interval gives, in the one record of its [deletedTxn],
    exactly one update of its tuple: its DELETE, or the TOUCH that
    supersedes it. *)
Theorem loadChanges_reports_row db afterRevision stagedUpdates newRevision r :
  postgres.loadChanges db afterRevision = Some (stagedUpdates, newRevision, None) ->
  keysIdentifyTuples (pollEvents db afterRevision) ->
  r ∈ postgres.tableRows db ->
  (inInterval afterRevision newRevision (createdTxn r) = true ->
   exists rc,
     recordsAt (createdTxn r) stagedUpdates = [rc]
     ∧ updatesOfTuple v0.RelationTupleUpdate_TOUCH (rowTuple r) rc
       = [ {| v0.Operation := v0.RelationTupleUpdate_TOUCH; v0.Tuple := rowTuple r |} ]
     ∧ updatesOfTuple v0.RelationTupleUpdate_DELETE (rowTuple r) rc = [])
  ∧ (inInterval afterRevision newRevision (deletedTxn r) = true ->
     exists rc,
       recordsAt (deletedTxn r) stagedUpdates = [rc]
       ∧ (updatesOfTuple v0.RelationTupleUpdate_DELETE (rowTuple r) rc
          = [ {| v0.Operation := v0.RelationTupleUpdate_DELETE; v0.Tuple := rowTuple r |} ]
          ∧ updatesOfTuple v0.RelationTupleUpdate_TOUCH (rowTuple r) rc = []
          ∨ updatesOfTuple v0.RelationTupleUpdate_TOUCH (rowTuple r) rc
            = [ {| v0.Operation := v0.RelationTupleUpdate_TOUCH; v0.Tuple := rowTuple r |} ]
            ∧ updatesOfTuple v0.RelationTupleUpdate_DELETE (rowTuple r) rc = [])).
Proof.
  intros Hload Hkeys Hrow.
  apply loadChanges_ok in Hload as (-> & staged & Hrun & ->).
  pose proof (applyEvents_wellFormed _ _ _ stagedWellFormed_empty Hrun) as Hwf.
  split.
  - intros Hc.
    assert (Htouch : touchOf (createdTxn r) (rowTuple r) ∈ pollEvents db afterRevision).
    { apply pollEvents_touch. eauto. }
    destruct (applyEvents_touched _ _ _ _ _ Htouch Hrun) as (rec & Hrec & Ht & Hd).
    exists (postgres.revisionChange (createdTxn r) rec).
    split; [by apply collectChanges_recordsAt|].
    destruct (revisionChange_counts (createdTxn r) rec (rowTuple r)) as [Hone Hnone];
      [by destruct (Hwf _ _ Hrec)|done|done|].
    split; [|by apply updatesOfTuple_nil].
    apply updatesFor_one_tuple; [|done]. intros u.
    by apply (revisionChange_key_tuple _ _ _ _ _ _ _ Hrun Hrec Hkeys Htouch).
  - intros Hd.
    assert (Hdelete : deleteOf (deletedTxn r) (rowTuple r) ∈ pollEvents db afterRevision).
    { apply pollEvents_delete. eauto. }
    destruct (applyEvents_delete_reported _ _ _ _ _ stagedWellFormed_empty Hdelete Hrun)
      as [(rec & Hrec & Ht & Hdel)|(rec & Hrec & Ht & Hdel)];
      exists (postgres.revisionChange (deletedTxn r) rec);
      (split; [by apply collectChanges_recordsAt|]).
    + right.
      destruct (revisionChange_counts (deletedTxn r) rec (rowTuple r)) as [Hone Hnone];
        [by destruct (Hwf _ _ Hrec)|done|done|].
      split; [|by apply updatesOfTuple_nil].
      apply updatesFor_one_tuple; [|done]. intros u.
      by apply (revisionChange_key_tuple _ _ _ _ _ _ _ Hrun Hrec Hkeys Hdelete).
    + left.
      destruct (revisionChange_counts_deleted (deletedTxn r) rec (rowTuple r))
        as [Hone Hnone]; [by destruct (Hwf _ _ Hrec)|done|done|].
      split; [|by apply updatesOfTuple_nil].
      apply updatesFor_one_tuple; [|done]. intros u.
      by apply (revisionChange_key_tuple _ _ _ _ _ _ _ Hrun Hrec Hkeys Hdelete).
Qed.

Lemma loadChanges_reports_row_witness :
  exists stagedUpdates,
    postgres.loadChanges (sampleDb 0) 0 = Some (stagedUpdates, 4%N, None)
    ∧ (exists rc,
         recordsAt 1 stagedUpdates = [rc]
         ∧ updatesOfTuple v0.RelationTupleUpdate_TOUCH sampleTuple rc
           = [ {| v0.Operation := v0.RelationTupleUpdate_TOUCH; v0.Tuple := sampleTuple |} ])
    ∧ (exists rc,
         recordsAt 2 stagedUpdates = [rc]
         ∧ updatesOfTuple v0.RelationTupleUpdate_DELETE sampleTuple rc = []).
Proof.
  eexists. split; [vm_compute; reflexivity|].
  match goal with |- context [recordsAt 2 ?l] =>
    destruct (loadChanges_reports_row (sampleDb 0) 0 l 4
                {| rowTuple := sampleTuple; createdTxn := 1; deletedTxn := 2 |})
      as [Hcreated Hdeleted]
  end.
  - vm_compute. reflexivity.
  - unfold keysIdentifyTuples. apply (bool_decide_unpack _). vm_compute. exact I.
  - apply list_elem_of_here.
  - split.
    + destruct (Hcreated eq_refl) as (rc & Hrc & Hone & _). exists rc. by split.
    + destruct (Hdeleted eq_refl) as (rc & Hrc & Hcase). exists rc. split; [done|].
      destruct Hcase as [[Hdel _]|[_ Hnone]]; [|done].
      vm_compute in Hrc. injection Hrc as <-. vm_compute in Hdel. discriminate Hdel.
Defined.

(** *** The order of the rows *)

Lemma filter_Permutation {A} (f : A -> bool) (l1 l2 : list A) :
  l1 ≡ₚ l2 -> List.filter f l1 ≡ₚ List.filter f l2.
Proof.
  induction 1 as [|x l1 l2 _ IH|x y l|l1 l2 l3 _ IH1 _ IH2]; simpl.
  - done.
  - destruct (f x); [by constructor|done].
  - destruct (f x), (f y); try done. apply perm_swap.
  - by etrans.
Qed.

Lemma sameRecords_refl l : sameRecords l l.
Proof. unfold sameRecords. induction l; constructor; [done|done]. Qed.

(** X9.  The order in which the database returns the rows does not matter,
    as long as the canonical strings tell the tuples of the staged changes
    apart: a poll over a table holding the same rows in another order
    stages the same map, and returns the same cursor, the same error and
    the same records, revision by revision, up to the order of the changes
    inside a record. *)
Theorem loadChanges_row_order db db' afterRevision stagedUpdates newRevision err :
  postgres.loadRevision db' = postgres.loadRevision db ->
  postgres.queryErr db' = postgres.queryErr db ->
  postgres.rowsErr db' = postgres.rowsErr db ->
  postgres.tableRows db' ≡ₚ postgres.tableRows db ->
  keysIdentifyTuples (pollEvents db afterRevision) ->
  postgres.loadChanges db afterRevision = Some (stagedUpdates, newRevision, err) ->
  applyEvents ∅ (pollEvents db' afterRevision) = applyEvents ∅ (pollEvents db afterRevision)
  ∧ exists stagedUpdates',
      postgres.loadChanges db' afterRevision = Some (stagedUpdates', newRevision, err)
      ∧ sameRecords stagedUpdates' stagedUpdates.
Proof.
  intros Hrev Hq Hr Hperm Hkeys Hload.
  assert (Hev : pollEvents db afterRevision ≡ₚ pollEvents db' afterRevision).
  { unfold pollEvents, polledRows, sq.run. rewrite Hrev.
    apply bind_Permutation. by apply filter_Permutation. }
  pose proof (applyEvents_perm _ _ Hev Hkeys ∅) as Hsame.
  split; [done|]. exists stagedUpdates. split; [|apply sameRecords_refl].
  rewrite <- Hload. unfold postgres.loadChanges. rewrite Hrev, Hq, Hr.
  destruct (postgres.loadRevision db) as [n [e|]] eqn:En; [done|].
  destruct (n =? afterRevision)%N; [done|].
  destruct (postgres.queryErr db); [done|]. destruct (postgres.rowsErr db); [done|].
  rewrite !stageRows_events.
  unfold pollEvents, polledRows in Hsame. rewrite Hrev, En in Hsame. simpl in Hsame.
  by rewrite Hsame.
Qed.

Lemma loadChanges_row_order_witness :
  exists stagedUpdates stagedUpdates',
    postgres.loadChanges (sampleDb 0) 0 = Some (stagedUpdates, 4%N, None)
    ∧ postgres.loadChanges
        {| postgres.loadRevision := (4%N, None);
           postgres.tableRows := rev (postgres.tableRows (sampleDb 0));
           postgres.queryErr := None;
           postgres.rowsErr := None |} 0
      = Some (stagedUpdates', 4%N, None)
    ∧ sameRecords stagedUpdates' stagedUpdates.
Proof.
  destruct (postgres.loadChanges (sampleDb 0) 0) as [[[stagedUpdates n] err]|] eqn:Hload;
    [|vm_compute in Hload; discriminate Hload].
  destruct (loadChanges_row_order (sampleDb 0)
              {| postgres.loadRevision := (4%N, None);
                 postgres.tableRows := rev (postgres.tableRows (sampleDb 0));
                 postgres.queryErr := None;
                 postgres.rowsErr := None |} 0 stagedUpdates n err)
    as (_ & stagedUpdates' & Hload' & Hsame).
  - reflexivity.
  - reflexivity.
  - reflexivity.
  - simpl. symmetry. apply Permutation_rev.
  - unfold keysIdentifyTuples. apply (bool_decide_unpack _). vm_compute. exact I.
  - exact Hload.
  - exists stagedUpdates, stagedUpdates'.
    assert (n = 4%N ∧ err = None) as [-> ->].
    { vm_compute in Hload. by injection Hload as _ <- <-. }
    by repeat split.
Defined.

(** *** Failures of a poll *)

(** X10.  A poll that fails returns no changes, whatever it had scanned, and
    its error is the error of [loadRevision], or the error of the query with
    [context.Canceled] turned into [WatchCanceled], or the error met while
    reading the rows.  When the counter has not moved the poll does not
    query at all: it returns nothing and no error even if the query would
    fail. *)
Theorem loadChanges_failure db afterRevision stagedUpdates newRevision err :
  postgres.loadChanges db afterRevision = Some (stagedUpdates, newRevision, Some err) ->
  stagedUpdates = []
  ∧ ((postgres.loadRevision db).2 = Some err
     ∨ (postgres.loadRevision db).2 = None ∧ newRevision ≠ afterRevision
       ∧ ((exists e, postgres.queryErr db = Some e
                     ∧ err = if decide (e = context_Canceled) then ErrWatchCanceled else e)
          ∨ postgres.queryErr db = None ∧ postgres.rowsErr db = Some err))
  ∧ (forall db0, postgres.loadRevision db0 = (afterRevision, None) ->
       postgres.loadChanges db0 afterRevision = Some ([], afterRevision, None)).
Proof.
  intros Hload. split; [by eapply loadChanges_failed|]. split.
  - unfold postgres.loadChanges in Hload.
    destruct (postgres.loadRevision db) as [n [e|]]; simpl.
    { injection Hload as _ _ ->. by left. }
    right. destruct (N.eqb_spec n afterRevision) as [Heq|Hne]; [done|].
    destruct (postgres.queryErr db) as [e|].
    { injection Hload as _ <- <-. split; [done|]. split; [done|]. left. eauto. }
    destruct (postgres.rowsErr db) as [e|].
    { injection Hload as _ <- <-. split; [done|]. split; [done|]. by right. }
    destruct (postgres.stageRows _ _ _ _); simpl in Hload; done.
  - intros db0 Hrev. unfold postgres.loadChanges. rewrite Hrev.
    by rewrite N.eqb_refl.
Qed.

Lemma loadChanges_failure_witness :
  postgres.loadChanges
    {| postgres.loadRevision := (4%N, None); postgres.tableRows := postgres.tableRows (sampleDb 0);
       postgres.queryErr := None; postgres.rowsErr := Some (ErrOther "read failed") |} 0
  = Some ([], 4%N, Some (ErrOther "read failed")).
Proof.
  destruct (postgres.loadChanges
              {| postgres.loadRevision := (4%N, None);
                 postgres.tableRows := postgres.tableRows (sampleDb 0);
                 postgres.queryErr := None;
                 postgres.rowsErr := Some (ErrOther "read failed") |} 0)
    as [[[stagedUpdates n] [err|]]|] eqn:Hload;
    try (vm_compute in Hload; discriminate Hload).
  destruct (loadChanges_failure _ _ _ _ _ Hload) as [-> _].
  vm_compute in Hload. by injection Hload as -> ->.
Defined.

End ChangeFeedMore.

(** * Further properties of the goroutine of [Watch] *)

Section WatchMore.

(** X11.  The goroutine never reaches the [log.Fatal] of [addChange]: a poll
    only stages TOUCH and DELETE, so [loadChanges] always returns, and
    [Watch] is either still polling or has returned with an error. *)
Theorem Watch_never_fatal pgd afterRevision envs :
  (postgres.Watch pgd afterRevision envs).2 ≠ postgres.Fatal
  ∧ (forall db currentTxn, is_Some (postgres.loadChanges db currentTxn)).
Proof.
  split; [|intros; apply loadChanges_total].
  unfold postgres.Watch. generalize (datastore.transactionFromRevision afterRevision).
  generalize {| postgres.chanBuffered := []; postgres.chanReceived := [] |}.
  induction envs as [|env envs IH]; intros ch currentTxn; simpl; [done|].
  destruct (postgres.watchTurn pgd env ch currentTxn) as [ch' status] eqn:Hturn.
  destruct status as [c| |]; simpl; [apply IH|done|].
  unfold postgres.watchTurn in Hturn.
  destruct (loadChanges_total (postgres.pollDb env) currentTxn) as [[[out n] err] Hload].
  rewrite Hload in Hturn. destruct err as [e|].
  - by destruct (postgres.ctxCanceled env).
  - destruct (postgres.emitStaged _ _ ch out) as [ch1 [|]]; [|done].
    destruct (length out =? 0)%nat; [destruct (postgres.sleepInterrupted env)|]; done.
Qed.



(** What one turn does, by the outcome of its poll. *)
Lemma watchTurn_sends pgd env ch currentTxn ch' status :
  postgres.watchTurn pgd env ch currentTxn = (ch', status) ->
  exists sent,
    postgres.emitted ch' = postgres.emitted ch ++ sent
    ∧ match postgres.loadChanges (postgres.pollDb env) currentTxn with
      | Some (stagedUpdates, currentTxn', None) =>
          sent `prefix_of` stagedUpdates
          ∧ (forall c, status = postgres.Polling c -> sent = stagedUpdates ∧ c = currentTxn')
      | _ => sent = [] ∧ stopped status
      end.
Proof.
  unfold postgres.watchTurn.
  destruct (postgres.loadChanges (postgres.pollDb env) currentTxn)
    as [[[stagedUpdates n] [err|]]|].
  - intros Hturn. exists []. rewrite app_nil_r.
    destruct (postgres.ctxCanceled env); by injection Hturn as <- <-.
  - destruct (postgres.emitStaged _ _ ch stagedUpdates) as [ch1 ok] eqn:Hemit.
    apply emitStaged_emitted in Hemit as (sent & Hpre & Hem & Hok).
    intros Hturn. exists sent.
    destruct ok.
    + rewrite (Hok eq_refl) in *.
      destruct (length stagedUpdates =? 0)%nat;
        [destruct (postgres.sleepInterrupted env)|];
        injection Hturn as <- <-; (split; [done|]); (split; [done|]);
        intros c; by intros [= <-].
    + injection Hturn as <- <-. by repeat split.
  - intros [= <- <-]. exists []. by rewrite app_nil_r.
Qed.

(** X13.  The subscription loses nothing and invents nothing.  Whatever the
    loop has sent on the channel when it stops or runs out of polls is a
    prefix of what its polls staged, in the order they staged it; as long as
    the loop is still polling, everything staged so far has been sent. *)
Theorem watchLoop_sends_staged pgd envs ch currentTxn ch' status :
  postgres.watchLoop pgd envs ch currentTxn = (ch', status) ->
  exists sent,
    sent `prefix_of` stagedByPolls envs currentTxn
    ∧ postgres.emitted ch' = postgres.emitted ch ++ sent
    ∧ (forall c, status = postgres.Polling c -> sent = stagedByPolls envs currentTxn).
Proof.
  revert ch currentTxn ch' status.
  induction envs as [|env envs IH]; intros ch currentTxn ch' status; simpl.
  - intros [= <- <-]. exists []. by rewrite app_nil_r.
  - destruct (postgres.watchTurn pgd env ch currentTxn) as [ch1 status1] eqn:Hturn.
    apply watchTurn_sends in Hturn as (sent1 & Hem1 & Hcase).
    destruct (postgres.loadChanges (postgres.pollDb env) currentTxn)
      as [[[stagedUpdates n] [err|]]|].
    + destruct Hcase as [-> Hstop]. destruct status1; [done| |];
        intros [= <- <-]; exists []; by rewrite app_nil_r in *.
    + destruct Hcase as [Hpre Hpoll]. destruct status1 as [c| |].
      * destruct (Hpoll c eq_refl) as [-> ->].
        intros Hloop. apply IH in Hloop as (sent & Hpre2 & Hem & Hall).
        exists (stagedUpdates ++ sent). split; [by apply prefix_app|].
        split; [by rewrite Hem, Hem1, app_assoc|].
        intros c' Hc'. by rewrite (Hall c' Hc').
      * intros [= <- <-]. exists sent1. split; [by apply prefix_app_r|]. by split.
      * intros [= <- <-]. exists sent1. split; [by apply prefix_app_r|]. by split.
    + destruct Hcase as [-> Hstop]. destruct status1; [done| |];
        intros [= <- <-]; exists []; by rewrite app_nil_r in *.
Qed.

Lemma watchLoop_sends_staged_witness :
  exists ch',
    postgres.watchLoop roomyPgd [servedPoll (sampleDb 0); servedPoll (laterDb 0)]
      {| postgres.chanBuffered := []; postgres.chanReceived := [] |} 0
    = (ch', postgres.Polling 5)
    ∧ postgres.emitted ch'
      = stagedByPolls [servedPoll (sampleDb 0); servedPoll (laterDb 0)] 0.
Proof.
  destruct (postgres.watchLoop roomyPgd _ _ 0) as [ch' status] eqn:Hloop.
  destruct (watchLoop_sends_staged _ _ _ _ _ _ Hloop) as (sent & _ & Hem & Hall).
  vm_compute in Hloop. injection Hloop as <- <-.
  eexists. split; [reflexivity|].
  rewrite Hem. simpl. by rewrite (Hall 5%N eq_refl).
Defined.

(** X14.  A failed query ends the subscription without sending anything
    more.  The error sent on [errors] is [WatchCanceled] when the context is
    cancelled or the query failed with [context.Canceled], and the error of
    the query otherwise. *)
Theorem Watch_query_failure pgd env envs ch currentTxn newRevision e :
  postgres.loadRevision (postgres.pollDb env) = (newRevision, None) ->
  newRevision ≠ currentTxn ->
  postgres.queryErr (postgres.pollDb env) = Some e ->
  postgres.watchLoop pgd (env :: envs) ch currentTxn
  = (ch, postgres.Returned
           (if postgres.ctxCanceled env || bool_decide (e = context_Canceled)
            then ErrWatchCanceled else e)).
Proof.
  intros Hrev Hne Hq. simpl. unfold postgres.watchTurn, postgres.loadChanges.
  rewrite Hrev, Hq. apply N.eqb_neq in Hne. rewrite Hne.
  destruct (postgres.ctxCanceled env); simpl; [done|].
  destruct (decide (e = context_Canceled)) as [->|Hc].
  - by rewrite bool_decide_eq_true_2.
  - by rewrite bool_decide_eq_false_2.
Qed.

Lemma Watch_query_failure_witness :
  postgres.watchLoop narrowPgd
    [ pausedPoll {| postgres.loadRevision := (4%N, None); postgres.tableRows := [];
                    postgres.queryErr := Some context_Canceled;
                    postgres.rowsErr := None |} ]
    {| postgres.chanBuffered := []; postgres.chanReceived := [] |} 0
  = ({| postgres.chanBuffered := []; postgres.chanReceived := [] |},
     postgres.Returned ErrWatchCanceled).
Proof.
  rewrite (Watch_query_failure narrowPgd _ [] _ 0 4 context_Canceled).
  - reflexivity.
  - reflexivity.
  - discriminate.
  - reflexivity.
Defined.

Lemma watchLoop_after_start pgd envs : forall ch currentTxn start,
  Forall (fun n => (start <= n)%N) (readings envs) ->
  (start <= currentTxn)%N ->
  Forall (fun revision => (start < revision)%N) (revisionsOf (postgres.emitted ch)) ->
  Forall (fun revision => (start < revision)%N)
    (revisionsOf (postgres.emitted (postgres.watchLoop pgd envs ch currentTxn).1)).
Proof.
  induction envs as [|env envs IH]; intros ch currentTxn start Hread Hcur Hold; simpl;
    [done|].
  destruct (postgres.watchTurn pgd env ch currentTxn) as [ch' status] eqn:Hturn.
  apply watchTurn_emitted in Hturn as (sent & Hem & _ & Hsent & Hpoll).
  assert (Hnew : Forall (fun revision => (start < revision)%N)
                   (revisionsOf (postgres.emitted ch'))).
  { rewrite Hem. unfold revisionsOf. rewrite fmap_app. apply Forall_app. split; [done|].
    destruct Hsent as [->|(n & _ & Hb)]; [constructor|].
    eapply Forall_impl; [exact Hb|]. simpl. intros. lia. }
  destruct status as [currentTxn'| |]; simpl; [|done|done].
  specialize (Hpoll currentTxn' eq_refl).
  rewrite (readings_cons_ok _ _ _ Hpoll) in Hread.
  apply Forall_cons in Hread as [Hhd Hread].
  by apply IH.
Qed.

(** X15.  A subscriber is sent nothing it has already seen: when every
    transaction read by [loadRevision] is at least the starting revision,
    every record sent on [updates] carries a revision after the starting
    revision. *)
Theorem Watch_after_start pgd afterRevision envs :
  Forall (fun n => (datastore.transactionFromRevision afterRevision <= n)%N)
         (readings envs) ->
  Forall (fun revision => (datastore.transactionFromRevision afterRevision < revision)%N)
    (revisionsOf (postgres.emitted (postgres.Watch pgd afterRevision envs).1)).
Proof.
  intros Hread. unfold postgres.Watch.
  apply watchLoop_after_start; [done|lia|constructor].
Qed.

Lemma Watch_after_start_witness :
  Forall (fun revision => (4 < revision)%N)
    (revisionsOf
       (postgres.emitted
          (postgres.Watch roomyPgd (datastore.revisionFromTransaction 4)
             [servedPoll (sampleDb 0); servedPoll (laterDb 0)]).1)).
Proof.
  apply (Watch_after_start roomyPgd (datastore.revisionFromTransaction 4)
           [servedPoll (sampleDb 0); servedPoll (laterDb 0)]).
  apply (bool_decide_unpack _). vm_compute. exact I.
Defined.

End WatchMore.

(** * Further properties of the tuple queries *)

Section TupleQueriesMore.

Variable liveDeletedTxnID : N.

(** X16.  The tracer attributes of [QueryTuples] tell what the query
    filters on.  The predicates it adds to the living-rows query are the
    predicates its tracer attributes stand for, one for one and in the same
    order, so a row is selected exactly when it is a living row whose
    columns carry the values of the attributes; the namespace attribute
    always comes first. *)
Theorem QueryTuples_attributes_match pgd filter revision :
  let q := postgres.QueryTuples liveDeletedTxnID pgd filter revision in
  let living :=
    postgres.filterToLivingObjects liveDeletedTxnID postgres.queryTuples revision in
  sq.whereParts (common.InitialQuery q)
  = sq.whereParts living ++ (attributePredicate <$> common.TracerAttributes q)
  ∧ (forall r,
       sq.selects (common.InitialQuery q) r = true
       ↔ sq.selects living r = true
         ∧ Forall (fun kv => rowColumn r (attributeColumn (common.attrKey kv))
                             = VString (common.attrValue kv))
                  (common.TracerAttributes q))
  ∧ head (common.TracerAttributes q)
    = Some {| common.attrKey := common.ObjNamespaceNameKey;
              common.attrValue := datastore.ResourceType filter |}.
Proof.
  intros q living.
  assert (Hparts : sq.whereParts (common.InitialQuery q)
                   = sq.whereParts living
                     ++ (attributePredicate <$> common.TracerAttributes q)).
  { subst q living. rewrite QueryTuples_whereParts. unfold postgres.QueryTuples.
    destruct (decide (datastore.OptionalResourceID filter = "")) as [Hid|Hid];
      destruct (decide (datastore.OptionalResourceRelation filter = "")) as [Hrel|Hrel].
    - rewrite decide_False by (by intros []). rewrite decide_False by (by intros []). done.
    - rewrite decide_False by (by intros []). rewrite decide_True by done. done.
    - rewrite decide_True by done. rewrite decide_False by (by intros []). done.
    - rewrite decide_True by done. rewrite decide_True by done. done. }
  split; [done|]. split.
  - intros r. unfold sq.selects at 1. rewrite Hparts, forallb_app, andb_true_iff.
    fold (sq.selects living r).
    assert (Hatt : forall kvs,
              forallb (sq.holds r) (attributePredicate <$> kvs) = true
              ↔ Forall (fun kv => rowColumn r (attributeColumn (common.attrKey kv))
                                  = VString (common.attrValue kv)) kvs).
    { induction kvs as [|kv kvs IH]; simpl; [by split; [constructor|]|].
      rewrite andb_true_iff, Forall_cons, IH.
      assert (sqlEq (rowColumn r (attributeColumn (common.attrKey kv)))
                    (VString (common.attrValue kv)) = true
              ↔ rowColumn r (attributeColumn (common.attrKey kv))
                = VString (common.attrValue kv)) as ->; [|done].
      destruct kv as [[] v]; simpl; rewrite bool_decide_eq_true;
        split; congruence. }
    by rewrite Hatt.
  - subst q. unfold postgres.QueryTuples.
    destruct (decide (datastore.OptionalResourceID filter ≠ ""));
      destruct (decide (datastore.OptionalResourceRelation filter ≠ "")); done.
Qed.

Lemma QueryTuples_selects pgd filter revision r :
  sq.selects (common.InitialQuery
                (postgres.QueryTuples liveDeletedTxnID pgd filter revision)) r = true
  ↔ sq.selects
      (postgres.filterToLivingObjects liveDeletedTxnID postgres.queryTuples revision) r
    = true
    ∧ v0.Namespace (v0.tplObjectAndRelation (rowTuple r)) = datastore.ResourceType filter
    ∧ (datastore.OptionalResourceID filter = ""
       ∨ v0.ObjectId (v0.tplObjectAndRelation (rowTuple r))
         = datastore.OptionalResourceID filter)
    ∧ (datastore.OptionalResourceRelation filter = ""
       ∨ v0.Relation (v0.tplObjectAndRelation (rowTuple r))
         = datastore.OptionalResourceRelation filter).
Proof.
  unfold sq.selects at 1. rewrite QueryTuples_whereParts.
  rewrite !forallb_app, !andb_true_iff. fold (sq.selects
    (postgres.filterToLivingObjects liveDeletedTxnID postgres.queryTuples revision) r).
  simpl. rewrite andb_true_r, bool_decide_eq_true.
  destruct (decide (datastore.OptionalResourceID filter = "")) as [Hid|Hid];
    destruct (decide (datastore.OptionalResourceRelation filter = "")) as [Hrel|Hrel];
    simpl; rewrite ?andb_true_r, ?bool_decide_eq_true; intuition congruence.
Qed.

(** X17.  Filling in a filter never adds rows.  When [filter'] has the
    resource type of [filter] and agrees with every optional field that
    [filter] gives, the rows [QueryTuples] returns for [filter'] at a
    revision are among the rows it returns for [filter], and they come in
    the order of the table. *)
Theorem QueryTuples_narrows pgd filter filter' revision table :
  datastore.ResourceType filter' = datastore.ResourceType filter ->
  (datastore.OptionalResourceID filter = ""
   ∨ datastore.OptionalResourceID filter' = datastore.OptionalResourceID filter) ->
  (datastore.OptionalResourceRelation filter = ""
   ∨ datastore.OptionalResourceRelation filter'
     = datastore.OptionalResourceRelation filter) ->
  sq.run (common.InitialQuery
            (postgres.QueryTuples liveDeletedTxnID pgd filter' revision)) table
  `sublist_of`
  sq.run (common.InitialQuery
            (postgres.QueryTuples liveDeletedTxnID pgd filter revision)) table.
Proof.
  intros Hty Hid Hrel. unfold sq.run.
  induction table as [|r table IH]; simpl; [done|].
  destruct (sq.selects (common.InitialQuery
              (postgres.QueryTuples liveDeletedTxnID pgd filter' revision)) r) eqn:E'.
  - apply QueryTuples_selects in E' as (Hlive & Hns & Hi & Hr).
    assert (sq.selects (common.InitialQuery
              (postgres.QueryTuples liveDeletedTxnID pgd filter revision)) r = true) as ->.
    { apply QueryTuples_selects. split; [done|]. split; [congruence|].
      split; [destruct Hid as [?|Hid], Hi as [Hi|Hi]|destruct Hrel as [?|Hrel], Hr as [Hr|Hr]];
        first [by left | right; congruence | left; congruence]. }
    by apply sublist_skip.
  - destruct (sq.selects (common.InitialQuery
                (postgres.QueryTuples liveDeletedTxnID pgd filter revision)) r);
      [by apply sublist_cons|done].
Qed.

End TupleQueriesMore.

Lemma QueryTuples_narrows_witness :
  sq.run (common.InitialQuery
            (postgres.QueryTuples 0 narrowPgd sampleFilter
               (datastore.revisionFromTransaction 4)))
         (postgres.tableRows (laterDb 0))
  `sublist_of`
  sq.run (common.InitialQuery
            (postgres.QueryTuples 0 narrowPgd
               {| datastore.ResourceType := "document";
                  datastore.OptionalResourceID := "";
                  datastore.OptionalResourceRelation := "" |}
               (datastore.revisionFromTransaction 4)))
         (postgres.tableRows (laterDb 0)).
Proof.
  apply (QueryTuples_narrows 0 narrowPgd).
  - reflexivity.
  - left. reflexivity.
  - left. reflexivity.
Defined.

(** * Further properties of the schema service *)

(** X18.  [rewriteError] maps to the surface of the service once and for
    all: its result is never one of the three internal kinds it rewrites (an
    unknown namespace, a compiler error with context, a read-only
    datastore), it leaves every other error as it is, and rewriting a
    second time changes nothing. *)
Theorem rewriteError_surface err :
  (forall name, v1alpha1.rewriteError err ≠ UnknownNamespaceError name)
  ∧ (forall msg, v1alpha1.rewriteError err ≠ ErrorWithContext msg)
  ∧ v1alpha1.rewriteError err ≠ ErrReadOnly
  ∧ v1alpha1.rewriteError (v1alpha1.rewriteError err) = v1alpha1.rewriteError err
  ∧ ((forall name, err ≠ UnknownNamespaceError name) ->
     (forall msg, err ≠ ErrorWithContext msg) ->
     err ≠ ErrReadOnly ->
     v1alpha1.rewriteError err = err).
Proof.
  destruct err; simpl; repeat split; try done; intros; congruence.
Qed.

Section SchemaServiceMore.

Context {D : Type} `{!datastore.Datastore D} `{!v1alpha1.Collaborators D}.

Implicit Types (ds : D) (nsdef : v0.NamespaceDefinition)
  (nsdefs todo written : list v0.NamespaceDefinition).

Lemma afterWrites_snoc ds written nsdef :
  afterWrites ds (written ++ [nsdef])
  = (datastore.WriteNamespace (afterWrites ds written) nsdef).1.
Proof. unfold afterWrites. by rewrite foldl_app. Qed.

Lemma afterWrites_cons ds nsdef todo :
  afterWrites ds (nsdef :: todo) = afterWrites (datastore.WriteNamespace ds nsdef).1 todo.
Proof. done. Qed.

Lemma writeDefinitions_prefix todo : forall ds names ds' calls result,
  v1alpha1.writeDefinitions ds names todo = (ds', calls, result) ->
  exists written,
    written `prefix_of` todo
    ∧ calls = (fun nsdef => v1alpha1.CallWriteNamespace (v0.Name nsdef)) <$> written
    ∧ ds' = afterWrites ds written
    ∧ (forall got, result = inr got ->
         written = todo ∧ writesSucceed ds todo ∧ got = names ++ (v0.Name <$> todo))
    ∧ (forall err, result = inl err -> exists err0, err = v1alpha1.rewriteError err0).
Proof.
  induction todo as [|nsdef todo IH]; intros ds names ds' calls result; simpl.
  - intros [= <- <- <-]. exists []. split; [done|]. split; [done|]. split; [done|].
    split; [|done]. intros got [= <-]. by rewrite app_nil_r.
  - destruct (datastore.WriteNamespace ds nsdef) as [ds1 [err|rev]] eqn:E.
    + intros [= <- <- <-]. exists [nsdef]. split; [by apply prefix_cons, prefix_nil|].
      split; [done|]. split; [by rewrite afterWrites_cons, E|].
      split; [done|]. intros err' [= <-]. eauto.
    + destruct (v1alpha1.writeDefinitions ds1 (names ++ [v0.Name nsdef]) todo)
        as [[ds2 calls2] r2] eqn:Hrest.
      intros [= <- <- <-].
      destruct (IH _ _ _ _ _ Hrest) as (written & Hpre & -> & -> & Hok & Herr).
      exists (nsdef :: written). split; [by apply prefix_cons|].
      split; [done|]. split; [by rewrite afterWrites_cons, E|].
      split; [|done].
      intros got Hgot. destruct (Hok got Hgot) as (-> & Hs & ->).
      by rewrite <- app_assoc.
Qed.

Lemma validateDefinitions_error ds nsm nsdefs todo calls err :
  v1alpha1.validateDefinitions ds nsm nsdefs todo = (calls, Some err) ->
  exists err0, err = v1alpha1.rewriteError err0.
Proof.
  revert calls. induction todo as [|nsdef todo IH]; intros calls; simpl; [done|].
  destruct (v1alpha1.validateDefinition ds nsm nsdefs nsdef) as [calls1 [e|]].
  - intros [= _ <-]. eauto.
  - destruct (v1alpha1.validateDefinitions ds nsm nsdefs todo) as [calls2 r].
    intros [= _ ->]. by eapply IH.
Qed.

(** X19.  The writes of [WriteSchema] follow the batch.  The
    [WriteNamespace] calls it makes are those of a prefix of the compiled
    definitions, one call per definition, in the order of the batch, and the
    datastore is left as these calls made it; when the manager or the
    compiler fails it makes none. *)
Theorem WriteSchema_writes_prefix ss ds req ds' calls result :
  v1alpha1.WriteSchema ss ds req = (ds', calls, result) ->
  exists written,
    List.filter isWrite calls
    = (fun nsdef => v1alpha1.CallWriteNamespace (v0.Name nsdef)) <$> written
    ∧ ds' = afterWrites ds written
    ∧ match v1alpha1.NewCachingNamespaceManager ds, compiledSchema ss req with
      | inr _, inr nsdefs => written `prefix_of` nsdefs
      | _, _ => written = []
      end.
Proof.
  unfold v1alpha1.WriteSchema, compiledSchema.
  destruct (v1alpha1.NewCachingNamespaceManager ds) as [e0|nsm].
  { intros [= <- <- <-]. by exists []. }
  destruct (v1alpha1.Compile _ _) as [e1|nsdefs].
  { intros [= <- <- <-]. by exists []. }
  pose proof (validateDefinitions_noWrites ds nsm nsdefs nsdefs) as Hchecks.
  destruct (v1alpha1.validateDefinitions ds nsm nsdefs nsdefs) as [checks [e2|]];
    simpl in Hchecks.
  { intros [= <- <- <-]. exists []. split; [|split; [done|apply prefix_nil]].
    simpl. induction Hchecks as [|c checks Hc _ IH]; simpl; [done|]. by rewrite Hc. }
  destruct (v1alpha1.writeDefinitions ds [] nsdefs) as [[ds1 writes] r] eqn:Hw.
  destruct (writeDefinitions_prefix _ _ _ _ _ _ Hw) as (written & Hpre & -> & -> & _).
  intros Hres. exists written.
  assert (calls = (v1alpha1.CallNewCachingNamespaceManager :: v1alpha1.CallCompile :: checks)
                  ++ ((fun nsdef => v1alpha1.CallWriteNamespace (v0.Name nsdef)) <$> written)
          ∧ ds' = afterWrites ds written) as [-> ->].
  { destruct r; by injection Hres as <- <- <-. }
  split; [|done].
  apply filter_isWrite_app; [by repeat constructor|].
  apply Forall_fmap, Forall_forall. done.
Qed.

(** X20.  A response means the whole batch went through.  When
    [WriteSchema] returns a response, the schema compiled, every definition
    passed its three checks, every definition was written, the datastore is
    as the writes of the whole batch left it, and the response lists the
    names of the definitions in the order of the batch. *)
Theorem WriteSchema_success ss ds req ds' calls resp :
  v1alpha1.WriteSchema ss ds req = (ds', calls, inr resp) ->
  exists nsm nsdefs,
    v1alpha1.NewCachingNamespaceManager ds = inr nsm
    ∧ compiledSchema ss req = inr nsdefs
    ∧ Forall (passesChecks ds nsm nsdefs) nsdefs
    ∧ writesSucceed ds nsdefs
    ∧ ds' = afterWrites ds nsdefs
    ∧ v1alpha1.ObjectDefinitionsNames resp = v0.Name <$> nsdefs.
Proof.
  unfold v1alpha1.WriteSchema, compiledSchema.
  destruct (v1alpha1.NewCachingNamespaceManager ds) as [e0|nsm]; [done|].
  destruct (v1alpha1.Compile _ _) as [e1|nsdefs]; [done|].
  pose proof (validateDefinitions_all_pass ds nsm nsdefs nsdefs) as Hpass.
  destruct (v1alpha1.validateDefinitions ds nsm nsdefs nsdefs) as [checks [e2|]];
    simpl in Hpass; [done|].
  destruct (v1alpha1.writeDefinitions ds [] nsdefs) as [[ds1 writes] [e3|names]] eqn:Hw;
    [done|].
  intros [= <- <- <-].
  destruct (writeDefinitions_prefix _ _ _ _ _ _ Hw) as (written & _ & _ & -> & Hok & _).
  destruct (Hok names eq_refl) as (-> & Hs & ->).
  exists nsm, nsdefs. repeat split; try done. by apply Hpass.
Qed.

(** X21.  Every error [WriteSchema] returns has gone through
    [rewriteError]: it never returns an unknown-namespace error, a compiler
    error with context or the read-only error of the datastore as such. *)
Theorem WriteSchema_errors_rewritten ss ds req ds' calls err :
  v1alpha1.WriteSchema ss ds req = (ds', calls, inl err) ->
  (exists err0, err = v1alpha1.rewriteError err0)
  ∧ (forall name, err ≠ UnknownNamespaceError name)
  ∧ (forall msg, err ≠ ErrorWithContext msg)
  ∧ err ≠ ErrReadOnly.
Proof.
  intros Hrun.
  assert (Hre : exists err0, err = v1alpha1.rewriteError err0).
  { unfold v1alpha1.WriteSchema in Hrun.
    destruct (v1alpha1.NewCachingNamespaceManager ds) as [e0|nsm].
    { injection Hrun as _ _ <-. eauto. }
    destruct (v1alpha1.Compile _ _) as [e1|nsdefs].
    { injection Hrun as _ _ <-. eauto. }
    destruct (v1alpha1.validateDefinitions ds nsm nsdefs nsdefs) as [checks [e2|]] eqn:Hv.
    { injection Hrun as _ _ <-. by eapply validateDefinitions_error. }
    destruct (v1alpha1.writeDefinitions ds [] nsdefs) as [[ds1 writes] [e3|names]] eqn:Hw;
      [|done].
    injection Hrun as _ _ <-.
    destruct (writeDefinitions_prefix _ _ _ _ _ _ Hw) as (_ & _ & _ & _ & _ & Herr).
    by apply Herr. }
  split; [done|]. destruct Hre as [err0 ->].
  destruct err0; simpl; repeat split; intros; congruence.
Qed.

End SchemaServiceMore.

Lemma WriteSchema_writes_prefix_witness :
  exists ds' calls result written,
    v1alpha1.WriteSchema sampleServer storeFailingAtSecondWrite schemaWithViewer
    = (ds', calls, result)
    ∧ List.filter isWrite calls
      = (fun nsdef => v1alpha1.CallWriteNamespace (v0.Name nsdef)) <$> written
    ∧ ds' = afterWrites storeFailingAtSecondWrite written.
Proof.
  destruct (v1alpha1.WriteSchema sampleServer storeFailingAtSecondWrite schemaWithViewer)
    as [[ds' calls] result] eqn:Hrun.
  destruct (WriteSchema_writes_prefix _ _ _ _ _ _ Hrun) as (written & Hcalls & Hds & _).
  exists ds', calls, result, written. by repeat split.
Defined.

Lemma WriteSchema_success_witness :
  exists ds' calls resp,
    v1alpha1.WriteSchema sampleServer storeWithViewers schemaWithViewer
    = (ds', calls, inr resp)
    ∧ v1alpha1.ObjectDefinitionsNames resp = ["user"; "document"].
Proof.
  destruct (v1alpha1.WriteSchema sampleServer storeWithViewers schemaWithViewer)
    as [[ds' calls] [err|resp]] eqn:Hrun; [vm_compute in Hrun; discriminate Hrun|].
  exists ds', calls, resp. split; [reflexivity|].
  destruct (WriteSchema_success _ _ _ _ _ _ Hrun) as (nsm & nsdefs & _ & Hc & _ & _ & _ & ->).
  vm_compute in Hc. injection Hc as <-. reflexivity.
Defined.

Lemma WriteSchema_errors_rewritten_witness :
  exists ds' calls err,
    v1alpha1.WriteSchema sampleServer storeWithViewers
      {| v1alpha1.Schema := "definition" |}
    = (ds', calls, inl err)
    ∧ forall msg, err ≠ ErrorWithContext msg.
Proof.
  destruct (v1alpha1.WriteSchema sampleServer storeWithViewers
              {| v1alpha1.Schema := "definition" |})
    as [[ds' calls] [err|resp]] eqn:Hrun; [|vm_compute in Hrun; discriminate Hrun].
  exists ds', calls, err. split; [reflexivity|].
  by destruct (WriteSchema_errors_rewritten _ _ _ _ _ _ Hrun) as (_ & _ & Hctx & _).
Defined.

(** * [ReadSchema] *)

Section ReadSchemaFacts.

Context {D : Type} `{!datastore.NamespaceReader D} `{!v1alpha1.SourceGenerator}.

Implicit Types (ds : D) (names : list string) (found : list v0.NamespaceDefinition).

Lemma readDefinitions_success names : forall ds objectDefs found,
  readsGive ds names found ->
  v1alpha1.readDefinitions ds objectDefs names
  = inr (objectDefs ++ ((fun nsdef => (v1alpha1.GenerateSource nsdef).1) <$> found)).
Proof.
  induction names as [|name names IH]; intros ds objectDefs [|nsdef found]; simpl; try done.
  - intros _. by rewrite app_nil_r.
  - intros [[revision Hread] Hrest]. rewrite Hread.
    rewrite (IH _ _ _ Hrest). by rewrite <- app_assoc.
Qed.

Lemma readDefinitions_failure pre : forall ds objectDefs found name post err,
  readsGive ds pre found ->
  datastore.ReadNamespace ds name = inl err ->
  v1alpha1.readDefinitions ds objectDefs (pre ++ name :: post)
  = inl (v1alpha1.rewriteError err).
Proof.
  induction pre as [|n pre IH]; intros ds objectDefs [|nsdef found] name post err; simpl;
    try done.
  - intros _ Hread. by rewrite Hread.
  - intros [[revision Hread] Hrest] Hfail. rewrite Hread. by eapply IH.
Qed.

(** X22.  [ReadSchema] answers name by name.  When every requested
    namespace can be read, the response holds the generated source of each
    definition found, one per requested name and in the order of the
    request; an empty request gives an empty response. *)
Theorem ReadSchema_success ss ds req found :
  readsGive ds (v1alpha1.ObjectDefinitionsNames_in req) found ->
  v1alpha1.ReadSchema ss ds req
  = inr {| v1alpha1.ObjectDefinitions :=
             (fun nsdef => (v1alpha1.GenerateSource nsdef).1) <$> found |}
  ∧ length found = length (v1alpha1.ObjectDefinitionsNames_in req).
Proof.
  intros Hreads. unfold v1alpha1.ReadSchema.
  rewrite (readDefinitions_success _ _ _ _ Hreads). split; [done|].
  revert found Hreads. induction (v1alpha1.ObjectDefinitionsNames_in req) as [|n names IH];
    intros [|nsdef found]; simpl; try done.
  intros [_ Hrest]. f_equal. by apply IH.
Qed.

(** X23.  [ReadSchema] stops at the first namespace it cannot read and
    returns the error of that read, rewritten: nothing of what it had read
    is returned, and a namespace the datastore does not know is reported as
    [NotFound] with the name of the namespace. *)
Theorem ReadSchema_failure ss ds req pre found name post err :
  v1alpha1.ObjectDefinitionsNames_in req = pre ++ name :: post ->
  readsGive ds pre found ->
  datastore.ReadNamespace ds name = inl err ->
  v1alpha1.ReadSchema ss ds req = inl (v1alpha1.rewriteError err)
  ∧ (forall unknown, err = UnknownNamespaceError unknown ->
       v1alpha1.ReadSchema ss ds req
       = inl (status_Error NotFound
                ("Object Definition `" +:+ unknown +:+ "` not found"))).
Proof.
  intros Hnames Hreads Hfail.
  assert (Hres : v1alpha1.ReadSchema ss ds req = inl (v1alpha1.rewriteError err)).
  { unfold v1alpha1.ReadSchema. rewrite Hnames.
    by rewrite (readDefinitions_failure _ _ _ _ _ _ _ Hreads Hfail). }
  split; [done|]. intros unknown ->. by rewrite Hres.
Qed.

End ReadSchemaFacts.

Lemma ReadSchema_success_witness :
  v1alpha1.ReadSchema sampleServer storeWithViewers
    {| v1alpha1.ObjectDefinitionsNames_in := ["document"; "user"] |}
  = inr {| v1alpha1.ObjectDefinitions := ["definition document {}"; "definition user {}"] |}.
Proof.
  destruct (ReadSchema_success sampleServer storeWithViewers
              {| v1alpha1.ObjectDefinitionsNames_in := ["document"; "user"] |}
              [documentDef; userDef]) as [Hres _].
  - simpl. split; [eexists; reflexivity|]. split; [eexists; reflexivity|done].
  - rewrite Hres. reflexivity.
Defined.

Lemma ReadSchema_failure_witness :
  v1alpha1.ReadSchema sampleServer storeWithViewers
    {| v1alpha1.ObjectDefinitionsNames_in := ["document"; "folder"; "user"] |}
  = inl (status_Error NotFound "Object Definition `folder` not found").
Proof.
  destruct (ReadSchema_failure sampleServer storeWithViewers
              {| v1alpha1.ObjectDefinitionsNames_in := ["document"; "folder"; "user"] |}
              ["document"] [documentDef] "folder" ["user"]
              (UnknownNamespaceError "folder")) as [_ Hnot].
  - reflexivity.
  - simpl. split; [eexists; reflexivity|done].
  - reflexivity.
  - rewrite (Hnot "folder" eq_refl). reflexivity.
Defined.
